(** * WebGPU matrix multiplication: a shallow embedding of [app/page.tsx]

    The page keeps two square matrices in React state, lets the user edit
    their cells ([updateMatrix]) and hands them to the GPU
    ([multiplyMatrices]): both matrices are flattened to [Float32Array]s
    and uploaded, a pass with a WGSL compute shader is submitted, and the
    output buffer is copied to a mappable buffer, read back and cut into
    rows again.  The shader declares its output with an access mode WGSL
    does not have for storage buffers, so the device refuses the pass and
    what is read back are zeros; the shader is embedded all the same, as
    the function of its buffers its text defines.

    Layout of this file: the embedding (numbers, the shader, the host heap,
    the GPU device, the two host functions), then the theorems. *)

From Stdlib Require Import ZArith NArith List Lia Bool Ascii String.
From Stdlib Require Import Floats.SpecFloat.
From stdpp Require Import base gmap list strings pretty.

Local Open Scope N_scope.

(** ** Numbers

    A JavaScript [number] is an IEEE 754 binary64 value and an element of a
    [Float32Array] or a WGSL [f32] is a binary32 value.  Both are carried by
    [spec_float] (sign, mantissa, exponent; the Standard Library's executable
    specification of IEEE arithmetic), in the canonical form of their
    format. *)

Definition number : Type := spec_float.
Definition f32 : Type := spec_float.

#[global] Instance spec_float_eq_dec : EqDecision spec_float.
Proof. solve_decision. Defined.

Module F64.
Definition prec : Z := 53.
Definition emax : Z := 1024.
(** The number denoted by an integer literal or an integer-valued
    expression such as [i * MATRIX_SIZE + j + 1]. *)
Definition of_Z (n : Z) : number := binary_normalize prec emax n 0 false.
Definition div : number -> number -> number := SFdiv prec emax.
Definition sub : number -> number -> number := SFsub prec emax.
Definition abs : number -> number := SFabs.
(** [a == b] on numbers: zeros of either sign are equal, NaN equals nothing. *)
Definition eqb : number -> number -> bool := SFeqb.
Definition ltb : number -> number -> bool := SFltb.
Definition isNaN (v : number) : bool :=
  match v with S754_nan => true | _ => false end.
End F64.

Module F32.
Definition prec : Z := 24.
Definition emax : Z := 128.
Definition zero : f32 := S754_zero false.
(** Storing a number into a [Float32Array]: round to nearest, ties to even
    (also what [Math.fround] does).  Values beyond the binary32 range become
    infinities. *)
Definition of_number (v : number) : f32 :=
  match v with
  | S754_finite s m e => binary_round prec emax s m e
  | _ => v
  end.
(** Reading an element of a [Float32Array] as a number: exact. *)
Definition to_number (v : f32) : number :=
  match v with
  | S754_finite s m e => binary_round F64.prec F64.emax s m e
  | _ => v
  end.
Definition one : f32 := S754_finite false 8388608 (-23).
Definition is_finite (v : f32) : bool :=
  match v with S754_zero _ | S754_finite _ _ _ => true | _ => false end.
(** A zero of either sign as the positive zero; any other value as it is. *)
Definition unsigned_zero (v : f32) : f32 :=
  match v with S754_zero _ => zero | _ => v end.
End F32.

(** The results of rounding into a format: zeros, infinities, and finite
    values in the format's canonical form. *)
Inductive rounded (prec emax : Z) : spec_float -> Prop :=
  | rounded_zero s : rounded prec emax (S754_zero s)
  | rounded_infinity s : rounded prec emax (S754_infinity s)
  | rounded_finite s m e :
      bounded prec emax m e = true -> rounded prec emax (S754_finite s m e).

(** A number that stays finite when it is rounded to binary32. *)
Definition in_f32_range (v : number) : Prop :=
  F32.is_finite (F32.of_number v) = true.

(** [Math.fround]: what a number becomes on its way through a
    [Float32Array]. *)
Definition fround (v : number) : number := F32.to_number (F32.of_number v).

(** The shader's [+] and [*] on [f32].  WGSL leaves the rounding mode and
    the treatment of subnormals, infinities and NaN to the implementation, so
    the shader is embedded over an interface; [ieee754] is the instance that
    rounds to nearest even. *)
Class F32Arith := {
  f32_add : f32 -> f32 -> f32;
  f32_mul : f32 -> f32 -> f32
}.

Definition ieee754 : F32Arith :=
  {| f32_add := SFadd F32.prec F32.emax;
     f32_mul := SFmul F32.prec F32.emax |}.

(** ** [u32] arithmetic of the shader: naturals below [2^32], wrapping. *)

Definition u32_modulus : N := 2 ^ 32.
Definition u32_add (a b : N) : N := (a + b) mod u32_modulus.
Definition u32_mul (a b : N) : N := (a * b) mod u32_modulus.

(** The values [0, 1, ..., n-1] of a counting loop. *)
Definition upto (n : N) : list N := map N.of_nat (seq 0 (N.to_nat n)).

(** ** The compute shader [shaderCode] *)

Module WGSL.

(** The access mode a resource variable is declared with. *)
Inductive access := read | write | read_write.

(** The storage buffers the module declares,
    [@group(0) @binding(n) var<storage, mode> name: Matrix;]: [matrixA] and
    [matrixB] with [read], [matrixOut] with [write]. *)
Definition bindings : list (N * access) := [ (0, read); (1, read); (2, write) ].

(** WGSL allows the access modes [read] (the default) and [read_write] on a
    variable in the [storage] address space; [write] is an access mode of
    storage textures only.  A module that declares anything else has a
    shader-creation error. *)
Definition storage_access (mode : access) : bool :=
  match mode with read | read_write => true | write => false end.

(** The module compiles: none of its declarations is an error. *)
Definition compiles : bool := forallb (fun b => storage_access (snd b)) bindings.

(** [vec3<u32>] *)
Record vec3 := Vec3 { x : N; y : N; z : N }.

(** One invocation performs at most one store into [matrixOut.numbers]. *)
Definition store : Type := N * f32.

Section Shader.
Context {arith : F32Arith}.
(** [const MATRIX_SIZE: u32 = ${MATRIX_SIZE};] *)
Variable MATRIX_SIZE : N.
(** [@binding(0)] and [@binding(1)], [var<storage, read>] *)
Variables matrixA matrixB : list f32.

(** [m.numbers[i]] for a runtime-sized array.  In bounds it is the element;
    out of bounds WGSL yields an unspecified in-memory value, taken to be
    zero here (no access of [main] is out of bounds for full-size buffers,
    see [main_reads_in_bounds]). *)
Definition numbers (m : list f32) (i : N) : f32 :=
  nth (N.to_nat i) m F32.zero.

(** Body of the [for] loop: one step from [(i, sum)]. *)
Definition body (id : vec3) (i : N) (sum : f32) : f32 :=
  let aIndex := u32_add (u32_mul (y id) MATRIX_SIZE) i in
  let bIndex := u32_add (u32_mul i MATRIX_SIZE) (x id) in
  f32_add sum (f32_mul (numbers matrixA aIndex) (numbers matrixB bIndex)).

(** [for (var i: u32 = 0u; i < MATRIX_SIZE; i = i + 1u) { ... }], with the
    number of iterations still allowed as fuel. *)
Fixpoint loop (fuel : nat) (id : vec3) (i : N) (sum : f32) : f32 :=
  match fuel with
  | O => sum
  | S fuel' =>
      if i <? MATRIX_SIZE
      then loop fuel' id (u32_add i 1) (body id i sum)
      else sum
  end.

(** What the loop is shown to compute ([loop_fold]): the terms
    [a[y][i] * b[i][x]] added to [0.0] one after the other, [i] increasing. *)
Definition accumulate (id : vec3) : f32 :=
  fold_left (fun s i => body id i s) (upto MATRIX_SIZE) F32.zero.

(** [fn main(@builtin(global_invocation_id) id: vec3<u32>)]: [None] is the
    early [return], [Some (index, sum)] the store
    [matrixOut.numbers[index] = sum]. *)
Definition main (id : vec3) : option store :=
  if (MATRIX_SIZE <=? x id) || (MATRIX_SIZE <=? y id) then None
  else
    let sum := loop (N.to_nat MATRIX_SIZE) id 0 F32.zero in
    let index := u32_add (u32_mul (y id) MATRIX_SIZE) (x id) in
    Some (index, sum).

(** The effect of one invocation on the buffer bound as [matrixOut]
    ([@binding(2)]), for a module that runs; a store beyond the end of the
    buffer is discarded. *)
Definition invoke (matrixOut : list f32) (id : vec3) : list f32 :=
  match main id with
  | None => matrixOut
  | Some (index, sum) => <[N.to_nat index := sum]> matrixOut
  end.

(** Invocations run in some order. *)
Definition run (schedule : list vec3) (matrixOut : list f32) : list f32 :=
  fold_left invoke schedule matrixOut.

End Shader.

(** [@workgroup_size(8, 8)] *)
Definition workgroup_size : N * N := (8, 8).

(** The invocations of [dispatchWorkgroups(countX, countY)]: every local id
    of every workgroup. *)
Definition global_invocation_ids (countX countY : N) : list vec3 :=
  wy ← upto countY; wx ← upto countX;
  ly ← upto (snd workgroup_size); lx ← upto (fst workgroup_size);
  [ Vec3 (wx * fst workgroup_size + lx) (wy * snd workgroup_size + ly) 0 ].

End WGSL.

(** ** The host heap: JavaScript arrays

    A [number[][]] is a reference to an array of references to arrays of
    numbers.  A slot of an inner array may also be an empty slot or hold
    [undefined]: [updateMatrix] makes such arrays when it writes beyond the
    end of a row. *)

Abbreviation loc := positive.

Inductive elt := Hole | Undefined | Num (v : number).

Inductive array := Rows (rows : list loc) | Cells (cells : list elt).

#[global] Instance elt_eq_dec : EqDecision elt.
Proof. solve_decision. Defined.

#[global] Instance array_eq_dec : EqDecision array.
Proof. solve_decision. Defined.

(** The React state of [HomePage], with the heap its arrays live in. *)
Record State := mkState {
  objects : gmap loc array;
  matrixA : loc;
  matrixB : loc;
  resultMatrix : option loc;
  error : option string;
  loading : bool
}.

Definition setObjects (h : gmap loc array) (st : State) : State :=
  mkState h (matrixA st) (matrixB st) (resultMatrix st) (error st) (loading st).
Definition setMatrixA (m : loc) (st : State) : State :=
  mkState (objects st) m (matrixB st) (resultMatrix st) (error st) (loading st).
Definition setMatrixB (m : loc) (st : State) : State :=
  mkState (objects st) (matrixA st) m (resultMatrix st) (error st) (loading st).
Definition setResultMatrix (m : option loc) (st : State) : State :=
  mkState (objects st) (matrixA st) (matrixB st) m (error st) (loading st).
Definition setError (e : option string) (st : State) : State :=
  mkState (objects st) (matrixA st) (matrixB st) (resultMatrix st) e (loading st).
Definition setLoading (b : bool) (st : State) : State :=
  mkState (objects st) (matrixA st) (matrixB st) (resultMatrix st) (error st) b.

(** ** Computations that may throw *)

Inductive outcome (A : Type) := Return (a : A) | Throw (message : string).
Arguments Return {A} a.
Arguments Throw {A} message.

(** A computation over a store [S]: its outcome and the store it leaves,
    also when it throws. *)
Definition M (S A : Type) : Type := S -> outcome A * S.

#[global] Instance M_ret {S} : MRet (M S) := fun A a s => (Return a, s).
#[global] Instance M_bind {S} : MBind (M S) := fun A B k c s =>
  match c s with
  | (Return a, s') => k a s'
  | (Throw msg, s') => (Throw msg, s')
  end.

Definition throw {S A} (message : string) : M S A := fun s => (Throw message, s).
Definition gets {S A} (f : S -> A) : M S A := fun s => (Return (f s), s).
Definition modify {S} (f : S -> S) : M S unit := fun s => (Return tt, f s).

(** [for (i = ...; ...; i++) body(i)], for the values [i] takes *)
Fixpoint for_each {S} (indices : list N) (body : N -> M S unit) : M S unit :=
  match indices with
  | [] => mret tt
  | i :: rest => body i ≫= fun _ => for_each rest body
  end.

(** *** Array primitives *)

(** A new array object. *)
Definition alloc (a : array) : M State loc := fun st =>
  let l := fresh (dom (objects st)) in
  (Return l, setObjects (<[l := a]> (objects st)) st).

Definition TypeError : string := "TypeError"%string.

(** Reading through references whose static type is [number[][]] and
    [number[]]; anything else at that place is a type error. *)
Definition rows_of (m : loc) : M State (list loc) := fun st =>
  match objects st !! m with
  | Some (Rows rs) => (Return rs, st)
  | _ => (Throw TypeError, st)
  end.

Definition cells_of (r : loc) : M State (list elt) := fun st =>
  match objects st !! r with
  | Some (Cells cs) => (Return cs, st)
  | _ => (Throw TypeError, st)
  end.

(** Spreading [[...a]] visits every index: an empty slot yields
    [undefined]. *)
Definition spread (cs : list elt) : list elt :=
  map (fun e => match e with Hole => Undefined | _ => e end) cs.

(** [a[i] = v] on an array: within the length it replaces the slot, beyond
    it the array grows and the slots in between are empty. *)
Definition array_set (cs : list elt) (i : nat) (v : elt) : list elt :=
  if decide (i < length cs)%nat then <[i := v]> cs
  else cs ++ replicate (i - length cs) Hole ++ [v].

(** [a.slice(b, e)] for [0 <= b <= e], on arrays and typed arrays. *)
Definition slice {A} (a : list A) (b e : nat) : list A := take (e - b) (drop b a).

(** What [Array.prototype.flat] keeps of an inner array: empty slots are
    skipped. *)
Definition flat_row (cs : list elt) : list elt :=
  filter (fun e => e <> Hole) cs.

(** [matrix.flat()]: the inner arrays, one after the other. *)
Fixpoint flat_rows (rs : list loc) : M State (list (list elt)) :=
  match rs with
  | [] => mret []
  | r :: rs' => cs ← cells_of r; css ← flat_rows rs'; mret (flat_row cs :: css)
  end.

Definition flat (matrix : loc) : M State (list elt) :=
  rs ← rows_of matrix; css ← flat_rows rs; mret (concat css).

(** [new Float32Array(elements)]: each element is converted to a number
    ([undefined] to NaN) and rounded to binary32. *)
Definition Float32Array (es : list elt) : list f32 :=
  map (fun e => match e with Num v => F32.of_number v | _ => S754_nan end) es.

(** [Array.from(typedArray)] *)
Definition Array_from (d : list f32) : list elt :=
  map (fun v => Num (F32.to_number v)) d.

(** ** The GPU device *)

Module GPUBufferUsage.
Definition MAP_READ : N := 0x0001.
Definition MAP_WRITE : N := 0x0002.
Definition COPY_SRC : N := 0x0004.
Definition COPY_DST : N := 0x0008.
Definition STORAGE : N := 0x0080.
End GPUBufferUsage.

(** [usage] includes [flag]. *)
Definition has_usage (usage flag : N) : bool := negb (N.land usage flag =? 0).

(** A buffer: its descriptor, its content as 32-bit floats (one per four
    bytes) and whether it is mapped for the host. *)
Module GPUBuffer.
Record t := Make {
  size : N;
  usage : N;
  contents : list f32;
  mapped : bool
}.
End GPUBuffer.

(** The module made of [shaderCode]; [code] is the value substituted for
    [${MATRIX_SIZE}].  [createShaderModule] returns a module in any case: one
    whose code has a shader-creation error is invalid, which the device
    reports as a validation error to its error scopes and not by an
    exception. *)
Record GPUShaderModule := { code : N; compiled : bool }.

Definition createShaderModule (MATRIX_SIZE : N) : GPUShaderModule :=
  {| code := MATRIX_SIZE; compiled := WGSL.compiles |}.

(** The pipeline on an entry point of a module, with [layout: "auto"]; it
    is valid when its module is. *)
Record GPUComputePipeline := { shader : GPUShaderModule; entryPoint : string }.

Definition createComputePipeline (shaderModule : GPUShaderModule) (entryPoint : string)
    : GPUComputePipeline :=
  {| shader := shaderModule; entryPoint := entryPoint |}.

Definition pipeline_valid (pipeline : GPUComputePipeline) : bool :=
  compiled (shader pipeline).

(** [pipeline.getBindGroupLayout(0)]: the layout of an invalid pipeline is
    invalid. *)
Definition getBindGroupLayout (pipeline : GPUComputePipeline) : bool :=
  pipeline_valid pipeline.

(** A bind group: whether the layout it was made for is valid, and its
    three buffers, named by their index in the device's list. *)
Record GPUBindGroup := {
  layout : bool;
  binding0 : nat;
  binding1 : nat;
  binding2 : nat
}.

Inductive PassCommand :=
  | SetPipeline (pipeline : GPUComputePipeline)
  | SetBindGroup (index : N) (bindGroup : GPUBindGroup)
  | DispatchWorkgroups (countX countY : N).

Inductive Command :=
  | ComputePass (commands : list PassCommand)
  | CopyBufferToBuffer (source : nat) (sourceOffset : N)
      (destination : nat) (destinationOffset : N) (size : N).

(** A device: the buffers created on it and the commands submitted to its
    queue so far. *)
Record GPUDevice := mkDevice {
  buffers : list GPUBuffer.t;
  submitted : list Command
}.

(** What a call of [multiplyMatrices] meets outside the program. *)
Record Env := {
  (** [navigator.gpu] is defined *)
  navigator_gpu : bool;
  (** [requestAdapter()] resolves to an adapter rather than to [null] *)
  adapter_available : bool;
  (** the call on a source line throws, or the promise it awaits is
      rejected, with this message *)
  throws : nat -> option string;
  (** the order in which the device runs the invocations of a dispatch *)
  schedule : list WGSL.vec3 -> list WGSL.vec3
}.

(** The store of [multiplyMatrices]: the React state and the device. *)
Record World := mkWorld { react : State; device : GPUDevice }.

Definition lift {A} (c : M State A) : M World A := fun w =>
  let '(r, st) := c (react w) in (r, mkWorld st (device w)).

Definition setBuffers (bs : list GPUBuffer.t) (w : World) : World :=
  mkWorld (react w) (mkDevice bs (submitted (device w))).

Definition OperationError : string := "OperationError"%string.

Section Device.
Context {arith : F32Arith}.
Variable env : Env.

(** The call on source line [line] and what the environment does to it. *)
Definition call (line : nat) : M World unit := fun w =>
  match throws env line with
  | Some msg => (Throw msg, w)
  | None => (Return tt, w)
  end.

(** [adapter.requestDevice()]: a new device. *)
Definition requestDevice : M World unit :=
  modify (fun w => mkWorld (react w) (mkDevice [] [])).

(** [device.createBuffer({size, usage})]: zero-filled and unmapped. *)
Definition createBuffer (size usage : N) : M World nat := fun w =>
  let bs := buffers (device w) in
  let b := GPUBuffer.Make size usage
             (replicate (N.to_nat (size / 4)) F32.zero) false in
  (Return (length bs), setBuffers (bs ++ [b]) w).

(** [device.queue.writeBuffer(buffer, 0, data.buffer, data.byteOffset,
    data.byteLength)] for a whole typed array [data].  A write the device
    refuses (no [COPY_DST], a mapped buffer, data longer than the buffer) is
    a validation error: nothing is written and nothing is thrown. *)
Definition writeBuffer (buffer : nat) (data : list f32) : M World unit :=
  modify (fun w =>
    let bs := buffers (device w) in
    match bs !! buffer with
    | Some b =>
        if has_usage (GPUBuffer.usage b) GPUBufferUsage.COPY_DST
           && negb (GPUBuffer.mapped b)
           && (4 * N.of_nat (length data) <=? GPUBuffer.size b)
        then setBuffers
               (<[buffer := GPUBuffer.Make (GPUBuffer.size b) (GPUBuffer.usage b)
                    (data ++ drop (length data) (GPUBuffer.contents b))
                    (GPUBuffer.mapped b)]> bs) w
        else w
    | None => w
    end).

(** A dispatch with [pipeline] and [group] set.  With a valid pipeline and
    a valid bind group of storage buffers the shader's invocations run, in
    the environment's order, on the three bound buffers.  An invalid
    pipeline or bind group, or a binding that is no storage buffer,
    invalidates the pass: its command buffer is invalid, [submit] refuses
    it with a validation error, and nothing runs and nothing is thrown. *)
Definition dispatch (pipeline : GPUComputePipeline) (group : GPUBindGroup)
    (countX countY : N) (bs : list GPUBuffer.t) : list GPUBuffer.t :=
  if pipeline_valid pipeline && layout group then
    match bs !! binding0 group, bs !! binding1 group, bs !! binding2 group with
    | Some a, Some b, Some out =>
        if has_usage (GPUBuffer.usage a) GPUBufferUsage.STORAGE
           && has_usage (GPUBuffer.usage b) GPUBufferUsage.STORAGE
           && has_usage (GPUBuffer.usage out) GPUBufferUsage.STORAGE
        then
          <[binding2 group :=
              GPUBuffer.Make (GPUBuffer.size out) (GPUBuffer.usage out)
                (WGSL.run (code (shader pipeline))
                   (GPUBuffer.contents a) (GPUBuffer.contents b)
                   (schedule env (WGSL.global_invocation_ids countX countY))
                   (GPUBuffer.contents out))
                (GPUBuffer.mapped out)]> bs
        else bs
    | _, _, _ => bs
    end
  else bs.

(** The commands of a compute pass, in order, with the pipeline and bind
    group set so far. *)
Fixpoint run_pass (commands : list PassCommand)
    (pipeline : option GPUComputePipeline) (group : option GPUBindGroup)
    (bs : list GPUBuffer.t) : list GPUBuffer.t :=
  match commands with
  | [] => bs
  | SetPipeline p :: rest => run_pass rest (Some p) group bs
  | SetBindGroup _ g :: rest => run_pass rest pipeline (Some g) bs
  | DispatchWorkgroups countX countY :: rest =>
      match pipeline, group with
      | Some p, Some g => run_pass rest pipeline group (dispatch p g countX countY bs)
      | _, _ => run_pass rest pipeline group bs
      end
  end.

(** One queued command.  A copy needs [COPY_SRC] on its source, [COPY_DST]
    on its destination, an unmapped destination and ranges inside both
    buffers; otherwise it is dropped. *)
Definition execute (c : Command) (bs : list GPUBuffer.t) : list GPUBuffer.t :=
  match c with
  | ComputePass commands => run_pass commands None None bs
  | CopyBufferToBuffer source sourceOffset destination destinationOffset size =>
      match bs !! source, bs !! destination with
      | Some s, Some d =>
          if has_usage (GPUBuffer.usage s) GPUBufferUsage.COPY_SRC
             && has_usage (GPUBuffer.usage d) GPUBufferUsage.COPY_DST
             && negb (GPUBuffer.mapped d)
             && (sourceOffset + size <=? GPUBuffer.size s)
             && (destinationOffset + size <=? GPUBuffer.size d)
          then
            let from := N.to_nat (sourceOffset / 4) in
            let to := N.to_nat (destinationOffset / 4) in
            let n := N.to_nat (size / 4) in
            <[destination :=
                GPUBuffer.Make (GPUBuffer.size d) (GPUBuffer.usage d)
                  (take to (GPUBuffer.contents d)
                   ++ take n (drop from (GPUBuffer.contents s))
                   ++ drop (to + n) (GPUBuffer.contents d))
                  (GPUBuffer.mapped d)]> bs
          else bs
      | _, _ => bs
      end
  end.

(** [device.queue.submit([commandBuffer])]: the queue runs command buffers
    in submission order. *)
Definition submit (commands : list Command) : M World unit :=
  modify (fun w =>
    mkWorld (react w)
      (mkDevice (fold_left (fun bs c => execute c bs) commands (buffers (device w)))
         (submitted (device w) ++ commands))).

(** [await buffer.mapAsync(GPUMapMode.READ)]: rejected for a buffer without
    [MAP_READ] or one already mapped. *)
Definition mapAsync (buffer : nat) : M World unit := fun w =>
  let bs := buffers (device w) in
  match bs !! buffer with
  | Some b =>
      if has_usage (GPUBuffer.usage b) GPUBufferUsage.MAP_READ
         && negb (GPUBuffer.mapped b)
      then (Return tt,
            setBuffers (<[buffer := GPUBuffer.Make (GPUBuffer.size b)
                            (GPUBuffer.usage b) (GPUBuffer.contents b) true]> bs) w)
      else (Throw OperationError, w)
  | None => (Throw OperationError, w)
  end.

(** [buffer.getMappedRange()]: the mapped content; an [OperationError] when
    the buffer is not mapped. *)
Definition getMappedRange (buffer : nat) : M World (list f32) := fun w =>
  match buffers (device w) !! buffer with
  | Some b =>
      if GPUBuffer.mapped b then (Return (GPUBuffer.contents b), w)
      else (Throw OperationError, w)
  | None => (Throw OperationError, w)
  end.

(** [buffer.unmap()] *)
Definition unmap (buffer : nat) : M World unit :=
  modify (fun w =>
    let bs := buffers (device w) in
    match bs !! buffer with
    | Some b =>
        setBuffers (<[buffer := GPUBuffer.Make (GPUBuffer.size b)
                        (GPUBuffer.usage b) (GPUBuffer.contents b) false]> bs) w
    | None => w
    end).

End Device.

(** ** [HomePage] *)

Section HomePage.
Context {arith : F32Arith}.
(** [const MATRIX_SIZE = 4;] is the one place where the page fixes its
    dimension; everything below takes it as a parameter. *)
Variable MATRIX_SIZE : N.

(** [MATRIX_SIZE * MATRIX_SIZE * 4], "Float32: 4 bytes each" *)
Definition BUFFER_SIZE : N := MATRIX_SIZE * MATRIX_SIZE * 4.

(** [createDefaultMatrix]: "a default 4x4 matrix filled with 0's". *)
Definition createDefaultMatrix : list (list number) :=
  replicate (N.to_nat MATRIX_SIZE) (replicate (N.to_nat MATRIX_SIZE) (F64.of_Z 0)).

(** The initial value of [matrixA], "Identity matrix example". *)
Definition initial_matrixA : list (list number) :=
  imap (fun i row => imap (fun j _ => if decide (i = j) then F64.of_Z 1 else F64.of_Z 0) row)
    createDefaultMatrix.

(** The initial value of [matrixB], "Example matrix":
    [i * MATRIX_SIZE + j + 1]. *)
Definition initial_matrixB : list (list number) :=
  imap (fun i row =>
          imap (fun j _ => F64.of_Z (Z.of_nat i * Z.of_N MATRIX_SIZE + Z.of_nat j + 1)) row)
    createDefaultMatrix.

(** *** [updateMatrix] *)

Section UpdateMatrix.
(** The global [parseFloat]. *)
Variable parseFloat : string -> number.

(** [newMatrix[row] = r], for [row] inside the array. *)
Definition store_row (m : loc) (row : nat) (r : loc) : M State unit :=
  rs ← rows_of m;
  modify (fun st => setObjects (<[m := Rows (<[row := r]> rs)]> (objects st)) st).

(** [a[col] = v] on the inner array [a]. *)
Definition store_cell (a : loc) (col : nat) (v : elt) : M State unit :=
  cs ← cells_of a;
  modify (fun st => setObjects (<[a := Cells (array_set cs col v)]> (objects st)) st).

Definition updateMatrix (matrix : loc) (setMatrix : loc -> State -> State)
    (row col : nat) (value : string) : M State unit :=
  let num := parseFloat value in
  (* const newMatrix = [...matrix]; *)
  rs ← rows_of matrix;
  newMatrix ← alloc (Rows rs);
  (* newMatrix[row] = [...matrix[row]];  spreading undefined throws *)
  match rs !! row with
  | None => throw TypeError
  | Some r =>
      cs ← cells_of r;
      newRow ← alloc (Cells (spread cs));
      store_row newMatrix row newRow;;
      (* newMatrix[row][col] = isNaN(num) ? 0 : num; *)
      rs' ← rows_of newMatrix;
      match rs' !! row with
      | None => throw TypeError
      | Some r' =>
          store_cell r' col (Num (if F64.isNaN num then F64.of_Z 0 else num));;
          (* setMatrix(newMatrix); *)
          modify (setMatrix newMatrix)
      end
  end.

End UpdateMatrix.

(** *** [multiplyMatrices] *)

(** [const flatten = (matrix) => new Float32Array(matrix.flat());] *)
Definition flatten (matrix : loc) : M State (list f32) :=
  es ← flat matrix; mret (Float32Array es).

(** [newResultMatrix.push(row)] *)
Definition push (m : loc) (r : loc) : M State unit :=
  rs ← rows_of m;
  modify (fun st => setObjects (<[m := Rows (rs ++ [r])]> (objects st)) st).

(** The row the loop makes at step [i], and all of them. *)
Definition row_of_data (resultData : list f32) (i : N) : list elt :=
  Array_from (slice resultData (N.to_nat (i * MATRIX_SIZE))
                (N.to_nat (i * MATRIX_SIZE + MATRIX_SIZE))).

Definition rows_of_data (resultData : list f32) : list (list elt) :=
  map (row_of_data resultData) (upto MATRIX_SIZE).

(** "Convert flat result to 2D matrix": the loop that cuts [resultData]
    into rows; it yields the array [newResultMatrix]. *)
Definition reconstruct (env : Env) (resultData : list f32) : M World loc :=
  newResultMatrix ← lift (alloc (Rows []));
  for_each (upto MATRIX_SIZE) (fun i =>
    call env 163;;
    let b := N.to_nat (i * MATRIX_SIZE) in
    let e := N.to_nat (i * MATRIX_SIZE + MATRIX_SIZE) in
    row ← lift (alloc (Cells (Array_from (slice resultData b e))));
    lift (push newResultMatrix row));;
  mret newResultMatrix.

(** The [try] block; [call n] stands before the work of source line [n]. *)
Definition try_block (env : Env) : M World unit :=
  (if navigator_gpu env then mret tt
   else throw "WebGPU is not supported on this browser."%string);;
  call env 84;;
  (if adapter_available env then mret tt
   else throw "Failed to get GPU adapter."%string);;
  call env 86;; requestDevice;;
  (* Flatten matrix arrays to Float32Array *)
  call env 91;; aData ← (a ← gets (fun w => matrixA (react w)); lift (flatten a));
  call env 92;; bData ← (b ← gets (fun w => matrixB (react w)); lift (flatten b));
  (* Create GPU buffers *)
  call env 95;;
  aBuffer ← createBuffer BUFFER_SIZE
              (N.lor GPUBufferUsage.STORAGE GPUBufferUsage.COPY_DST);
  call env 99;; writeBuffer aBuffer aData;;
  call env 101;;
  bBuffer ← createBuffer BUFFER_SIZE
              (N.lor GPUBufferUsage.STORAGE GPUBufferUsage.COPY_DST);
  call env 105;; writeBuffer bBuffer bData;;
  call env 107;;
  resultBuffer ← createBuffer BUFFER_SIZE
                   (N.lor GPUBufferUsage.STORAGE GPUBufferUsage.COPY_SRC);
  (* Create shader module and compute pipeline *)
  call env 113;;
  let shaderModule := createShaderModule MATRIX_SIZE in
  call env 116;;
  let pipeline := createComputePipeline shaderModule "main" in
  (* Create bind group to pass buffers to shader *)
  call env 125;;
  let bindGroup := {| layout := getBindGroupLayout pipeline;
                      binding0 := aBuffer; binding1 := bBuffer;
                      binding2 := resultBuffer |} in
  (* Encode the commands *)
  call env 135;; call env 136;; call env 137;; call env 138;;
  call env 140;; call env 141;;
  let passEncoder :=
    [ SetPipeline pipeline; SetBindGroup 0 bindGroup;
      (* Dispatch with enough workgroups for a 4x4 grid. (Workgroup size is 8x8.) *)
      DispatchWorkgroups 1 1 ] in
  let commandEncoder := [ ComputePass passEncoder ] in
  call env 143;; submit env commandEncoder;;
  (* Copy result buffer to a mappable buffer *)
  call env 146;;
  readBuffer ← createBuffer BUFFER_SIZE
                 (N.lor GPUBufferUsage.COPY_DST GPUBufferUsage.MAP_READ);
  call env 150;; call env 151;;
  let copyEncoder := [ CopyBufferToBuffer resultBuffer 0 readBuffer 0 BUFFER_SIZE ] in
  call env 152;; submit env copyEncoder;;
  call env 154;; mapAsync readBuffer;;
  call env 155;; resultArrayBuffer ← getMappedRange readBuffer;
  call env 156;;
  let resultData := slice resultArrayBuffer 0 (length resultArrayBuffer) in
  unmap readBuffer;;
  (* Convert flat result to 2D matrix *)
  newResultMatrix ← reconstruct env resultData;
  modify (fun w => mkWorld (setResultMatrix (Some newResultMatrix) (react w)) (device w)).

Definition onReact (f : State -> State) (w : World) : World :=
  mkWorld (f (react w)) (device w).

(** [multiplyMatrices], from the state the button was clicked in to the
    state it leaves, with the device it used. *)
Definition multiplyMatrices (env : Env) (st : State) : World :=
  let w := mkWorld st (mkDevice [] []) in
  let w := onReact (setError None) w in
  let w := onReact (setLoading true) w in
  let w :=
    match try_block env w with
    | (Return _, w') => w'
    | (Throw message, w') => onReact (setError (Some message)) w'   (* catch (e) *)
    end in
  onReact (setLoading false) w.

(** What the shader's invocations of the one dispatched workgroup leave in
    a zero-filled output buffer, on the flattened matrices [a] and [b]. *)
Definition kernel_output (env : Env) (a b : list (list number)) : list f32 :=
  WGSL.run MATRIX_SIZE
    (map F32.of_number (concat a)) (map F32.of_number (concat b))
    (schedule env (WGSL.global_invocation_ids 1 1))
    (replicate (N.to_nat (MATRIX_SIZE * MATRIX_SIZE)) F32.zero).

(** [m[row][col]] of a matrix given by its rows. *)
Definition entry (m : list (list f32)) (row col : nat) : f32 :=
  nth col (nth row m []) F32.zero.

(** The scalar reference the result is compared with: for the cell
    [(row, col)], [sum_{i=0}^{N-1} A[row][i] * B[i][col]], the terms added
    in the shader's arithmetic from [i = 0] upwards. *)
Definition dot_product (A B : list (list f32)) (row col : nat) : f32 :=
  fold_left (fun sum i => f32_add sum (f32_mul (entry A row i) (entry B i col)))
    (seq 0 (N.to_nat MATRIX_SIZE)) F32.zero.

End HomePage.

(** The host buffer codec end to end: [flatten] a matrix, then cut the
    flat data into rows again as [reconstruct] does. *)
Definition codec_roundtrip (MATRIX_SIZE : N) (env : Env) (m : loc)
    : M World loc :=
  data ← lift (flatten m); reconstruct MATRIX_SIZE env data.

(** ** Reading and building matrices, for the statements below *)

(** The inner arrays behind a [number[][]] reference, if the heap holds one
    there. *)
Definition read_matrix (h : gmap loc array) (m : loc) : option (list (list elt)) :=
  match h !! m with
  | Some (Rows rs) =>
      mapM (fun r => match h !! r with Some (Cells cs) => Some cs | _ => None end) rs
  | _ => None
  end.

(** The heap holds at [m] the matrix of numbers [vals]. *)
Definition holds (h : gmap loc array) (m : loc) (vals : list (list number)) : Prop :=
  read_matrix h m = Some (map (map Num) vals).

(** [vals] has [n] rows of [n] numbers. *)
Definition square (n : N) (vals : list (list number)) : Prop :=
  length vals = N.to_nat n /\ Forall (fun r => length r = N.to_nat n) vals.

(** Cell [(row, col)] of a matrix of numbers. *)
Definition cell {A} (vals : list (list A)) (row col : nat) : option A :=
  vals !! row ≫= fun r => r !! col.

(** Allocation of a matrix literal, row by row. *)
Fixpoint new_rows (vals : list (list number)) : M State (list loc) :=
  match vals with
  | [] => mret []
  | r :: rest => l ← alloc (Cells (map Num r)); ls ← new_rows rest; mret (l :: ls)
  end.

Definition new_matrix (vals : list (list number)) : M State loc :=
  rs ← new_rows vals; alloc (Rows rs).

(** A state whose two matrices are [a] and [b], with no result yet. *)
Definition state_with (a b : list (list number)) : State :=
  let st0 := mkState ∅ 1%positive 1%positive None None false in
  let '(_, st) :=
    (la ← new_matrix a; lb ← new_matrix b;
     modify (fun st => setMatrixB lb (setMatrixA la st))) st0 in
  st.

(** The state [HomePage] starts in. *)
Definition initial_state (MATRIX_SIZE : N) : State :=
  state_with (initial_matrixA MATRIX_SIZE) (initial_matrixB MATRIX_SIZE).

(** The group counts of the dispatches among submitted commands. *)
Definition dispatches (commands : list Command) : list (N * N) :=
  c ← commands;
  match c with
  | ComputePass pass =>
      p ← pass;
      match p with DispatchWorkgroups countX countY => [(countX, countY)] | _ => [] end
  | _ => []
  end.

(** [ceil(n / d)] *)
Definition ceil_div (n d : N) : N := (n + d - 1) / d.

(** No buffer of the device is mapped. *)
Definition none_mapped (d : GPUDevice) : Prop :=
  Forall (fun b => GPUBuffer.mapped b = false) (buffers d).

(** Buffer [i] is mapped and no other is. *)
Definition only_mapped (i : nat) (d : GPUDevice) : Prop :=
  (exists b, buffers d !! i = Some b /\ GPUBuffer.mapped b = true) /\
  forall j b, buffers d !! j = Some b -> j <> i -> GPUBuffer.mapped b = false.

(** What [multiplyMatrices] leaves when it fails with [message] before it
    has a device: the state it was called in, with the error set. *)
Definition failed (st : State) (message : string) : World :=
  mkWorld
    (mkState (objects st) (matrixA st) (matrixB st) (resultMatrix st)
       (Some message) false)
    (mkDevice [] []).

(** The matrices of [st0] are still those of [st]: same references, and
    every array that [st0] had is unchanged. *)
Definition untouched (st0 st : State) : Prop :=
  matrixA st = matrixA st0 /\ matrixB st = matrixB st0 /\
  forall l a, objects st0 !! l = Some a -> objects st !! l = Some a.

(** Computations that leave the React state alone. *)
Definition host_silent {A} (c : M World A) : Prop :=
  forall w, react (snd (c w)) = react w.

(** Specifications of computations: from a world satisfying [P], the
    computation returns [a] in a world satisfying [Q a], or throws in a world
    satisfying [E]. *)
Definition hoare {A} (P : World -> Prop) (c : M World A)
    (Q : A -> World -> Prop) (E : World -> Prop) : Prop :=
  forall w, P w ->
    match c w with
    | (Return a, w') => Q a w'
    | (Throw _, w') => E w'
    end.

(** Nothing fails in [env]. *)
Definition no_failure (env : Env) : Prop :=
  navigator_gpu env = true /\ adapter_available env = true /\
  forall line, throws env line = None.

(** The device runs every invocation of a dispatch exactly once, in an
    order of its choice. *)
Definition runs_each_once (env : Env) : Prop :=
  forall ids, schedule env ids ≡ₚ ids.

(** Two environments fail alike. *)
Definition same_failures (env env' : Env) : Prop :=
  navigator_gpu env = navigator_gpu env' /\
  adapter_available env = adapter_available env' /\
  forall line, throws env line = throws env' line.

(** An environment in which nothing fails and invocations run in the order
    of their ids. *)
Definition quiet : Env :=
  {| navigator_gpu := true; adapter_available := true;
     throws := fun _ => None; schedule := fun ids => ids |}.

(** Nothing fails either, and the device runs the invocations backwards. *)
Definition backwards : Env :=
  {| navigator_gpu := true; adapter_available := true;
     throws := fun _ => None; schedule := fun ids => rev ids |}.

(** The call on source line [line] fails with [message]; nothing else
    does. *)
Definition failing_at (line : nat) (message : string) : Env :=
  {| navigator_gpu := true; adapter_available := true;
     throws := fun n => if decide (n = line) then Some message else None;
     schedule := fun ids => ids |}.

(** No [navigator.gpu]; no adapter. *)
Definition without_gpu : Env :=
  {| navigator_gpu := false; adapter_available := false;
     throws := fun _ => None; schedule := fun ids => ids |}.

Definition without_adapter : Env :=
  {| navigator_gpu := true; adapter_available := false;
     throws := fun _ => None; schedule := fun ids => ids |}.

(** A stand-in for [parseFloat] in the examples.  On a text of decimal
    digits with an optional minus sign it is the number [parseFloat] gives;
    on the empty text it is NaN, as [parseFloat] is; every other text is
    taken to NaN (there the real [parseFloat] may still read a prefix). *)
Definition digit_of (c : Ascii.ascii) : option Z :=
  let k := Z.of_nat (Ascii.nat_of_ascii c) in
  if ((48 <=? k) && (k <=? 57))%Z then Some (k - 48)%Z else None.

Fixpoint decimal_digits (s : string) (acc : Z) : option Z :=
  match s with
  | EmptyString => Some acc
  | String c rest =>
      match digit_of c with
      | Some d => decimal_digits rest (10 * acc + d)%Z
      | None => None
      end
  end.

Definition parseFloat_digits (s : string) : number :=
  match s with
  | EmptyString => S754_nan
  | String "-"%char EmptyString => S754_nan
  | String "-"%char rest =>
      match decimal_digits rest 0 with
      | Some k => SFopp (F64.of_Z k)
      | None => S754_nan
      end
  | _ =>
      match decimal_digits s 0 with
      | Some k => F64.of_Z k
      | None => S754_nan
      end
  end.

(** The number 1e39, beyond the binary32 range, and the example matrix with
    it in the first cell. *)
Definition huge : number := F64.of_Z (10 ^ 39).

Definition huge_matrix : list (list number) :=
  map (map F64.of_Z)
    [ [10 ^ 39; 2; 3; 4]; [5; 6; 7; 8]; [9; 10; 11; 12]; [13; 14; 15; 16] ]%Z.

(** The product of two matrices of integers, in integer arithmetic. *)
Definition integer_product (a b : list (list Z)) : list (list Z) :=
  map (fun row =>
         map (fun col =>
                fold_left Z.add
                  (map (fun i => (nth i row 0 * nth col (nth i b []) 0)%Z)
                     (seq 0 (length row))) 0%Z)
           (seq 0 (length row))) a.

Definition one_to_sixteen : list (list Z) :=
  [ [1; 2; 3; 4]; [5; 6; 7; 8]; [9; 10; 11; 12]; [13; 14; 15; 16] ]%Z.

(** The number 0.1. *)
Definition tenth : number := F64.div (F64.of_Z 1) (F64.of_Z 10).

(** ** More ways to read a state and to say what a run meets *)

(** Cell [(row, col)] of the result the page has to show, if any. *)
Definition result_cell (st : State) (row col : nat) : option elt :=
  r ← resultMatrix st; rows ← read_matrix (objects st) r; cell rows row col.

(** The first of [lines] on which the environment makes the call fail. *)
Fixpoint first_throw (env : Env) (lines : list nat) : option string :=
  match lines with
  | [] => None
  | line :: rest =>
      match throws env line with
      | Some message => Some message
      | None => first_throw env rest
      end
  end.

(** The failure a run of [multiplyMatrices] on two full matrices meets
    first, in the order of the source: the checks and calls of device
    acquisition, then the lines of the [try] block that call into the
    platform, the one in the reconstruction loop last (and only if the loop
    has an iteration). *)
Definition first_failure (MATRIX_SIZE : N) (env : Env) : option string :=
  if negb (navigator_gpu env)
  then Some "WebGPU is not supported on this browser."%string
  else
    match throws env 84 with
    | Some message => Some message
    | None =>
        if negb (adapter_available env)
        then Some "Failed to get GPU adapter."%string
        else
          first_throw env
            ([86; 91; 92; 95; 99; 101; 105; 107; 113; 116; 125; 135; 136; 137;
              138; 140; 141; 143; 146; 150; 151; 152; 154; 155; 156]%nat
             ++ if MATRIX_SIZE =? 0 then [] else [163%nat])
    end.

(** The values an element of a [Float32Array] can have: NaN, or a zero, an
    infinity or a finite value in the canonical form of binary32. *)
Definition is_f32 (v : f32) : Prop := v = S754_nan \/ rounded F32.prec F32.emax v.

(** The floating-point value, with [prec] digits, of a positive integer [a]
    of at most [prec] digits: the mantissa filled up with zeros. *)
Definition canonical (prec : Z) (s : bool) (a : Z) : spec_float :=
  S754_finite s (Z.to_pos (a * 2 ^ (prec - Zdigits2 a))) (Zdigits2 a - prec).

(** The heap an edit of cell [(row, col)] leaves, for a matrix with the
    rows [rs] whose row [row] has the elements [cs]: a copy of the outer
    array with a new row in place of the old one, the new row being a copy
    of the old one with the cell set to [v]. *)
Definition edited (h : gmap loc array) (rs : list loc) (cs : list elt)
    (row col : nat) (v : number) : gmap loc array :=
  let newMatrix := fresh (dom h) in
  let newRow := fresh (dom (<[newMatrix := Rows rs]> h)) in
  <[newRow := Cells (array_set (spread cs) col (Num v))]>
    (<[newMatrix := Rows (<[row := newRow]> rs)]>
       (<[newRow := Cells (spread cs)]> (<[newMatrix := Rows rs]> h))).

(** The page's invariant: the two inputs are [MATRIX_SIZE] x [MATRIX_SIZE]
    matrices of numbers, and the result, when there is one, is a matrix of
    numbers. *)
Definition well_formed (MATRIX_SIZE : N) (st : State) : Prop :=
  (exists a, holds (objects st) (matrixA st) a /\ square MATRIX_SIZE a) /\
  (exists b, holds (objects st) (matrixB st) b /\ square MATRIX_SIZE b) /\
  match resultMatrix st with
  | None => True
  | Some r => exists c, holds (objects st) r c
  end.

(** The 2x2 example data [1, 2, 3, 4] of a [Float32Array]. *)
Definition one_to_four : list f32 :=
  map (fun k => F32.of_number (F64.of_Z k)) [1; 2; 3; 4]%Z.

(** ** What [HomePage] returns: the element tree *)

(** The attributes the page's JSX uses.  A handler is the function the
    attribute is given. *)
Inductive Attribute :=
  | ClassName (name : string)
  | Key (key : string)
  | InputType (type : string)
  | Value (value : elt)
  | Disabled (disabled : bool)
  | OnChange (handler : string -> M State unit)
  | OnClick (handler : Env -> State -> World).

(** An element, a text, an array of children, or nothing ([null], an empty
    slot of an array of children). *)
#[warnings="-register-all"] Inductive Node :=
  | Element (tag : string) (attributes : list Attribute) (children : list Node)
  | Text (text : string)
  | Fragment (children : list Node)
  | Null.

(** [cs.map((value, colIndex) => f(colIndex, value))]: the callback is not
    called on an empty slot, which stays empty. *)
Fixpoint map_cells (f : nat -> elt -> M State Node) (colIndex : nat) (cs : list elt)
    : M State (list Node) :=
  match cs with
  | [] => mret []
  | Hole :: rest => nodes ← map_cells f (S colIndex) rest; mret (Null :: nodes)
  | value :: rest =>
      node ← f colIndex value;
      nodes ← map_cells f (S colIndex) rest;
      mret (node :: nodes)
  end.

(** [rs.map((row, rowIndex) => row.map((value, colIndex) =>
    f(rowIndex, colIndex, value)))] *)
Fixpoint map_rows (f : nat -> nat -> elt -> M State Node) (rowIndex : nat) (rs : list loc)
    : M State (list Node) :=
  match rs with
  | [] => mret []
  | r :: rest =>
      cs ← cells_of r;
      row ← map_cells (f rowIndex) 0 cs;
      rows ← map_rows f (S rowIndex) rest;
      mret (Fragment row :: rows)
  end.

Section View.
Context {arith : F32Arith}.
Variable MATRIX_SIZE : N.
(** The global [parseFloat] and [Number.prototype.toFixed]. *)
Variable parseFloat : string -> number.
Variable toFixed : number -> N -> string.

(** [`${name}-${rowIndex}-${colIndex}`] *)
Definition cell_key (name : string) (rowIndex colIndex : nat) : string :=
  name +:+ "-" +:+ pretty rowIndex +:+ "-" +:+ pretty colIndex.

(** The [<input>] of one cell of an input matrix; its handler is
    [(e) => updateMatrix(matrix, setMatrix, rowIndex, colIndex, e.target.value)],
    with the matrix of the state that was rendered. *)
Definition cell_input (name : string) (matrix : loc) (setMatrix : loc -> State -> State)
    (rowIndex colIndex : nat) (value : elt) : Node :=
  Element "input"
    [ Key (cell_key name rowIndex colIndex);
      InputType "number";
      Value value;
      OnChange (fun text => updateMatrix parseFloat matrix setMatrix rowIndex colIndex text);
      ClassName "p-2 border border-gray-800 rounded text-center bg-gray-800 text-purple-200 focus:outline-none focus:ring-2 focus:ring-purple-500" ]
    [].

(** The panel of an input matrix: its title and the grid of its cells. *)
Definition matrix_panel (title name : string) (matrix : loc)
    (setMatrix : loc -> State -> State) : M State Node :=
  rs ← rows_of matrix;
  rows ← map_rows (fun rowIndex colIndex value =>
                     mret (cell_input name matrix setMatrix rowIndex colIndex value)) 0 rs;
  mret (Element "div" [ClassName "bg-gray-900 p-4 rounded shadow border border-gray-800"]
          [ Element "h2" [ClassName "text-2xl font-semibold mb-4 text-center text-purple-300"]
              [Text title];
            Element "div" [ClassName "grid grid-cols-4 gap-2"] [Fragment rows] ]).

(** One cell of the result: [value.toFixed(2)], a [TypeError] when the
    element is [undefined]. *)
Definition result_div (rowIndex colIndex : nat) (value : elt) : M State Node :=
  match value with
  | Num v =>
      mret (Element "div"
              [ Key (cell_key "res" rowIndex colIndex);
                ClassName "p-2 border border-gray-800 rounded text-center bg-gray-800 text-purple-200" ]
              [Text (toFixed v 2)])
  | _ => throw TypeError
  end.

(** [loading ? ... : resultMatrix ? ... : ...]: what stands under
    "Result" for the state [st]. *)
Definition result_display (st : State) : M State Node :=
  if loading st
  then mret (Element "div" [ClassName "text-lg text-purple-300"] [Text "Multiplying..."])
  else
    match resultMatrix st with
    | Some r =>
        rs ← rows_of r;
        rows ← map_rows result_div 0 rs;
        mret (Element "div" [ClassName "grid grid-cols-4 gap-2"] [Fragment rows])
    | None =>
        mret (Element "div" [ClassName "text-lg text-gray-500"] [Text "No result yet"])
    end.

(** [{error && (<div ...>{error}</div>)}]: [null] and the empty string are
    falsy and are the child themselves. *)
Definition error_banner (error : option string) : Node :=
  match error with
  | None => Null
  | Some EmptyString => Text EmptyString
  | Some message =>
      Element "div" [ClassName "bg-red-900 text-red-200 p-4 rounded mb-4 text-center"]
        [Text message]
  end.

(** The button; its handler is [multiplyMatrices]. *)
Definition multiply_button (st : State) : Node :=
  Element "button"
    [ OnClick (multiplyMatrices MATRIX_SIZE);
      ClassName "px-6 py-3 bg-purple-700 hover:bg-purple-800 transition text-white font-semibold rounded disabled:opacity-50 focus:outline-none focus:ring-2 focus:ring-purple-500";
      Disabled (loading st) ]
    [Text "Multiply Matrices"].

(** What [HomePage] returns in the state it is rendered in. *)
Definition HomePage : M State Node :=
  st ← gets (fun st => st);
  panelA ← matrix_panel "Matrix A" "a" (matrixA st) setMatrixA;
  panelB ← matrix_panel "Matrix B" "b" (matrixB st) setMatrixB;
  result ← result_display st;
  mret (Element "main" [ClassName "min-h-screen bg-black p-8"]
          [ Element "h1" [ClassName "text-4xl font-bold text-center mb-8 text-purple-400"]
              [Text "WebGPU Matrix Multiplication"];
            error_banner (error st);
            Element "div" [ClassName "max-w-4xl mx-auto grid grid-cols-1 md:grid-cols-3 gap-8"]
              [ panelA;
                panelB;
                Element "div"
                  [ClassName "bg-gray-900 p-4 rounded shadow border border-gray-800 flex flex-col items-center"]
                  [ Element "h2" [ClassName "text-2xl font-semibold mb-4 text-purple-300"]
                      [Text "Result"];
                    result ] ];
            Element "div" [ClassName "text-center mt-8"] [multiply_button st] ]).

End View.

(** The [onChange] handlers of a tree, in document order, and its
    [onClick] handlers. *)
Definition attribute_changes (a : Attribute) : list (string -> M State unit) :=
  match a with OnChange h => [h] | _ => [] end.

Definition attribute_clicks (a : Attribute) : list (Env -> State -> World) :=
  match a with OnClick h => [h] | _ => [] end.

Fixpoint changes (node : Node) : list (string -> M State unit) :=
  match node with
  | Element _ attributes children =>
      concat (map attribute_changes attributes) ++ concat (map changes children)
  | Fragment children => concat (map changes children)
  | _ => []
  end.

Fixpoint clicks (node : Node) : list (Env -> State -> World) :=
  match node with
  | Element _ attributes children =>
      concat (map attribute_clicks attributes) ++ concat (map clicks children)
  | Fragment children => concat (map clicks children)
  | _ => []
  end.

(** ** The keys of the rendered elements *)

(** No character of the string is a dash. *)
Fixpoint dashless (s : string) : bool :=
  match s with
  | EmptyString => true
  | String c rest => negb (Ascii.eqb c "-") && dashless rest
  end.

(** The [key]s of the elements of a tree, in document order. *)
Definition attribute_keys (a : Attribute) : list string :=
  match a with Key k => [k] | _ => [] end.

Fixpoint keys (node : Node) : list string :=
  match node with
  | Element _ attributes children =>
      concat (map attribute_keys attributes) ++ concat (map keys children)
  | Fragment children => concat (map keys children)
  | _ => []
  end.

(** * Theorems *)

(** ** The shader *)

Section ShaderFacts.
Context {arith : F32Arith}.
Variable MATRIX_SIZE : N.
Variables matrixA matrixB : list f32.

Local Abbreviation main := (WGSL.main MATRIX_SIZE matrixA matrixB).
Local Abbreviation invoke := (WGSL.invoke MATRIX_SIZE matrixA matrixB).
Local Abbreviation run := (WGSL.run MATRIX_SIZE matrixA matrixB).
Local Abbreviation body := (WGSL.body MATRIX_SIZE matrixA matrixB).
Local Abbreviation loop := (WGSL.loop MATRIX_SIZE matrixA matrixB).
Local Abbreviation accumulate := (WGSL.accumulate MATRIX_SIZE matrixA matrixB).

Lemma u32_small a : a < u32_modulus -> a mod u32_modulus = a.
Proof. apply N.mod_small. Qed.

(** The loop visits [i, i+1, ..., MATRIX_SIZE - 1] in this order. *)
Lemma loop_fold id fuel i sum :
  MATRIX_SIZE < u32_modulus ->
  N.of_nat fuel + i = MATRIX_SIZE ->
  WGSL.loop MATRIX_SIZE matrixA matrixB fuel id i sum =
  fold_left (fun s j => WGSL.body MATRIX_SIZE matrixA matrixB id j s)
    (map N.of_nat (seq (N.to_nat i) fuel)) sum.
Proof.
  intros Hm. revert i sum.
  induction fuel as [|fuel IH]; intros i sum Hi; [reflexivity|].
  cbn [WGSL.loop seq map fold_left].
  assert (Hlt : i < MATRIX_SIZE) by lia.
  apply N.ltb_lt in Hlt as ->.
  assert (Hs : u32_add i 1 = i + 1).
  { unfold u32_add. apply u32_small. lia. }
  rewrite Hs, IH by lia.
  rewrite N2Nat.id. do 3 f_equal. lia.
Qed.

Lemma main_None id :
  MATRIX_SIZE <= WGSL.x id \/ MATRIX_SIZE <= WGSL.y id -> main id = None.
Proof.
  intros H. unfold WGSL.main.
  destruct (N.leb_spec MATRIX_SIZE (WGSL.x id)); [reflexivity|].
  destruct (N.leb_spec MATRIX_SIZE (WGSL.y id)); [reflexivity|lia].
Qed.

Lemma main_Some id index sum :
  main id = Some (index, sum) ->
  WGSL.x id < MATRIX_SIZE /\ WGSL.y id < MATRIX_SIZE /\
  index = u32_add (u32_mul (WGSL.y id) MATRIX_SIZE) (WGSL.x id) /\
  sum = WGSL.loop MATRIX_SIZE matrixA matrixB (N.to_nat MATRIX_SIZE) id 0 F32.zero.
Proof.
  unfold WGSL.main.
  destruct (N.leb_spec MATRIX_SIZE (WGSL.x id)); [discriminate|].
  destruct (N.leb_spec MATRIX_SIZE (WGSL.y id)); [discriminate|].
  cbn. intros [= <- <-]. auto.
Qed.

(** Row-major indices of in-range coordinates stay inside the matrix, with
    or without wrap-around. *)
Lemma index_in_range r c :
  r < MATRIX_SIZE -> c < MATRIX_SIZE ->
  u32_add (u32_mul r MATRIX_SIZE) c < MATRIX_SIZE * MATRIX_SIZE.
Proof.
  intros Hr Hc. unfold u32_add, u32_mul.
  assert (Hpos : u32_modulus <> 0) by (unfold u32_modulus; lia).
  pose proof (N.Div0.mod_le (r * MATRIX_SIZE) u32_modulus).
  pose proof (N.Div0.mod_le ((r * MATRIX_SIZE) mod u32_modulus + c) u32_modulus).
  nia.
Qed.

(** Without wrap-around they are the usual [r * MATRIX_SIZE + c]. *)
Lemma index_exact r c :
  MATRIX_SIZE * MATRIX_SIZE <= u32_modulus ->
  r < MATRIX_SIZE -> c < MATRIX_SIZE ->
  u32_add (u32_mul r MATRIX_SIZE) c = r * MATRIX_SIZE + c.
Proof.
  intros Hm Hr Hc. unfold u32_add, u32_mul.
  rewrite (u32_small (r * MATRIX_SIZE)) by nia.
  apply u32_small. nia.
Qed.

(** Every load of an invocation that stores is inside an [N*N] buffer. *)
Lemma main_reads_in_bounds id i :
  WGSL.x id < MATRIX_SIZE -> WGSL.y id < MATRIX_SIZE -> i < MATRIX_SIZE ->
  u32_add (u32_mul (WGSL.y id) MATRIX_SIZE) i < MATRIX_SIZE * MATRIX_SIZE /\
  u32_add (u32_mul i MATRIX_SIZE) (WGSL.x id) < MATRIX_SIZE * MATRIX_SIZE.
Proof. intros. split; apply index_in_range; assumption. Qed.

Lemma invoke_length out id : length (invoke out id) = length out.
Proof.
  unfold WGSL.invoke. destruct (main id) as [[index sum]|]; [|reflexivity].
  apply length_insert.
Qed.

Lemma run_length schedule out : length (run schedule out) = length out.
Proof.
  unfold WGSL.run. revert out.
  induction schedule as [|id schedule IH]; intros out; [reflexivity|].
  cbn. rewrite IH. apply invoke_length.
Qed.

Lemma invoke_outside out id (j : nat) :
  (N.to_nat (MATRIX_SIZE * MATRIX_SIZE) <= j)%nat ->
  invoke out id !! j = out !! j.
Proof.
  intros Hj. unfold WGSL.invoke.
  destruct (main id) as [[index sum]|] eqn:E; [|reflexivity].
  apply main_Some in E as (Hx & Hy & -> & _).
  pose proof (index_in_range _ _ Hy Hx).
  apply list_lookup_insert_ne. lia.
Qed.

Lemma run_outside schedule out (j : nat) :
  (N.to_nat (MATRIX_SIZE * MATRIX_SIZE) <= j)%nat ->
  run schedule out !! j = out !! j.
Proof.
  intros Hj. unfold WGSL.run. revert out.
  induction schedule as [|id schedule IH]; intros out; [reflexivity|].
  cbn. rewrite IH. apply invoke_outside, Hj.
Qed.

(** C4.  An invocation whose [id.x] or [id.y] is not below [MATRIX_SIZE]
    returns before its store; a store that is made goes to an index below
    [MATRIX_SIZE * MATRIX_SIZE]; so whatever grid is dispatched and in
    whatever order it runs, no element of the output buffer from index
    [MATRIX_SIZE * MATRIX_SIZE] on is written.  [MATRIX_SIZE] is arbitrary,
    in particular not a multiple of the workgroup size 8. *)
Theorem kernel_bounds_check :
  (forall id, MATRIX_SIZE <= WGSL.x id \/ MATRIX_SIZE <= WGSL.y id ->
     main id = None /\ forall out, invoke out id = out) /\
  (forall id index sum, main id = Some (index, sum) ->
     index < MATRIX_SIZE * MATRIX_SIZE) /\
  (forall countX countY order out (j : nat),
     (N.to_nat (MATRIX_SIZE * MATRIX_SIZE) <= j)%nat ->
     run (order (WGSL.global_invocation_ids countX countY)) out !! j = out !! j).
Proof.
  split; [|split].
  - intros id H. pose proof (main_None id H) as E. split; [exact E|].
    intros out. unfold WGSL.invoke. now rewrite E.
  - intros id index sum E. apply main_Some in E as (Hx & Hy & -> & _).
    now apply index_in_range.
  - intros countX countY order out j Hj. now apply run_outside.
Qed.

Lemma main_accumulate id :
  MATRIX_SIZE < u32_modulus ->
  WGSL.x id < MATRIX_SIZE -> WGSL.y id < MATRIX_SIZE ->
  main id =
  Some (u32_add (u32_mul (WGSL.y id) MATRIX_SIZE) (WGSL.x id), accumulate id).
Proof.
  intros Hm Hx Hy. unfold WGSL.main.
  destruct (N.leb_spec MATRIX_SIZE (WGSL.x id)); [lia|].
  destruct (N.leb_spec MATRIX_SIZE (WGSL.y id)); [lia|].
  cbn. rewrite loop_fold by (auto; lia). reflexivity.
Qed.

(** The sum depends on the [x] and [y] of the id only. *)
Lemma accumulate_ext id id' :
  WGSL.x id = WGSL.x id' -> WGSL.y id = WGSL.y id' -> accumulate id = accumulate id'.
Proof.
  intros Hx Hy. unfold WGSL.accumulate, WGSL.body. now rewrite Hx, Hy.
Qed.

Lemma index_inj r c r' c' :
  c < MATRIX_SIZE -> c' < MATRIX_SIZE ->
  r * MATRIX_SIZE + c = r' * MATRIX_SIZE + c' -> r = r' /\ c = c'.
Proof.
  intros Hc Hc' E.
  assert (r = r'); [|split; [assumption|subst; lia]].
  destruct (N.lt_trichotomy r r') as [H|[H|H]]; [exfalso|assumption|exfalso].
  - assert ((r + 1) * MATRIX_SIZE <= r' * MATRIX_SIZE)
      by (apply N.mul_le_mono_r; lia). lia.
  - assert ((r' + 1) * MATRIX_SIZE <= r * MATRIX_SIZE)
      by (apply N.mul_le_mono_r; lia). lia.
Qed.

(** Two invocations commute: they store to different places, or they are
    the same store. *)
Lemma invoke_comm out id id' :
  MATRIX_SIZE * MATRIX_SIZE <= u32_modulus ->
  invoke (invoke out id) id' = invoke (invoke out id') id.
Proof.
  intros Hm. unfold WGSL.invoke.
  destruct (main id) as [[i s]|] eqn:E; destruct (main id') as [[i' s']|] eqn:E';
    try reflexivity.
  assert (Hlt : MATRIX_SIZE < u32_modulus).
  { unfold u32_modulus in *. nia. }
  pose proof (main_Some _ _ _ E) as (Hx & Hy & _ & _).
  pose proof (main_Some _ _ _ E') as (Hx' & Hy' & _ & _).
  rewrite main_accumulate in E, E' by assumption.
  injection E as <- <-. injection E' as <- <-.
  rewrite !index_exact by assumption.
  destruct (decide (WGSL.y id * MATRIX_SIZE + WGSL.x id
                    = WGSL.y id' * MATRIX_SIZE + WGSL.x id')) as [Eq|Ne].
  - apply index_inj in Eq as [Ey Ex]; [|assumption..].
    rewrite Ex, Ey, (accumulate_ext id id') by assumption. reflexivity.
  - apply list_insert_insert_ne. lia.
Qed.

(** The outcome of a dispatch does not depend on the order in which its
    invocations run. *)
Lemma run_Permutation schedule schedule' out :
  MATRIX_SIZE * MATRIX_SIZE <= u32_modulus ->
  schedule ≡ₚ schedule' -> run schedule out = run schedule' out.
Proof.
  intros Hm Hp. revert out. unfold WGSL.run.
  induction Hp as [|id l l' _ IH|id id' l|l l' l'' _ IH _ IH']; intros out; cbn.
  - reflexivity.
  - apply IH.
  - now rewrite invoke_comm.
  - now rewrite IH.
Qed.

(** The element a dispatch leaves at the place of an invocation that was
    scheduled. *)
Lemma run_lookup schedule out r c k :
  MATRIX_SIZE * MATRIX_SIZE <= u32_modulus ->
  WGSL.Vec3 c r k ∈ schedule ->
  r < MATRIX_SIZE -> c < MATRIX_SIZE ->
  (N.to_nat (r * MATRIX_SIZE + c) < length out)%nat ->
  run schedule out !! N.to_nat (r * MATRIX_SIZE + c)
  = Some (accumulate (WGSL.Vec3 c r k)).
Proof.
  intros Hm Hin Hr Hc Hlen.
  apply elem_of_Permutation in Hin as [rest Hp].
  assert (Hp' : schedule ≡ₚ rest ++ [WGSL.Vec3 c r k]).
  { rewrite Hp. apply Permutation_cons_append. }
  rewrite (run_Permutation _ _ out Hm Hp').
  unfold WGSL.run. rewrite fold_left_app. cbn.
  fold (run rest out). unfold WGSL.invoke.
  assert (Hlt : MATRIX_SIZE < u32_modulus).
  { unfold u32_modulus in *. nia. }
  rewrite main_accumulate by assumption. cbn.
  rewrite index_exact by assumption.
  apply list_lookup_insert_eq. now rewrite run_length.
Qed.

End ShaderFacts.

(** ** The host heap and the codec *)

Section HeapFacts.

Lemma bind_unfold {S A B} (c : M S A) (k : A -> M S B) s :
  (c ≫= k) s =
  match c s with
  | (Return a, s') => k a s'
  | (Throw msg, s') => (Throw msg, s')
  end.
Proof. reflexivity. Qed.

Lemma fresh_lookup (h : gmap loc array) : h !! fresh (dom h) = None.
Proof. apply not_elem_of_dom, is_fresh. Qed.

Lemma fresh_ne (h : gmap loc array) l : is_Some (h !! l) -> l <> fresh (dom h).
Proof. intros [a Ha] ->. rewrite fresh_lookup in Ha. discriminate. Qed.

Lemma flat_row_Num r : flat_row (map Num r) = map Num r.
Proof.
  unfold flat_row. induction r as [|v r IH]; [reflexivity|].
  cbn [map]. rewrite filter_cons_True by discriminate. now rewrite IH.
Qed.

Lemma Float32Array_Num r : Float32Array (map Num r) = map F32.of_number r.
Proof. unfold Float32Array. rewrite map_map. reflexivity. Qed.

Lemma flat_rows_read st rs css :
  Forall2 (fun r cs => objects st !! r = Some (Cells cs)) rs css ->
  flat_rows rs st = (Return (map flat_row css), st).
Proof.
  induction 1 as [|r cs rs css Hr _ IH]; [reflexivity|].
  cbn [flat_rows]. rewrite bind_unfold. unfold cells_of at 1. rewrite Hr.
  rewrite bind_unfold, IH. reflexivity.
Qed.

Lemma read_matrix_Some h m css :
  read_matrix h m = Some css <->
  exists rs, h !! m = Some (Rows rs) /\
             Forall2 (fun r cs => h !! r = Some (Cells cs)) rs css.
Proof.
  unfold read_matrix. split.
  - destruct (h !! m) as [[rs|]|]; try discriminate.
    intros H. exists rs. split; [reflexivity|].
    apply mapM_Some in H. eapply Forall2_impl; [exact H|].
    intros r cs. cbn. destruct (h !! r) as [[|cs']|]; congruence.
  - intros (rs & -> & H). apply mapM_Some.
    eapply Forall2_impl; [exact H|]. intros r cs ->. reflexivity.
Qed.

(** [flatten] of a matrix of numbers: the rows one after the other, each
    number rounded to binary32; the heap is only read. *)
Lemma flatten_holds st m vals :
  holds (objects st) m vals ->
  flatten m st = (Return (map F32.of_number (concat vals)), st).
Proof.
  intros H. apply read_matrix_Some in H as (rs & Hm & Hrs).
  unfold flatten, flat. rewrite !bind_unfold. unfold rows_of at 1. rewrite Hm.
  rewrite bind_unfold, (flat_rows_read _ _ _ Hrs). cbn.
  unfold mret, M_ret. do 2 f_equal.
  rewrite <- Float32Array_Num. f_equal.
  clear. induction vals as [|r vals IH]; [reflexivity|].
  cbn. rewrite flat_row_Num, IH, map_app. reflexivity.
Qed.

End HeapFacts.

Section CodecFacts.
Variable MATRIX_SIZE : N.

Lemma chunks (A : Type) (n : nat) (vals : list (list A)) :
  Forall (fun r => length r = n) vals ->
  map (fun i => take n (drop (i * n) (concat vals))) (seq 0 (length vals)) = vals.
Proof.
  induction 1 as [|r vals Hr _ IH]; [reflexivity|].
  cbn [length seq map concat]. f_equal.
  - change (0 * n)%nat with 0%nat. rewrite drop_0, take_app_length'; auto.
  - rewrite <- seq_shift, map_map. rewrite <- IH at 2.
    apply map_ext. intros i.
    replace (S i * n)%nat with (length r + i * n)%nat by lia.
    now rewrite drop_app_add.
Qed.

(** Cutting the flattened matrix into [MATRIX_SIZE] rows gives back its
    rows, every number having passed through binary32. *)
Lemma rows_of_data_flatten vals :
  square MATRIX_SIZE vals ->
  rows_of_data MATRIX_SIZE (map F32.of_number (concat vals))
  = map (map (fun v => Num (fround v))) vals.
Proof.
  intros [Hlen Hrows]. unfold rows_of_data, upto. rewrite map_map.
  pose proof (f_equal (map (map (fun v => Num (fround v)))) (chunks _ _ _ Hrows)) as E.
  rewrite <- E, Hlen, map_map. clear E.
  apply map_ext. intros i. unfold row_of_data, slice, Array_from.
  replace (N.to_nat (N.of_nat i * MATRIX_SIZE + MATRIX_SIZE)
           - N.to_nat (N.of_nat i * MATRIX_SIZE))%nat
    with (N.to_nat MATRIX_SIZE) by lia.
  replace (N.to_nat (N.of_nat i * MATRIX_SIZE)) with (i * N.to_nat MATRIX_SIZE)%nat by lia.
  rewrite skipn_map, firstn_map, !map_map. reflexivity.
Qed.

Lemma lift_alloc a st dev :
  lift (alloc a) (mkWorld st dev)
  = (Return (fresh (dom (objects st))),
     mkWorld (setObjects (<[fresh (dom (objects st)) := a]> (objects st)) st) dev).
Proof. reflexivity. Qed.

Lemma lift_push m r st dev rs :
  objects st !! m = Some (Rows rs) ->
  lift (push m r) (mkWorld st dev)
  = (Return tt, mkWorld (setObjects (<[m := Rows (rs ++ [r])]> (objects st)) st) dev).
Proof.
  intros H. unfold lift, push. cbn [react device]. rewrite bind_unfold.
  unfold rows_of. rewrite H. reflexivity.
Qed.

Context (env : Env).

Local Abbreviation step nrm data := (fun i : N =>
    call env 163;;
    row ← lift (alloc (Cells (row_of_data MATRIX_SIZE data i)));
    lift (push nrm row)).

(** The loop of [reconstruct], started with the rows [rs] already pushed. *)
Lemma reconstruct_loop data nrm indices :
  throws env 163 = None ->
  forall st dev rs css,
  objects st !! nrm = Some (Rows rs) ->
  Forall2 (fun r cs => objects st !! r = Some (Cells cs)) rs css ->
  exists h' rs',
    for_each indices (step nrm data) (mkWorld st dev)
    = (Return tt, mkWorld (setObjects h' st) dev) /\
    h' !! nrm = Some (Rows (rs ++ rs')) /\
    Forall2 (fun r cs => h' !! r = Some (Cells cs)) (rs ++ rs')
      (css ++ map (row_of_data MATRIX_SIZE data) indices) /\
    (forall l, l <> nrm -> is_Some (objects st !! l) -> h' !! l = objects st !! l).
Proof.
  intros Hq. induction indices as [|i indices IH]; intros st dev rs css Hn Hrs.
  - exists (objects st), []. rewrite !app_nil_r. repeat split; auto.
    destruct st; reflexivity.
  - set (l := fresh (dom (objects st))).
    set (h1 := <[l := Cells (row_of_data MATRIX_SIZE data i)]> (objects st)).
    set (h2 := <[nrm := Rows (rs ++ [l])]> h1).
    assert (Hl : l <> nrm) by (symmetry; apply fresh_ne; eauto).
    destruct (IH (setObjects h2 st) dev (rs ++ [l])
                (css ++ [row_of_data MATRIX_SIZE data i]))
      as (h' & rs' & Hrun & Hn' & Hrs' & Hframe).
    { cbn. unfold h2. apply lookup_insert_eq. }
    { cbn. apply Forall2_app.
      - eapply Forall2_impl; [exact Hrs|]. intros r cs Hr. cbn in Hr.
        unfold h2, h1. rewrite lookup_insert_ne, lookup_insert_ne; auto.
        + apply not_eq_sym, fresh_ne. eauto.
        + intros ->. congruence.
      - constructor; [|constructor]. unfold h2, h1.
        rewrite lookup_insert_ne by auto. apply lookup_insert_eq. }
    exists h', ([l] ++ rs'). rewrite !app_assoc. cbn [map].
    rewrite <- !app_assoc in Hrs'. cbn [app] in Hrs'.
    replace (css ++ row_of_data MATRIX_SIZE data i :: map (row_of_data MATRIX_SIZE data) indices)
      with (css ++ [row_of_data MATRIX_SIZE data i] ++ map (row_of_data MATRIX_SIZE data) indices)
      by reflexivity.
    rewrite <- !app_assoc. cbn [app]. repeat split; auto.
    + cbn [for_each]. rewrite !bind_unfold. unfold call at 1. rewrite Hq.
      cbv beta iota. rewrite bind_unfold, lift_alloc. cbv beta iota.
      rewrite (lift_push _ _ _ _ rs).
      * exact Hrun.
      * cbn. fold l. rewrite lookup_insert_ne by auto. exact Hn.
    + rewrite <- app_assoc in Hn'. exact Hn'.
    + intros l' Hl' Hsome. rewrite Hframe; auto.
      * cbn. unfold h2, h1. rewrite lookup_insert_ne, lookup_insert_ne; auto.
        apply not_eq_sym, fresh_ne, Hsome.
      * cbn. unfold h2, h1. rewrite lookup_insert_ne, lookup_insert_ne; auto.
        apply not_eq_sym, fresh_ne, Hsome.
Qed.

End CodecFacts.

(** ** A run of [multiplyMatrices] in which nothing fails *)

(** The content of a buffer of [n * n] elements as [createBuffer] makes
    it. *)
Local Abbreviation zeros n := (replicate (N.to_nat (n * n)) F32.zero).

(** The buffers and the queue of the device after a run without failure on
    the matrices [a] and [b]: the two inputs, and the two buffers the result
    goes through, still filled with the zeros they were created with. *)
Local Abbreviation device_after n a b :=
  (mkDevice
     [ GPUBuffer.Make (BUFFER_SIZE n)
         (N.lor GPUBufferUsage.STORAGE GPUBufferUsage.COPY_DST)
         (map F32.of_number (concat a)) false;
       GPUBuffer.Make (BUFFER_SIZE n)
         (N.lor GPUBufferUsage.STORAGE GPUBufferUsage.COPY_DST)
         (map F32.of_number (concat b)) false;
       GPUBuffer.Make (BUFFER_SIZE n)
         (N.lor GPUBufferUsage.STORAGE GPUBufferUsage.COPY_SRC)
         (zeros n) false;
       GPUBuffer.Make (BUFFER_SIZE n)
         (N.lor GPUBufferUsage.COPY_DST GPUBufferUsage.MAP_READ)
         (zeros n) false ]
     [ ComputePass
         [ SetPipeline (createComputePipeline (createShaderModule n) "main");
           SetBindGroup 0
             {| layout := getBindGroupLayout
                            (createComputePipeline (createShaderModule n) "main");
                binding0 := 0; binding1 := 1; binding2 := 2 |};
           DispatchWorkgroups 1 1 ];
       CopyBufferToBuffer 2 0 3 0 (BUFFER_SIZE n) ]).

Section QuietRun.
Context {arith : F32Arith}.
Variable MATRIX_SIZE : N.
Variable env : Env.

Lemma lift_flatten m st dev vals :
  holds (objects st) m vals ->
  lift (flatten m) (mkWorld st dev)
  = (Return (map F32.of_number (concat vals)), mkWorld st dev).
Proof.
  intros H. unfold lift. cbn [react device].
  rewrite (flatten_holds _ _ _ H). reflexivity.
Qed.

Lemma length_concat_square (vals : list (list number)) :
  square MATRIX_SIZE vals ->
  length (concat vals) = N.to_nat (MATRIX_SIZE * MATRIX_SIZE).
Proof.
  intros [Hlen Hrows]. rewrite N2Nat.inj_mul. rewrite <- Hlen at 1. clear Hlen.
  induction Hrows as [|r vals Hr _ IH]; [reflexivity|].
  cbn. rewrite length_app, IH, Hr. reflexivity.
Qed.

Lemma BUFFER_SIZE_elements :
  N.to_nat (BUFFER_SIZE MATRIX_SIZE / 4) = N.to_nat (MATRIX_SIZE * MATRIX_SIZE).
Proof. unfold BUFFER_SIZE. rewrite N.div_mul by lia. reflexivity. Qed.

Lemma createBuffer_eq size usage st bs sub :
  createBuffer size usage (mkWorld st (mkDevice bs sub))
  = (Return (length bs),
     mkWorld st (mkDevice
       (bs ++ [GPUBuffer.Make size usage (replicate (N.to_nat (size / 4)) F32.zero) false])
       sub)).
Proof. reflexivity. Qed.

Lemma writeBuffer_ok i data st bs sub b :
  bs !! i = Some b ->
  has_usage (GPUBuffer.usage b) GPUBufferUsage.COPY_DST = true ->
  GPUBuffer.mapped b = false ->
  4 * N.of_nat (length data) <= GPUBuffer.size b ->
  length (GPUBuffer.contents b) = length data ->
  writeBuffer i data (mkWorld st (mkDevice bs sub))
  = (Return tt,
     mkWorld st (mkDevice
       (<[i := GPUBuffer.Make (GPUBuffer.size b) (GPUBuffer.usage b) data false]> bs) sub)).
Proof.
  intros Hb Hu Hm Hs Hl. unfold writeBuffer, modify. cbn [buffers device].
  rewrite Hb, Hu, Hm. apply N.leb_le in Hs. rewrite Hs.
  rewrite drop_ge, app_nil_r by lia. reflexivity.
Qed.

Lemma submit_eq commands st bs sub :
  submit env commands (mkWorld st (mkDevice bs sub))
  = (Return tt,
     mkWorld st (mkDevice (fold_left (fun bs c => execute env c bs) commands bs)
                   (sub ++ commands))).
Proof. reflexivity. Qed.

(** The module of the page does not compile: [matrixOut] is declared with
    the access mode [write]. *)
Lemma shader_rejected : WGSL.compiles = false.
Proof. reflexivity. Qed.

(** A dispatch with an invalid pipeline leaves every buffer as it is. *)
Lemma dispatch_refused pipeline group countX countY bs :
  pipeline_valid pipeline = false ->
  dispatch env pipeline group countX countY bs = bs.
Proof. intros H. unfold dispatch. now rewrite H. Qed.

(** A copy of a whole buffer onto a whole buffer of the same size. *)
Lemma copy_ok source destination size bs s d :
  bs !! source = Some s -> bs !! destination = Some d ->
  has_usage (GPUBuffer.usage s) GPUBufferUsage.COPY_SRC = true ->
  has_usage (GPUBuffer.usage d) GPUBufferUsage.COPY_DST = true ->
  GPUBuffer.mapped d = false ->
  size <= GPUBuffer.size s -> size <= GPUBuffer.size d ->
  length (GPUBuffer.contents s) = N.to_nat (size / 4) ->
  length (GPUBuffer.contents d) = N.to_nat (size / 4) ->
  execute env (CopyBufferToBuffer source 0 destination 0 size) bs
  = <[destination :=
        GPUBuffer.Make (GPUBuffer.size d) (GPUBuffer.usage d) (GPUBuffer.contents s)
          false]> bs.
Proof.
  intros Hs Hd Us Ud Hm Ss Sd Ls Ld. cbn [execute].
  rewrite Hs, Hd, Us, Ud, Hm. rewrite !N.add_0_l.
  apply N.leb_le in Ss, Sd. rewrite Ss, Sd. cbn [andb negb].
  change (N.to_nat (0 / 4)) with 0%nat. cbn [take drop app Nat.add].
  rewrite (drop_ge (GPUBuffer.contents d)) by lia.
  rewrite <- Ls, firstn_all, app_nil_r. reflexivity.
Qed.

Lemma mapAsync_ok i st bs sub b :
  bs !! i = Some b ->
  has_usage (GPUBuffer.usage b) GPUBufferUsage.MAP_READ = true ->
  GPUBuffer.mapped b = false ->
  mapAsync i (mkWorld st (mkDevice bs sub))
  = (Return tt,
     mkWorld st (mkDevice
       (<[i := GPUBuffer.Make (GPUBuffer.size b) (GPUBuffer.usage b)
                 (GPUBuffer.contents b) true]> bs) sub)).
Proof.
  intros Hb Hu Hm. unfold mapAsync. cbn [buffers device]. now rewrite Hb, Hu, Hm.
Qed.

Lemma getMappedRange_ok i st bs sub b :
  bs !! i = Some b -> GPUBuffer.mapped b = true ->
  getMappedRange i (mkWorld st (mkDevice bs sub))
  = (Return (GPUBuffer.contents b), mkWorld st (mkDevice bs sub)).
Proof.
  intros Hb Hm. unfold getMappedRange. cbn [buffers device]. now rewrite Hb, Hm.
Qed.

Lemma unmap_ok i st bs sub b :
  bs !! i = Some b ->
  unmap i (mkWorld st (mkDevice bs sub))
  = (Return tt,
     mkWorld st (mkDevice
       (<[i := GPUBuffer.Make (GPUBuffer.size b) (GPUBuffer.usage b)
                 (GPUBuffer.contents b) false]> bs) sub)).
Proof.
  intros Hb. unfold unmap, modify. cbn [buffers device]. now rewrite Hb.
Qed.

Lemma slice_all {A} (l : list A) : slice l 0 (length l) = l.
Proof. unfold slice. rewrite Nat.sub_0_r, drop_0. apply firstn_all. Qed.

Lemma reconstruct_ok data st dev :
  throws env 163 = None ->
  exists h',
    reconstruct MATRIX_SIZE env data (mkWorld st dev)
    = (Return (fresh (dom (objects st))), mkWorld (setObjects h' st) dev) /\
    read_matrix h' (fresh (dom (objects st))) = Some (rows_of_data MATRIX_SIZE data) /\
    (forall l, is_Some (objects st !! l) -> h' !! l = objects st !! l).
Proof.
  intros Hq. set (nrm := fresh (dom (objects st))).
  set (h0 := <[nrm := Rows []]> (objects st)).
  destruct (reconstruct_loop MATRIX_SIZE env data nrm (upto MATRIX_SIZE) Hq
              (setObjects h0 st) dev [] [])
    as (h' & rs' & Hrun & Hn & Hrs & Hframe).
  { cbn. apply lookup_insert_eq. }
  { constructor. }
  exists h'. split; [|split].
  - unfold reconstruct. rewrite bind_unfold, lift_alloc. cbv beta iota.
    fold nrm. fold h0. rewrite bind_unfold. cbv zeta.
    unfold row_of_data in Hrun. rewrite Hrun. reflexivity.
  - apply read_matrix_Some. exists rs'. split; [exact Hn|exact Hrs].
  - intros l Hl. rewrite Hframe.
    + cbn. unfold h0. apply lookup_insert_ne. apply not_eq_sym, fresh_ne, Hl.
    + apply fresh_ne, Hl.
    + cbn. unfold h0. rewrite lookup_insert_ne; [exact Hl|].
      apply not_eq_sym, fresh_ne, Hl.
Qed.

Ltac mstep :=
  rewrite bind_unfold; cbv beta iota delta [mret M_ret modify gets requestDevice].
Ltac msteps := repeat mstep.
Ltac wsimpl :=
  cbn [react device submitted buffers length app insert list_insert
       GPUBuffer.size GPUBuffer.usage GPUBuffer.contents GPUBuffer.mapped].

(** The world a run without failure ends in. *)
Lemma try_block_quiet st a b :
  no_failure env ->
  holds (objects st) (matrixA st) a -> square MATRIX_SIZE a ->
  holds (objects st) (matrixB st) b -> square MATRIX_SIZE b ->
  exists h',
    try_block MATRIX_SIZE env (mkWorld st (mkDevice [] []))
    = (Return tt,
       mkWorld
         (setResultMatrix (Some (fresh (dom (objects st)))) (setObjects h' st))
         (device_after MATRIX_SIZE a b)) /\
    read_matrix h' (fresh (dom (objects st)))
    = Some (rows_of_data MATRIX_SIZE (zeros MATRIX_SIZE)) /\
    (forall l, is_Some (objects st !! l) -> h' !! l = objects st !! l).
Proof.
  intros (Hgpu & Had & Hq) Ha Sa Hb Sb.
  destruct (reconstruct_ok (zeros MATRIX_SIZE) st (device_after MATRIX_SIZE a b) (Hq _))
    as (h' & Hrec & Hread & Hframe).
  exists h'. split; [|split; assumption].
  unfold try_block. rewrite Hgpu, Had. unfold call. rewrite !Hq.
  set (B := BUFFER_SIZE MATRIX_SIZE) in *.
  set (aData := map F32.of_number (concat a)) in *.
  set (bData := map F32.of_number (concat b)) in *.
  assert (La : length aData = N.to_nat (MATRIX_SIZE * MATRIX_SIZE)).
  { unfold aData. rewrite length_map. now apply length_concat_square. }
  assert (Lb : length bData = N.to_nat (MATRIX_SIZE * MATRIX_SIZE)).
  { unfold bData. rewrite length_map. now apply length_concat_square. }
  assert (HB : 4 * N.of_nat (N.to_nat (MATRIX_SIZE * MATRIX_SIZE)) <= B).
  { unfold B, BUFFER_SIZE. lia. }
  pose proof BUFFER_SIZE_elements as HE. fold B in HE.
  set (out := replicate (N.to_nat (MATRIX_SIZE * MATRIX_SIZE)) F32.zero) in *.
  assert (Lz : length out = N.to_nat (MATRIX_SIZE * MATRIX_SIZE))
    by apply length_replicate.
  (* device, flatten *)
  msteps. cbn [react].
  rewrite (lift_flatten _ _ _ a Ha). fold aData. cbv beta iota. msteps. cbn [react].
  rewrite (lift_flatten _ _ _ b Hb). fold bData. cbv beta iota. msteps.
  (* the three buffers *)
  rewrite createBuffer_eq, HE. fold out. wsimpl. cbv beta iota. msteps.
  erewrite writeBuffer_ok;
    [|reflexivity|reflexivity|reflexivity|wsimpl; rewrite La; exact HB
     |wsimpl; congruence].
  wsimpl. cbv beta iota. msteps.
  rewrite createBuffer_eq, HE. fold out. wsimpl. cbv beta iota. msteps.
  erewrite writeBuffer_ok;
    [|reflexivity|reflexivity|reflexivity|wsimpl; rewrite Lb; exact HB
     |wsimpl; congruence].
  wsimpl. cbv beta iota. msteps.
  rewrite createBuffer_eq, HE. fold out. wsimpl. cbv beta iota. msteps.
  (* the dispatch: refused *)
  rewrite submit_eq. cbn [fold_left execute run_pass].
  rewrite dispatch_refused by reflexivity.
  wsimpl. cbv beta iota. msteps.
  (* the copy *)
  rewrite createBuffer_eq, HE. fold out. wsimpl. cbv beta iota. msteps.
  rewrite submit_eq. cbn [fold_left].
  erewrite copy_ok;
    [|reflexivity|reflexivity|reflexivity|reflexivity|reflexivity
     |wsimpl; lia|wsimpl; lia|wsimpl; congruence|wsimpl; congruence].
  wsimpl. cbv beta iota. msteps.
  (* the read-back *)
  erewrite mapAsync_ok; [|reflexivity..]. wsimpl. cbv beta iota. msteps.
  erewrite getMappedRange_ok; [|reflexivity..]. wsimpl. cbv beta iota. msteps.
  erewrite unmap_ok; [|reflexivity]. wsimpl. cbv beta iota. msteps.
  rewrite slice_all. fold B. rewrite Hrec. reflexivity.
Qed.

End QuietRun.

(** ** What the shader leaves, and the result of [multiplyMatrices] *)

Section Product.
Context {arith : F32Arith}.
Variable MATRIX_SIZE : N.

Lemma elem_of_upto i n : i ∈ upto n <-> i < n.
Proof.
  unfold upto. rewrite list_elem_of_In, in_map_iff. split.
  - intros (k & <- & Hk). apply in_seq in Hk. lia.
  - intros H. exists (N.to_nat i). split; [lia|]. apply in_seq. lia.
Qed.

(** The ids of a dispatch cover the grid of [8 * countX] by [8 * countY]. *)
Lemma id_in_grid countX countY c r :
  c < countX * 8 -> r < countY * 8 ->
  WGSL.Vec3 c r 0 ∈ WGSL.global_invocation_ids countX countY.
Proof.
  intros Hc Hr. unfold WGSL.global_invocation_ids, WGSL.workgroup_size. cbn [fst snd].
  apply list_elem_of_bind. exists (r / 8). split.
  2: { apply elem_of_upto. apply N.Div0.div_lt_upper_bound. lia. }
  apply list_elem_of_bind. exists (c / 8). split.
  2: { apply elem_of_upto. apply N.Div0.div_lt_upper_bound. lia. }
  apply list_elem_of_bind. exists (r mod 8). split.
  2: { apply elem_of_upto. apply N.mod_lt. lia. }
  apply list_elem_of_bind. exists (c mod 8). split.
  2: { apply elem_of_upto. apply N.mod_lt. lia. }
  apply list_elem_of_singleton. f_equal.
  - rewrite (N.div_mod c 8) at 1 by lia. lia.
  - rewrite (N.div_mod r 8) at 1 by lia. lia.
Qed.

Lemma nth_concat_square {A} (n : nat) (vals : list (list A)) (d : A) r i :
  Forall (fun row => length row = n) vals ->
  (i < n)%nat ->
  nth (r * n + i) (concat vals) d = nth i (nth r vals []) d.
Proof.
  intros Hrows Hi. revert r.
  induction Hrows as [|row vals Hrow _ IH]; intros r.
  - cbn [concat]. destruct (r * n + i)%nat, r, i; reflexivity.
  - destruct r as [|r]; cbn [concat nth].
    + cbn. apply app_nth1. lia.
    + rewrite app_nth2 by lia.
      replace (S r * n + i - length row)%nat with (r * n + i)%nat by lia.
      apply IH.
Qed.

Lemma fold_left_ext_in {A B} (f g : A -> B -> A) l a :
  (forall s x, In x l -> f s x = g s x) -> fold_left f l a = fold_left g l a.
Proof.
  revert a. induction l as [|x l IH]; intros a H; [reflexivity|].
  cbn. rewrite H by (left; reflexivity). apply IH.
  intros s y Hy. apply H. now right.
Qed.

Lemma fold_left_through_map {A B C} (f : A -> C -> A) (g : B -> C) l a :
  fold_left f (map g l) a = fold_left (fun s x => f s (g x)) l a.
Proof. revert a. induction l as [|x l IH]; intros a; [reflexivity|apply IH]. Qed.

(** The sum of the invocation for cell [(row, col)] is the dot product of
    row [row] of [a] and column [col] of [b], both rounded to binary32. *)
Lemma accumulate_dot_product (a b : list (list number)) row col k :
  MATRIX_SIZE * MATRIX_SIZE <= u32_modulus ->
  square MATRIX_SIZE a -> square MATRIX_SIZE b ->
  (row < N.to_nat MATRIX_SIZE)%nat -> (col < N.to_nat MATRIX_SIZE)%nat ->
  WGSL.accumulate MATRIX_SIZE
    (map F32.of_number (concat a)) (map F32.of_number (concat b))
    (WGSL.Vec3 (N.of_nat col) (N.of_nat row) k)
  = dot_product MATRIX_SIZE
      (map (map F32.of_number) a) (map (map F32.of_number) b) row col.
Proof.
  intros Hm [_ Ha] [_ Hb] Hrow Hcol.
  unfold WGSL.accumulate, dot_product, upto. rewrite fold_left_through_map.
  apply fold_left_ext_in. intros s i Hi. apply in_seq in Hi.
  unfold WGSL.body. cbn [WGSL.x WGSL.y]. f_equal. f_equal.
  - rewrite index_exact by lia. unfold WGSL.numbers, entry.
    rewrite concat_map.
    replace (N.to_nat (N.of_nat row * MATRIX_SIZE + N.of_nat i))
      with (row * N.to_nat MATRIX_SIZE + i)%nat by lia.
    apply nth_concat_square; [|lia].
    apply Forall_map. eapply Forall_impl; [exact Ha|].
    intros r Hr. cbn. now rewrite length_map.
  - rewrite index_exact by lia. unfold WGSL.numbers, entry.
    rewrite concat_map.
    replace (N.to_nat (N.of_nat i * MATRIX_SIZE + N.of_nat col))
      with (i * N.to_nat MATRIX_SIZE + col)%nat by lia.
    apply nth_concat_square; [|lia].
    apply Forall_map. eapply Forall_impl; [exact Hb|].
    intros r Hr. cbn. now rewrite length_map.
Qed.

Lemma lookup_upto n (i : nat) : (i < N.to_nat n)%nat -> upto n !! i = Some (N.of_nat i).
Proof.
  intros Hi. unfold upto. change (map N.of_nat ?l) with (N.of_nat <$> l).
  rewrite list_lookup_fmap, lookup_seq_lt by assumption. reflexivity.
Qed.

(** Cell [(row, col)] of the rows cut from [data] is element
    [row * MATRIX_SIZE + col] of [data], read as a number. *)
Lemma cell_rows_of_data (data : list f32) (row col : nat) :
  (row < N.to_nat MATRIX_SIZE)%nat -> (col < N.to_nat MATRIX_SIZE)%nat ->
  cell (rows_of_data MATRIX_SIZE data) row col
  = (fun v => Num (F32.to_number v)) <$> data !! (row * N.to_nat MATRIX_SIZE + col)%nat.
Proof.
  intros Hrow Hcol. unfold cell, rows_of_data.
  change (map ?f ?l) with (f <$> l).
  rewrite list_lookup_fmap, lookup_upto by assumption. cbn [fmap option_fmap option_map mbind option_bind].
  unfold row_of_data, Array_from, slice. change (map ?f ?l) with (f <$> l).
  rewrite list_lookup_fmap, lookup_take_lt, lookup_drop by lia.
  do 2 f_equal. lia.
Qed.

Lemma rows_of_data_shape (data : list f32) :
  length data = N.to_nat (MATRIX_SIZE * MATRIX_SIZE) ->
  length (rows_of_data MATRIX_SIZE data) = N.to_nat MATRIX_SIZE /\
  Forall (fun r => length r = N.to_nat MATRIX_SIZE) (rows_of_data MATRIX_SIZE data).
Proof.
  intros Hlen. unfold rows_of_data. split.
  - unfold upto. now rewrite !length_map, length_seq.
  - apply Forall_map, Forall_forall. intros i Hi.
    apply elem_of_upto in Hi.
    unfold row_of_data, Array_from, slice.
    rewrite length_map, length_take, length_drop. nia.
Qed.

Variable env : Env.

(** The cells of what the shader leaves in the output buffer, cut into
    rows: the sums of the invocations. *)
Lemma kernel_cells a b :
  MATRIX_SIZE <= 8 -> runs_each_once env ->
  let rows := rows_of_data MATRIX_SIZE (kernel_output MATRIX_SIZE env a b) in
  length rows = N.to_nat MATRIX_SIZE /\
  Forall (fun cs => length cs = N.to_nat MATRIX_SIZE) rows /\
  forall row col,
    (row < N.to_nat MATRIX_SIZE)%nat -> (col < N.to_nat MATRIX_SIZE)%nat ->
    cell rows row col
    = Some (Num (F32.to_number
                   (WGSL.accumulate MATRIX_SIZE
                      (map F32.of_number (concat a)) (map F32.of_number (concat b))
                      (WGSL.Vec3 (N.of_nat col) (N.of_nat row) 0)))).
Proof.
  intros Hn Hs rows.
  assert (Hm : MATRIX_SIZE * MATRIX_SIZE <= u32_modulus).
  { unfold u32_modulus. nia. }
  assert (Hlen : length (kernel_output MATRIX_SIZE env a b)
                 = N.to_nat (MATRIX_SIZE * MATRIX_SIZE)).
  { unfold kernel_output. now rewrite run_length, length_replicate. }
  destruct (rows_of_data_shape _ Hlen) as [Hrows Hcols].
  repeat split; [exact Hrows|exact Hcols|].
  intros row col Hrow Hcol. unfold rows.
  rewrite cell_rows_of_data by assumption.
  unfold kernel_output.
  replace (row * N.to_nat MATRIX_SIZE + col)%nat
    with (N.to_nat (N.of_nat row * MATRIX_SIZE + N.of_nat col)) by lia.
  rewrite (run_lookup _ _ _ _ _ _ _ 0 Hm).
  - reflexivity.
  - rewrite (Hs _). apply id_in_grid; lia.
  - lia.
  - lia.
  - rewrite length_replicate. nia.
Qed.

(** The rows cut from a buffer of zeros. *)
Lemma rows_of_data_zeros :
  rows_of_data MATRIX_SIZE (zeros MATRIX_SIZE)
  = map (map Num)
      (replicate (N.to_nat MATRIX_SIZE) (replicate (N.to_nat MATRIX_SIZE) (F64.of_Z 0))).
Proof.
  unfold rows_of_data, upto. rewrite map_map.
  apply list_eq. intros i. change (map ?f ?l) with (f <$> l).
  rewrite !list_lookup_fmap.
  destruct (decide (i < N.to_nat MATRIX_SIZE)%nat) as [Hi|Hi].
  - rewrite lookup_seq_lt, lookup_replicate_2 by assumption.
    cbn [fmap option_fmap option_map]. f_equal.
    unfold row_of_data, slice, Array_from.
    rewrite drop_replicate, take_replicate.
    match goal with
    | |- context [replicate ?k F32.zero] =>
        replace k with (N.to_nat MATRIX_SIZE) by (cbn [Nat.add]; nia)
    end.
    generalize (N.to_nat MATRIX_SIZE). intros k.
    induction k as [|k IH]; [reflexivity|]. cbn. now rewrite IH.
  - rewrite !(proj2 (lookup_ge_None _ _)); [reflexivity| |];
      rewrite ?length_seq, ?length_replicate; lia.
Qed.

(** The state and the device a run without failure ends in: the dispatch
    is refused, and the result is cut from the zeros of [resultBuffer]. *)
Lemma multiplyMatrices_quiet st a b :
  no_failure env ->
  holds (objects st) (matrixA st) a -> square MATRIX_SIZE a ->
  holds (objects st) (matrixB st) b -> square MATRIX_SIZE b ->
  exists h',
    multiplyMatrices MATRIX_SIZE env st
    = mkWorld
        (mkState h' (matrixA st) (matrixB st) (Some (fresh (dom (objects st))))
           None false)
        (device_after MATRIX_SIZE a b) /\
    holds h' (fresh (dom (objects st)))
      (replicate (N.to_nat MATRIX_SIZE) (replicate (N.to_nat MATRIX_SIZE) (F64.of_Z 0))) /\
    (forall l, is_Some (objects st !! l) -> h' !! l = objects st !! l).
Proof.
  intros Hq Ha Sa Hb Sb.
  destruct (try_block_quiet MATRIX_SIZE env (setLoading true (setError None st)) a b)
    as (h' & Hrun & Hread & Hframe); try assumption.
  exists h'. split; [|split; [|assumption]].
  - unfold multiplyMatrices, onReact. cbn [react device].
    rewrite Hrun. reflexivity.
  - unfold holds. now rewrite <- rows_of_data_zeros.
Qed.

End Product.

Lemma quiet_no_failure : no_failure quiet.
Proof. repeat split. Defined.

Lemma quiet_runs_each_once : runs_each_once quiet.
Proof. intros ids. reflexivity. Defined.

(** ** Reasoning about every run, failing or not *)

Section Hoare.

Lemma hoare_bind {A B} P (c : M World A) Q (k : A -> M World B) R E :
  hoare P c Q E -> (forall a, hoare (Q a) (k a) R E) -> hoare P (c ≫= k) R E.
Proof.
  intros Hc Hk w Hw. rewrite bind_unfold. specialize (Hc w Hw).
  destruct (c w) as [[a|msg] w']; [|exact Hc]. now apply Hk.
Qed.

Lemma hoare_conseq {A} (P P' : World -> Prop) (c : M World A)
    (Q Q' : A -> World -> Prop) (E E' : World -> Prop) :
  hoare P c Q E ->
  (forall w, P' w -> P w) -> (forall a w, Q a w -> Q' a w) ->
  (forall w, E w -> E' w) ->
  hoare P' c Q' E'.
Proof.
  intros Hc HP HQ HE w Hw. specialize (Hc w (HP w Hw)).
  destruct (c w) as [[a|msg] w']; auto.
Qed.

Lemma hoare_ret {A} (a : A) (P : World -> Prop) Q E :
  (forall w, P w -> Q a w) -> hoare P (mret a) Q E.
Proof. intros H w Hw. now apply H. Qed.

Lemma hoare_throw {A} message (P : World -> Prop) (Q : A -> World -> Prop) E :
  (forall w, P w -> E w) -> hoare P (throw message) Q E.
Proof. intros H w Hw. now apply H. Qed.

Lemma hoare_if {A} (b : bool) (c c' : M World A) P Q E :
  hoare P c Q E -> hoare P c' Q E -> hoare P (if b then c else c') Q E.
Proof. now destruct b. Qed.

(** [if (!b) throw new Error(message);] *)
Lemma hoare_guard (b : bool) message (P : World -> Prop) :
  hoare P (if b then mret tt else throw message) (fun _ => P) P.
Proof. intros w Hw. now destruct b. Qed.

(** A line that may throw keeps the world it is called in. *)
Lemma hoare_call env line (P : World -> Prop) :
  hoare P (call env line) (fun _ => P) P.
Proof. intros w Hw. unfold call. now destruct (throws env line). Qed.

Lemma hoare_for_each indices (body : N -> M World unit) (I E : World -> Prop) :
  (forall i, hoare I (body i) (fun _ => I) E) ->
  hoare I (for_each indices body) (fun _ => I) E.
Proof.
  intros Hbody. induction indices as [|i indices IH].
  - now apply hoare_ret.
  - cbn [for_each]. eapply hoare_bind; [apply Hbody|]. intros []. exact IH.
Qed.

(** A fact that does not depend on the world may be assumed. *)
Lemma hoare_pure {A} (fact : Prop) (P : World -> Prop) (c : M World A) Q E :
  (fact -> hoare P c Q E) -> hoare (fun w => P w /\ fact) c Q E.
Proof. intros H w [Hw Hf]. now apply H. Qed.

End Hoare.

(** ** The input matrices are never written *)

Section Frame.
Context {arith : F32Arith}.
Variable MATRIX_SIZE : N.
Variable env : Env.
Variable st0 : State.

Local Abbreviation U := (fun w : World => untouched st0 (react w)).

Lemma untouched_silent {A} (c : M World A) :
  host_silent c -> hoare U c (fun _ => U) U.
Proof.
  intros Hc w Hw. specialize (Hc w).
  destruct (c w) as [[a|msg] w']; cbn in Hc; now rewrite Hc.
Qed.

Lemma silent_requestDevice : host_silent requestDevice.
Proof. intros w. reflexivity. Qed.

Lemma silent_createBuffer size usage : host_silent (createBuffer size usage).
Proof. intros w. reflexivity. Qed.

Lemma silent_writeBuffer buffer data : host_silent (writeBuffer buffer data).
Proof.
  intros w. unfold writeBuffer, modify. cbn.
  destruct (buffers (device w) !! buffer) as [b|]; [|reflexivity].
  now destruct (_ && _).
Qed.

Lemma silent_submit commands : host_silent (submit env commands).
Proof. intros w. reflexivity. Qed.

Lemma silent_mapAsync buffer : host_silent (mapAsync buffer).
Proof.
  intros w. unfold mapAsync.
  destruct (buffers (device w) !! buffer) as [b|]; [|reflexivity].
  now destruct (_ && _).
Qed.

Lemma silent_getMappedRange buffer : host_silent (getMappedRange buffer).
Proof.
  intros w. unfold getMappedRange.
  destruct (buffers (device w) !! buffer) as [b|]; [|reflexivity].
  now destruct (GPUBuffer.mapped b).
Qed.

Lemma silent_unmap buffer : host_silent (unmap buffer).
Proof.
  intros w. unfold unmap, modify. cbn.
  now destruct (buffers (device w) !! buffer).
Qed.

Lemma silent_gets {A} (f : World -> A) : host_silent (gets f).
Proof. intros w. reflexivity. Qed.

(** [flatten] only reads. *)
Lemma flat_rows_reads rs st : snd (flat_rows rs st) = st.
Proof.
  induction rs as [|r rs IH]; [reflexivity|].
  cbn [flat_rows]. rewrite bind_unfold. unfold cells_of at 1.
  destruct (objects st !! r) as [[|cs]|]; try reflexivity.
  rewrite bind_unfold. destruct (flat_rows rs st) as [[css|msg] st'] eqn:E;
    cbn in IH; now subst.
Qed.

Lemma flatten_reads m st : snd (flatten m st) = st.
Proof.
  unfold flatten, flat. rewrite !bind_unfold. unfold rows_of at 1.
  destruct (objects st !! m) as [[rs|]|]; try reflexivity.
  rewrite bind_unfold. pose proof (flat_rows_reads rs st) as H.
  destruct (flat_rows rs st) as [[css|msg] st']; cbn in H; now subst.
Qed.

Lemma silent_flatten m : host_silent (lift (flatten m)).
Proof.
  intros w. unfold lift. pose proof (flatten_reads m (react w)) as H.
  destruct (flatten m (react w)) as [r st']. cbn in *. now subst.
Qed.

(** A new array is none of the old ones. *)
Lemma untouched_alloc a :
  hoare U (lift (alloc a)) (fun l w => U w /\ objects st0 !! l = None) U.
Proof.
  intros w (HA & HB & Hobj). cbn.
  set (l := fresh (dom (objects (react w)))).
  assert (Hl : objects st0 !! l = None).
  { destruct (objects st0 !! l) as [a'|] eqn:E; [|reflexivity].
    apply Hobj in E. unfold l in E. now rewrite fresh_lookup in E. }
  repeat split; try assumption.
  intros l' a' Hl'. cbn. rewrite lookup_insert_ne; [now apply Hobj|].
  intros <-. congruence.
Qed.

(** [push] onto an array made during the call. *)
Lemma untouched_push m r :
  objects st0 !! m = None -> hoare U (lift (push m r)) (fun _ => U) U.
Proof.
  intros Hm w (HA & HB & Hobj). unfold lift, push. rewrite bind_unfold.
  unfold rows_of. destruct (objects (react w) !! m) as [[rs|]|]; cbn;
    try (repeat split; assumption).
  repeat split; try assumption.
  intros l a Hl. cbn [objects setObjects]. rewrite lookup_insert_ne; [now apply Hobj|].
  intros <-. congruence.
Qed.

Lemma untouched_reconstruct data :
  hoare U (reconstruct MATRIX_SIZE env data) (fun _ => U) U.
Proof.
  unfold reconstruct.
  eapply hoare_bind; [apply untouched_alloc|]. intros nrm. cbv beta.
  apply hoare_pure. intros Hnrm.
  eapply hoare_bind.
  - apply hoare_for_each. intros i.
    eapply hoare_bind; [apply hoare_call|]. intros []. cbv zeta.
    eapply hoare_bind.
    + eapply hoare_conseq; [apply untouched_alloc| |intros ? ? [H _]; exact H|];
        auto.
    + intros row. now apply untouched_push.
  - intros []. now apply hoare_ret.
Qed.

Ltac silent :=
  apply untouched_silent;
  first [ apply silent_requestDevice | apply silent_createBuffer
        | apply silent_writeBuffer | apply silent_submit | apply silent_mapAsync
        | apply silent_getMappedRange | apply silent_unmap | apply silent_gets
        | apply silent_flatten ].

Ltac hstep :=
  lazymatch goal with
  | |- hoare _ (_ ≫= _) _ _ =>
      eapply hoare_bind;
      [ first [ apply hoare_call | apply hoare_guard | silent ]
      | intros ? ]
  end.

Lemma untouched_try_block : hoare U (try_block MATRIX_SIZE env) (fun _ => U) U.
Proof.
  unfold try_block.
  do 6 hstep.
  eapply hoare_bind; [eapply hoare_bind; [silent|intros ?; silent]|intros ?].
  hstep.
  eapply hoare_bind; [eapply hoare_bind; [silent|intros ?; silent]|intros ?].
  repeat hstep. cbv zeta.
  eapply hoare_bind; [apply untouched_reconstruct|]. intros nrm.
  intros w Hw. exact Hw.
Qed.

(** C8.  Whatever the environment does, whether the call succeeds or
    fails, [multiplyMatrices] leaves [matrixA] and [matrixB] the references
    they were, and every array of the heap it was called with (the two
    matrices and their rows among them) holds the elements it held. *)
Theorem multiply_keeps_inputs :
  let st' := react (multiplyMatrices MATRIX_SIZE env st0) in
  untouched st0 st' /\
  forall m rows,
    read_matrix (objects st0) m = Some rows -> read_matrix (objects st') m = Some rows.
Proof.
  assert (H : untouched st0 (react (multiplyMatrices MATRIX_SIZE env st0))).
  { unfold multiplyMatrices, onReact. cbn [react device].
    pose proof (untouched_try_block
                  (mkWorld (setLoading true (setError None st0)) (mkDevice [] [])))
      as H.
    destruct (try_block MATRIX_SIZE env _) as [[[]|msg] w']; cbn [react];
      apply H; repeat split; auto. }
  split; [exact H|]. destruct H as (_ & _ & Hobj).
  intros m rows (rs & Hm & Hrs)%read_matrix_Some.
  apply read_matrix_Some. exists rs. split; [now apply Hobj|].
  eapply Forall2_impl; [exact Hrs|]. intros r cs. apply Hobj.
Qed.

End Frame.

(** ** Mapping and unmapping of the staging buffer *)

Section Mapping.
Context {arith : F32Arith}.
Variable MATRIX_SIZE : N.
Variable env : Env.

Local Abbreviation Um := (fun w : World => none_mapped (device w)).

Lemma hoare_call_quiet line (P E : World -> Prop) :
  throws env line = None -> hoare P (call env line) (fun _ => P) E.
Proof. intros H w Hw. unfold call. now rewrite H. Qed.

(** Host work does not touch the device. *)
Lemma hoare_lift {A} (c : M State A) (D : GPUDevice -> Prop) :
  hoare (fun w => D (device w)) (lift c)
    (fun _ w => D (device w)) (fun w => D (device w)).
Proof.
  intros w Hw. unfold lift. destruct (c (react w)) as [[a|msg] st']; exact Hw.
Qed.

Lemma hoare_gets {A} (f : World -> A) (P : World -> Prop) E :
  hoare P (gets f) (fun _ => P) E.
Proof. intros w Hw. exact Hw. Qed.

Lemma unmapped_requestDevice : hoare Um requestDevice (fun _ => Um) Um.
Proof. intros w _. constructor. Qed.

Lemma unmapped_createBuffer size usage :
  hoare Um (createBuffer size usage) (fun _ => Um) Um.
Proof.
  intros w Hw. cbn. unfold none_mapped. cbn.
  apply Forall_app. split; [exact Hw|]. now repeat constructor.
Qed.

Lemma unmapped_writeBuffer buffer data :
  hoare Um (writeBuffer buffer data) (fun _ => Um) Um.
Proof.
  intros w Hw. unfold writeBuffer, modify.
  destruct (buffers (device w) !! buffer) as [b|] eqn:Hb; [|exact Hw].
  destruct (_ && _); [|exact Hw].
  unfold none_mapped. cbn. apply Forall_insert; [exact Hw|]. cbn.
  eapply Forall_lookup_1 in Hb; [|exact Hw]. exact Hb.
Qed.

Lemma unmapped_dispatch pipeline group countX countY bs :
  Forall (fun b => GPUBuffer.mapped b = false) bs ->
  Forall (fun b => GPUBuffer.mapped b = false)
    (dispatch env pipeline group countX countY bs).
Proof.
  intros H. unfold dispatch.
  destruct (pipeline_valid pipeline && layout group); [|exact H].
  destruct (bs !! binding0 group) as [a|]; [|exact H].
  destruct (bs !! binding1 group) as [b|]; [|exact H].
  destruct (bs !! binding2 group) as [out|] eqn:Ho; [|exact H].
  destruct (_ && _); [|exact H].
  apply Forall_insert; [exact H|]. cbn.
  eapply Forall_lookup_1 in Ho; [|exact H]. exact Ho.
Qed.

Lemma unmapped_run_pass commands pipeline group bs :
  Forall (fun b => GPUBuffer.mapped b = false) bs ->
  Forall (fun b => GPUBuffer.mapped b = false)
    (run_pass env commands pipeline group bs).
Proof.
  revert pipeline group bs.
  induction commands as [|[p|i g|countX countY] commands IH];
    intros pipeline group bs H; cbn [run_pass]; auto.
  destruct pipeline, group; auto using unmapped_dispatch.
Qed.

Lemma unmapped_execute c bs :
  Forall (fun b => GPUBuffer.mapped b = false) bs ->
  Forall (fun b => GPUBuffer.mapped b = false) (execute env c bs).
Proof.
  intros H. destruct c as [commands|s so d do size]; cbn [execute].
  - now apply unmapped_run_pass.
  - destruct (bs !! s) as [bs'|]; [|exact H].
    destruct (bs !! d) as [bd|] eqn:Hd; [|exact H].
    destruct (_ && _); [|exact H].
    apply Forall_insert; [exact H|]. cbn.
    eapply Forall_lookup_1 in Hd; [|exact H]. exact Hd.
Qed.

Lemma unmapped_submit commands :
  hoare Um (submit env commands) (fun _ => Um) Um.
Proof.
  intros w Hw. unfold submit, modify, none_mapped. cbn.
  unfold none_mapped in Hw. revert Hw. generalize (buffers (device w)).
  induction commands as [|c commands IH]; intros bs H; [exact H|].
  cbn. apply IH. now apply unmapped_execute.
Qed.

(** [mapAsync] maps the buffer it is called on, or is rejected and maps
    nothing. *)
Lemma unmapped_mapAsync buffer :
  hoare Um (mapAsync buffer) (fun _ w => only_mapped buffer (device w)) Um.
Proof.
  intros w Hw. unfold mapAsync.
  destruct (buffers (device w) !! buffer) as [b|] eqn:Hb; [|exact Hw].
  destruct (_ && _); [|exact Hw].
  assert (Hlt : (buffer < length (buffers (device w)))%nat)
    by (eapply lookup_lt_Some; exact Hb).
  split; cbn.
  - eexists. split; [now apply list_lookup_insert_eq|reflexivity].
  - intros j b' Hj Hne. rewrite list_lookup_insert_ne in Hj by auto.
    eapply Forall_lookup_1 in Hj; [|exact Hw]. exact Hj.
Qed.

(** On a mapped buffer [getMappedRange] does not throw. *)
Lemma mapped_getMappedRange buffer E :
  hoare (fun w => only_mapped buffer (device w)) (getMappedRange buffer)
    (fun _ w => only_mapped buffer (device w)) E.
Proof.
  intros w Hw. unfold getMappedRange.
  pose proof Hw as [(b & Hb & Hm) _]. rewrite Hb, Hm. exact Hw.
Qed.

Lemma mapped_unmap buffer E :
  hoare (fun w => only_mapped buffer (device w)) (unmap buffer) (fun _ => Um) E.
Proof.
  intros w [(b & Hb & Hm) Hothers]. unfold unmap, modify. rewrite Hb.
  unfold none_mapped. cbn. apply Forall_lookup_2. intros j b' Hj.
  destruct (decide (j = buffer)) as [->|Hne].
  - rewrite list_lookup_insert_eq in Hj by (eapply lookup_lt_Some; exact Hb).
    now injection Hj as <-.
  - rewrite list_lookup_insert_ne in Hj by auto. eauto.
Qed.

Lemma unmapped_reconstruct data :
  hoare Um (reconstruct MATRIX_SIZE env data) (fun _ => Um) Um.
Proof.
  unfold reconstruct.
  eapply hoare_bind; [apply (hoare_lift _ none_mapped)|]. intros nrm.
  eapply hoare_bind.
  - apply hoare_for_each. intros i.
    eapply hoare_bind; [apply hoare_call|]. intros []. cbv zeta.
    eapply hoare_bind; [apply (hoare_lift _ none_mapped)|]. intros row.
    apply (hoare_lift _ none_mapped).
  - intros []. now apply hoare_ret.
Qed.

Ltac ustep :=
  lazymatch goal with
  | |- hoare _ (_ ≫= _) _ _ =>
      eapply hoare_bind;
      [ first [ apply hoare_call | apply hoare_guard | apply unmapped_requestDevice
              | apply unmapped_createBuffer | apply unmapped_writeBuffer
              | apply unmapped_submit | apply (hoare_lift _ none_mapped)
              | apply hoare_gets ]
      | intros ? ]
  end.

(** As long as the two lines between [mapAsync] and [unmap] do not throw,
    the [try] block ends, normally or not, with nothing mapped. *)
Lemma unmapped_try_block :
  throws env 155 = None -> throws env 156 = None ->
  hoare Um (try_block MATRIX_SIZE env) (fun _ => Um) Um.
Proof.
  intros H155 H156. unfold try_block.
  do 6 ustep.
  eapply hoare_bind; [eapply hoare_bind; [apply hoare_gets|intros ?; apply (hoare_lift _ none_mapped)]|intros ?].
  ustep.
  eapply hoare_bind; [eapply hoare_bind; [apply hoare_gets|intros ?; apply (hoare_lift _ none_mapped)]|intros ?].
  repeat ustep. cbv zeta.
  (* await readBuffer.mapAsync(GPUMapMode.READ) *)
  eapply hoare_bind; [apply unmapped_mapAsync|]. intros [].
  eapply hoare_bind; [now apply hoare_call_quiet|]. intros [].
  eapply hoare_bind; [apply mapped_getMappedRange|]. intros resultArrayBuffer.
  eapply hoare_bind; [now apply hoare_call_quiet|]. intros [].
  eapply hoare_bind; [apply mapped_unmap|]. intros [].
  eapply hoare_bind; [apply unmapped_reconstruct|]. intros nrm.
  intros w Hw. exact Hw.
Qed.

End Mapping.


(** ** Claims about [multiplyMatrices] *)

Section RunClaims.
Context {arith : F32Arith}.
Variable MATRIX_SIZE : N.
Variable env : Env.
Variable st : State.

(** C6, as the code has it.  The call to [unmap] follows the read of the
    mapped range directly and is not in a [finally] block.  So: when the two
    lines between the grant of the mapping and [unmap] (155,
    [getMappedRange], and 156, the byte copy) do not throw, no buffer is
    mapped when [multiplyMatrices] finishes, on every path: when something
    fails before the mapping, when [mapAsync] is rejected, and when the
    mapping was granted, the bytes were copied and an error occurs
    afterwards. *)
Theorem staging_buffer_unmapped :
  throws env 155 = None -> throws env 156 = None ->
  none_mapped (device (multiplyMatrices MATRIX_SIZE env st)).
Proof.
  intros H155 H156. unfold multiplyMatrices, onReact. cbn [react device].
  pose proof (unmapped_try_block MATRIX_SIZE env H155 H156
                (mkWorld (setLoading true (setError None st)) (mkDevice [] [])))
    as H.
  destruct (try_block MATRIX_SIZE env _) as [[[]|msg] w']; cbn [device];
    apply H; constructor.
Qed.

(** C5.  When device acquisition fails, because there is no
    [navigator.gpu], because [requestAdapter] is rejected or resolves to
    [null], or because [requestDevice] is rejected, [multiplyMatrices] ends
    in the state it was called in with [error] set to the reason and
    [loading] off: [resultMatrix] and every array are as before, and no
    buffer was created. *)
Theorem device_acquisition_failure :
  (navigator_gpu env = false ->
   multiplyMatrices MATRIX_SIZE env st
   = failed st "WebGPU is not supported on this browser.") /\
  (forall message,
     navigator_gpu env = true -> throws env 84 = Some message ->
     multiplyMatrices MATRIX_SIZE env st = failed st message) /\
  (navigator_gpu env = true -> throws env 84 = None ->
   adapter_available env = false ->
   multiplyMatrices MATRIX_SIZE env st = failed st "Failed to get GPU adapter.") /\
  (forall message,
     navigator_gpu env = true -> throws env 84 = None ->
     adapter_available env = true -> throws env 86 = Some message ->
     multiplyMatrices MATRIX_SIZE env st = failed st message).
Proof.
  unfold multiplyMatrices, try_block, failed, onReact, call.
  repeat split.
  - intros ->. reflexivity.
  - intros message -> H. rewrite !bind_unfold. cbn. now rewrite H.
  - intros -> H ->. rewrite !bind_unfold. cbn. rewrite H.
    rewrite !bind_unfold. reflexivity.
  - intros message -> H -> H'. rewrite !bind_unfold. cbn. rewrite H.
    rewrite !bind_unfold. cbn. rewrite !bind_unfold. now rewrite H'.
Qed.

(** C3, as the code has it.  The group count of the one dispatch is the
    literal [1] in both dimensions ("enough workgroups for a 4x4 grid"); it
    is [ceil(MATRIX_SIZE / 8)] for the dimensions from 1 to 8. *)
Theorem dispatch_group_count a b :
  1 <= MATRIX_SIZE <= 8 ->
  no_failure env ->
  holds (objects st) (matrixA st) a -> square MATRIX_SIZE a ->
  holds (objects st) (matrixB st) b -> square MATRIX_SIZE b ->
  dispatches (submitted (device (multiplyMatrices MATRIX_SIZE env st)))
  = [(ceil_div MATRIX_SIZE 8, ceil_div MATRIX_SIZE 8)].
Proof.
  intros Hn Hq Ha Sa Hb Sb.
  destruct (multiplyMatrices_quiet MATRIX_SIZE env st a b)
    as (h' & -> & _); try assumption.
  assert (E : ceil_div MATRIX_SIZE 8 = 1).
  { unfold ceil_div. symmetry. apply (N.div_unique _ _ _ (MATRIX_SIZE - 1)); lia. }
  rewrite E. reflexivity.
Qed.

End RunClaims.

Lemma staging_buffer_unmapped_witness :
  none_mapped
    (device (@multiplyMatrices ieee754 4 (failing_at 163 "RangeError") (initial_state 4))).
Proof.
  apply (@staging_buffer_unmapped ieee754 4 (failing_at 163 "RangeError")
           (initial_state 4)); reflexivity.
Defined.

(** C6 as stated fails: when the copy of the mapped bytes throws (the
    allocation in [slice] fails) after the mapping was granted, the [catch]
    block is entered with the staging buffer (the fourth buffer) mapped, and
    nothing unmaps it. *)
Lemma staging_buffer_left_mapped :
  error (react (@multiplyMatrices ieee754 4
                  (failing_at 156 "Array buffer allocation failed") (initial_state 4)))
  = Some "Array buffer allocation failed"%string /\
  map GPUBuffer.mapped
    (buffers (device (@multiplyMatrices ieee754 4
                        (failing_at 156 "Array buffer allocation failed")
                        (initial_state 4))))
  = [false; false; false; true] /\
  ~ none_mapped
      (device (@multiplyMatrices ieee754 4
                 (failing_at 156 "Array buffer allocation failed") (initial_state 4))).
Proof.
  assert (E : map GPUBuffer.mapped
                (buffers (device (@multiplyMatrices ieee754 4
                   (failing_at 156 "Array buffer allocation failed") (initial_state 4))))
              = [false; false; false; true]) by (vm_compute; reflexivity).
  split; [vm_compute; reflexivity|].
  split; [exact E|]. unfold none_mapped. intros H.
  apply (Forall_map GPUBuffer.mapped (fun m => m = false)) in H.
  rewrite E in H. apply Forall_inv_tail, Forall_inv_tail, Forall_inv_tail in H.
  apply Forall_inv in H. discriminate.
Qed.

Lemma device_acquisition_failure_witness :
  @multiplyMatrices ieee754 4 without_gpu (initial_state 4)
  = failed (initial_state 4) "WebGPU is not supported on this browser." /\
  @multiplyMatrices ieee754 4 (failing_at 84 "rejected") (initial_state 4)
  = failed (initial_state 4) "rejected" /\
  @multiplyMatrices ieee754 4 without_adapter (initial_state 4)
  = failed (initial_state 4) "Failed to get GPU adapter." /\
  @multiplyMatrices ieee754 4 (failing_at 86 "rejected") (initial_state 4)
  = failed (initial_state 4) "rejected".
Proof.
  split; [|split; [|split]].
  - apply (proj1 (@device_acquisition_failure ieee754 4 without_gpu (initial_state 4))).
    reflexivity.
  - apply (proj1 (proj2 (@device_acquisition_failure ieee754 4
                           (failing_at 84 "rejected") (initial_state 4))));
      reflexivity.
  - apply (proj1 (proj2 (proj2 (@device_acquisition_failure ieee754 4
                                  without_adapter (initial_state 4)))));
      reflexivity.
  - apply (proj2 (proj2 (proj2 (@device_acquisition_failure ieee754 4
                                  (failing_at 86 "rejected") (initial_state 4)))));
      reflexivity.
Defined.

Lemma initial_holds_A : holds (objects (initial_state 4)) (matrixA (initial_state 4)) (initial_matrixA 4).
Proof. vm_compute. reflexivity. Defined.

Lemma initial_holds_B : holds (objects (initial_state 4)) (matrixB (initial_state 4)) (initial_matrixB 4).
Proof. vm_compute. reflexivity. Defined.

Lemma initial_square_A : square 4 (initial_matrixA 4).
Proof. split; [reflexivity|]. vm_compute. repeat constructor. Defined.

Lemma initial_square_B : square 4 (initial_matrixB 4).
Proof. split; [reflexivity|]. vm_compute. repeat constructor. Defined.

Lemma dispatch_group_count_witness :
  dispatches (submitted (device (@multiplyMatrices ieee754 4 quiet (initial_state 4))))
  = [(ceil_div 4 8, ceil_div 4 8)].
Proof.
  apply (@dispatch_group_count ieee754 4 quiet (initial_state 4)
           (initial_matrixA 4) (initial_matrixB 4)).
  - lia.
  - exact quiet_no_failure.
  - exact initial_holds_A.
  - exact initial_square_A.
  - exact initial_holds_B.
  - exact initial_square_B.
Defined.

(** C3 as stated fails: for the dimension 9 the dispatch still has group
    counts [(1, 1)], and [ceil(9 / 8)] is 2. *)
Lemma dispatch_group_count_not_ceil :
  dispatches (submitted (device (@multiplyMatrices ieee754 9 quiet (initial_state 9))))
  = [(1, 1)] /\
  dispatches (submitted (device (@multiplyMatrices ieee754 9 quiet (initial_state 9))))
  <> [(ceil_div 9 8, ceil_div 9 8)].
Proof.
  assert (E : dispatches (submitted (device (@multiplyMatrices ieee754 9 quiet
                                               (initial_state 9)))) = [(1, 1)])
    by (vm_compute; reflexivity).
  split; [exact E|]. rewrite E. vm_compute. discriminate.
Qed.

(** ** The host buffer codec *)

Section Codec.
Variable MATRIX_SIZE : N.
Variable env : Env.

(** C2, as the code has it.  [flatten] stores every number in a
    [Float32Array], so the round trip rounds every element to binary32:
    flattening a [MATRIX_SIZE] x [MATRIX_SIZE] matrix and cutting the flat
    data into rows again yields a new matrix of the same shape whose
    elements are the [fround] of the original ones, row by row in the same
    order; it equals the original exactly when every element is a binary32
    value. *)
Theorem codec_roundtrip_rounds st dev m vals :
  throws env 163 = None ->
  holds (objects st) m vals -> square MATRIX_SIZE vals ->
  exists r h',
    codec_roundtrip MATRIX_SIZE env m (mkWorld st dev)
    = (Return r, mkWorld (setObjects h' st) dev) /\
    holds h' r (map (map fround) vals) /\
    (Forall (Forall (fun v => fround v = v)) vals -> holds h' r vals).
Proof.
  intros Hq Hm Hsq.
  destruct (reconstruct_ok MATRIX_SIZE env (map F32.of_number (concat vals)) st dev Hq)
    as (h' & Hrun & Hread & _).
  exists (fresh (dom (objects st))), h'.
  assert (Hh : holds h' (fresh (dom (objects st))) (map (map fround) vals)).
  { unfold holds. rewrite Hread, rows_of_data_flatten by assumption.
    f_equal. rewrite map_map. apply map_ext. intros r. now rewrite map_map. }
  split; [|split].
  - unfold codec_roundtrip. rewrite bind_unfold, (lift_flatten _ _ _ _ Hm). exact Hrun.
  - exact Hh.
  - intros Hexact.
    assert (E : map (map fround) vals = vals); [|now rewrite E in Hh].
    clear -Hexact. induction Hexact as [|r vals Hr _ IH]; [reflexivity|].
    cbn. rewrite IH. f_equal.
    induction Hr as [|v r Hv _ IHr]; [reflexivity|]. cbn. now rewrite Hv, IHr.
Qed.

End Codec.

Lemma codec_roundtrip_rounds_witness :
  exists r h',
    codec_roundtrip 4 quiet (matrixB (initial_state 4))
      (mkWorld (initial_state 4) (mkDevice [] []))
    = (Return r, mkWorld (setObjects h' (initial_state 4)) (mkDevice [] [])) /\
    holds h' r (map (map fround) (initial_matrixB 4)) /\
    (Forall (Forall (fun v => fround v = v)) (initial_matrixB 4) ->
     holds h' r (initial_matrixB 4)).
Proof.
  apply (codec_roundtrip_rounds 4 quiet (initial_state 4) (mkDevice [] [])
           (matrixB (initial_state 4)) (initial_matrixB 4)).
  - reflexivity.
  - exact initial_holds_B.
  - exact initial_square_B.
Defined.

(** C2 as stated fails: the 1x1 matrix holding 0.1 comes back holding
    [fround(0.1)], a different number. *)
Lemma codec_roundtrip_not_exact :
  let st := state_with [[tenth]] [[tenth]] in
  holds (objects st) (matrixA st) [[tenth]] /\ square 1 [[tenth]] /\
  exists r w,
    codec_roundtrip 1 quiet (matrixA st) (mkWorld st (mkDevice [] [])) = (Return r, w) /\
    read_matrix (objects (react w)) r = Some [[Num (fround tenth)]] /\
    F64.eqb (fround tenth) tenth = false /\
    ~ holds (objects (react w)) r [[tenth]].
Proof.
  cbv zeta. split; [vm_compute; reflexivity|].
  split; [split; [reflexivity|repeat constructor]|].
  eexists _, _. split; [vm_compute; reflexivity|].
  split; [vm_compute; reflexivity|].
  split; [vm_compute; reflexivity|].
  unfold holds. vm_compute. discriminate.
Qed.

(** ** Determinism *)

Section Determinism.
Context {arith : F32Arith}.
Variable MATRIX_SIZE : N.
Variables env env' : Env.
Hypothesis Hsize : MATRIX_SIZE * MATRIX_SIZE <= u32_modulus.
Hypothesis Honce : runs_each_once env.
Hypothesis Honce' : runs_each_once env'.
Hypothesis Hsame : same_failures env env'.









End Determinism.

Lemma backwards_runs_each_once : runs_each_once backwards.
Proof. intros ids. cbn. symmetry. apply Permutation_rev. Defined.


(** ** [updateMatrix] *)

Section UpdateMatrixClaims.
Variable parseFloat : string -> number.

(** C10.  An edit of cell [(row, col)] of the matrix at [matrix] allocates
    a new outer array and a new array for the edited row, sets the cell of
    the new row to 0 when the text parses to NaN and to the parsed number
    otherwise, and hands the new matrix to [setMatrix].  The new matrix has
    the old elements everywhere else, shares the other rows with the old
    one, and no array that existed before is changed. *)
Theorem updateMatrix_sets_cell st matrix setMatrix row col value vals r :
  holds (objects st) matrix vals ->
  vals !! row = Some r -> (col < length r)%nat ->
  let num := parseFloat value in
  let v := if F64.isNaN num then F64.of_Z 0 else num in
  exists newMatrix newRow h' rs,
    updateMatrix parseFloat matrix setMatrix row col value st
    = (Return tt, setMatrix newMatrix (setObjects h' st)) /\
    holds h' newMatrix (<[row := <[col := v]> r]> vals) /\
    objects st !! matrix = Some (Rows rs) /\
    h' !! newMatrix = Some (Rows (<[row := newRow]> rs)) /\
    objects st !! newMatrix = None /\ objects st !! newRow = None /\
    forall l a, objects st !! l = Some a -> h' !! l = Some a.
Proof.
  intros Hholds Hrow Hcol num v.
  apply read_matrix_Some in Hholds as (rs & Hm & Hrs).
  assert (Hrl : exists rl, rs !! row = Some rl /\
                           objects st !! rl = Some (Cells (map Num r))).
  { assert (Hr : map (map Num) vals !! row = Some (map Num r)).
    { change (map ?f ?l) with (f <$> l). now rewrite list_lookup_fmap, Hrow. }
    destruct (Forall2_lookup_r _ _ _ _ _ Hrs Hr) as (rl & ? & ?). eauto. }
  destruct Hrl as (rl & Hrl & Hcells).
  set (h := objects st) in *.
  set (newMatrix := fresh (dom h)).
  set (h1 := <[newMatrix := Rows rs]> h).
  set (newRow := fresh (dom h1)).
  set (h2 := <[newRow := Cells (spread (map Num r))]> h1).
  set (h3 := <[newMatrix := Rows (<[row := newRow]> rs)]> h2).
  set (h4 := <[newRow := Cells (array_set (spread (map Num r)) col (Num v))]> h3).
  assert (Hfresh1 : h !! newMatrix = None) by apply fresh_lookup.
  assert (Hfresh2 : h1 !! newRow = None) by apply fresh_lookup.
  assert (Hne : newRow <> newMatrix).
  { intros E. rewrite E in Hfresh2. unfold h1 in Hfresh2.
    now rewrite lookup_insert_eq in Hfresh2. }
  assert (Hfresh2' : h !! newRow = None).
  { unfold h1 in Hfresh2. now rewrite lookup_insert_ne in Hfresh2 by auto. }
  assert (Hold : forall l a, h !! l = Some a -> h4 !! l = Some a).
  { intros l a Hl. unfold h4, h3, h2, h1.
    rewrite !lookup_insert_ne; [exact Hl|congruence..]. }
  assert (Hrow_lt : (row < length rs)%nat) by (eapply lookup_lt_Some; eauto).
  assert (Hspread : spread (map Num r) = map Num r).
  { unfold spread. rewrite map_map. reflexivity. }
  assert (Hset : array_set (map Num r) col (Num v) = map Num (<[col := v]> r)).
  { unfold array_set. rewrite length_map. destruct (decide _); [|lia].
    change (map Num ?l) with (Num <$> l). now rewrite list_fmap_insert. }
  exists newMatrix, newRow, h4, rs.
  split; [|split; [|split; [|split; [|split; [|split]]]]]; try assumption.
  - unfold updateMatrix. rewrite bind_unfold. unfold rows_of at 1. fold h. rewrite Hm.
    rewrite bind_unfold. unfold alloc at 1. fold h. fold newMatrix. fold h1.
    rewrite Hrl. rewrite bind_unfold. unfold cells_of at 1. cbn [objects setObjects].
    unfold h1 at 1. rewrite lookup_insert_ne by congruence. fold h. rewrite Hcells.
    rewrite bind_unfold. unfold alloc at 1. cbn [objects setObjects].
    fold newRow. fold h2.
    rewrite bind_unfold. unfold store_row. rewrite bind_unfold.
    unfold rows_of at 1. cbn [objects setObjects].
    unfold h2 at 1. rewrite lookup_insert_ne by auto.
    unfold h1 at 1. rewrite lookup_insert_eq.
    unfold modify at 1. cbn [objects setObjects]. fold h3.
    rewrite bind_unfold. unfold rows_of at 1. cbn [objects setObjects].
    unfold h3 at 1. rewrite lookup_insert_eq.
    rewrite list_lookup_insert_eq by assumption.
    rewrite bind_unfold. unfold store_cell. rewrite bind_unfold.
    unfold cells_of at 1. cbn [objects setObjects].
    unfold h3 at 1. rewrite lookup_insert_ne by auto.
    unfold h2 at 1. rewrite lookup_insert_eq.
    unfold modify. cbn [objects setObjects]. fold h4. reflexivity.
  - apply read_matrix_Some. exists (<[row := newRow]> rs). split.
    + unfold h4, h3. rewrite lookup_insert_ne by auto. apply lookup_insert_eq.
    + change (map (map Num) ?l) with (map Num <$> l).
      rewrite list_fmap_insert. apply Forall2_insert.
      * eapply Forall2_impl; [exact Hrs|]. intros l cs Hl. now apply Hold.
      * unfold h4. rewrite lookup_insert_eq, Hspread, Hset. reflexivity.
  - unfold h4, h3. rewrite lookup_insert_ne by auto. apply lookup_insert_eq.
Qed.

End UpdateMatrixClaims.

(** ** IEEE 754 facts: rounding gives canonical values, one is neutral *)

Section Rounding.
Local Open Scope Z_scope.
Variables prec emax : Z.
Hypothesis Hprec : 0 < prec.

Lemma digits2_size p : digits2_pos p = Pos.size p.
Proof. induction p; cbn; congruence. Qed.

Lemma Zdigits2_log2 m : 0 < m -> Zdigits2 m = Z.log2 m + 1.
Proof.
  destruct m as [|p|p]; try lia. intros _.
  destruct p as [p|p|]; cbn; rewrite ?digits2_size; lia.
Qed.

Lemma Zdigits2_nonneg m : 0 <= Zdigits2 m.
Proof. destruct m; cbn; lia. Qed.

Lemma Zdigits2_mono m m' : 0 <= m <= m' -> Zdigits2 m <= Zdigits2 m'.
Proof.
  intros [H0 H]. destruct (Z.eq_dec m 0) as [->|Hm].
  - apply Zdigits2_nonneg.
  - rewrite !Zdigits2_log2 by lia. pose proof (Z.log2_le_mono m m' H). lia.
Qed.

(** One shift to the right drops one digit. *)
Lemma shr_1_digits mrs :
  0 <= shr_m mrs ->
  0 <= shr_m (shr_1 mrs) /\
  Zdigits2 (shr_m (shr_1 mrs)) = Z.max 0 (Zdigits2 (shr_m mrs) - 1).
Proof.
  destruct mrs as [m r s]. cbn [shr_m]. intros H.
  destruct m as [|[p|p|]|p]; cbn [shr_1 shr_m Zdigits2 digits2_pos]; split; lia.
Qed.

Lemma shr_digits p : forall mrs,
  0 <= shr_m mrs ->
  0 <= shr_m (SpecFloat.iter_pos shr_1 p mrs) /\
  Zdigits2 (shr_m (SpecFloat.iter_pos shr_1 p mrs)) = Z.max 0 (Zdigits2 (shr_m mrs) - Zpos p).
Proof.
  induction p as [p IH|p IH|]; intros mrs H; cbn [SpecFloat.iter_pos].
  - destruct (shr_1_digits _ H) as [H1 E1].
    destruct (IH _ H1) as [H2 E2]. destruct (IH _ H2) as [H3 E3].
    split; [assumption|]. rewrite E3, E2, E1. lia.
  - destruct (IH _ H) as [H2 E2]. destruct (IH _ H2) as [H3 E3].
    split; [assumption|]. rewrite E3, E2. lia.
  - apply shr_1_digits, H.
Qed.

(** Truncation to the format's exponent leaves a canonical mantissa, or
    zero at the least exponent. *)
Lemma shr_fexp_canonical m e l :
  0 <= m -> e <= fexp prec emax (Zdigits2 m + e) ->
  let '(mrs, e') := shr_fexp prec emax m e l in
  0 <= shr_m mrs /\ fexp prec emax (Zdigits2 (shr_m mrs) + e') = e'.
Proof.
  intros Hm He. unfold shr_fexp, shr.
  assert (Hrec : shr_m (shr_record_of_loc m l) = m).
  { destruct l as [|[]]; reflexivity. }
  destruct (fexp prec emax (Zdigits2 m + e) - e) as [|p|p] eqn:En.
  - rewrite Hrec. split; [assumption|lia].
  - destruct (shr_digits p (shr_record_of_loc m l)) as [H0 E];
      [rewrite Hrec; assumption|].
    split; [assumption|]. rewrite E, Hrec.
    unfold fexp in *. unfold emin in *. lia.
  - lia.
Qed.

Lemma shl_align_canonical m e :
  let '(mz, ez) := shl_align m e (fexp prec emax (Zpos (digits2_pos m) + e)) in
  ez <= fexp prec emax (Zdigits2 (Zpos mz) + ez).
Proof.
  unfold shl_align.
  destruct (fexp prec emax (Zpos (digits2_pos m) + e) - e) as [|p|p] eqn:En;
    cbn [Zdigits2]; try lia.
  assert (Hd : Zpos (digits2_pos (Pos.iter xO m p)) = Zpos (digits2_pos m) + Zpos p).
  { clear. induction p using Pos.peano_ind.
    - cbn. lia.
    - rewrite Pos.iter_succ. cbn [digits2_pos]. lia. }
  rewrite Hd.
  replace (Zpos (digits2_pos m) + Zpos p + fexp prec emax (Zpos (digits2_pos m) + e))
    with (Zpos (digits2_pos m) + e) by lia.
  lia.
Qed.

Lemma round_nearest_even_bounds m l :
  0 <= m -> m <= round_nearest_even m l <= m + 1.
Proof.
  intros H. unfold round_nearest_even.
  destruct l as [|[]]; try lia. destruct (Z.even m); lia.
Qed.

Lemma fexp_mono a b : a <= b -> fexp prec emax a <= fexp prec emax b.
Proof. unfold fexp. lia. Qed.

Lemma binary_round_aux_rounded s m e l :
  0 <= m -> e <= fexp prec emax (Zdigits2 m + e) ->
  rounded prec emax (binary_round_aux prec emax s m e l).
Proof.
  intros Hm He. unfold binary_round_aux.
  pose proof (shr_fexp_canonical m e l Hm He) as H1.
  destruct (shr_fexp prec emax m e l) as [mrs' e'].
  destruct H1 as [H1 E1].
  pose proof (round_nearest_even_bounds (shr_m mrs') (loc_of_shr_record mrs') H1) as Hr.
  set (m2 := round_nearest_even (shr_m mrs') (loc_of_shr_record mrs')) in *.
  assert (H2 : e' <= fexp prec emax (Zdigits2 m2 + e')).
  { rewrite <- E1 at 1. apply fexp_mono.
    pose proof (Zdigits2_mono (shr_m mrs') m2). lia. }
  pose proof (shr_fexp_canonical m2 e' loc_Exact ltac:(lia) H2) as H3.
  destruct (shr_fexp prec emax m2 e' loc_Exact) as [mrs'' e''].
  destruct H3 as [H3 E3].
  destruct (shr_m mrs'') as [|p|p] eqn:Em; [constructor| |lia].
  destruct (e'' <=? emax - prec) eqn:Ee; [|constructor].
  constructor. unfold bounded, canonical_mantissa. rewrite Ee.
  cbn [Zdigits2] in E3. rewrite E3, Z.eqb_refl. reflexivity.
Qed.

(** Rounding a finite value gives a zero, an infinity or a canonical finite
    value of the format, never NaN. *)
Lemma binary_round_rounded s m e : rounded prec emax (binary_round prec emax s m e).
Proof.
  unfold binary_round.
  pose proof (shl_align_canonical m e) as H.
  destruct (shl_align m e _) as [mz ez].
  apply binary_round_aux_rounded; [lia|exact H].
Qed.

Lemma SFeqb_rounded v : rounded prec emax v -> SFeqb v v = true.
Proof.
  intros [[]|[]|[] m e _]; try reflexivity; unfold SFeqb, SFcompare;
    now rewrite Z.compare_refl, Pos.compare_cont_refl.
Qed.

End Rounding.


Section BinarySingle.
Local Open Scope Z_scope.

Lemma of_number_finite v :
  F32.is_finite (F32.of_number v) = true -> rounded 24 128 (F32.of_number v).
Proof.
  destruct v as [s|s| |s m e]; cbn [F32.of_number F32.is_finite];
    try discriminate; intros _; [constructor|].
  apply binary_round_rounded. reflexivity.
Qed.

Lemma to_number_finite v :
  F32.is_finite v = true -> rounded 53 1024 (F32.to_number v).
Proof.
  destruct v as [s|s| |s m e]; cbn [F32.to_number F32.is_finite];
    try discriminate; intros _; [constructor|].
  apply binary_round_rounded. reflexivity.
Qed.

Lemma bounded_inv m e :
  bounded 24 128 m e = true ->
  fexp 24 128 (Zpos (digits2_pos m) + e) = e /\ e <= 104.
Proof.
  unfold bounded, canonical_mantissa. intros H.
  apply andb_prop in H as [H1 H2]. apply Z.eqb_eq in H1. apply Z.leb_le in H2.
  split; [exact H1|exact H2].
Qed.

(** The product of a canonical mantissa with [2^23], at the exponent lowered
    by 23, rounds back to the value it came from. *)
Lemma round_shifted s m e :
  bounded 24 128 m e = true ->
  binary_round_aux 24 128 s (Zpos (8388608 * m)) (-23 + e) loc_Exact
  = S754_finite s m e.
Proof.
  intros H. destruct (bounded_inv m e H) as [Hc He].
  unfold binary_round_aux, shr_fexp at 1.
  change (8388608 * m)%positive
    with (m~0~0~0~0~0~0~0~0~0~0~0~0~0~0~0~0~0~0~0~0~0~0~0)%positive.
  cbn [Zdigits2 digits2_pos shr_record_of_loc].
  match goal with
  | |- context [fexp 24 128 (?d + (-23 + e))] =>
      replace (d + (-23 + e)) with (Zpos (digits2_pos m) + e) by lia
  end.
  rewrite Hc. replace (e - (-23 + e)) with 23 by lia.
  cbn [shr SpecFloat.iter_pos shr_1 orb shr_m loc_of_shr_record round_nearest_even].
  replace (-23 + e + 23) with e by lia.
  unfold shr_fexp. cbn [Zdigits2 shr_record_of_loc].
  rewrite Hc, Z.sub_diag. cbn [shr shr_m].
  apply Z.leb_le in He. change (128 - 24) with 104. now rewrite He.
Qed.

Lemma mul_one_l v :
  rounded 24 128 v -> F32.is_finite v = true ->
  SFmul F32.prec F32.emax F32.one v = v.
Proof.
  intros [s|s|s m e Hb] Hf; try discriminate.
  - now destruct s.
  - cbn [SFmul F32.one xorb]. now apply round_shifted.
Qed.

Lemma mul_one_r v :
  rounded 24 128 v -> F32.is_finite v = true ->
  SFmul F32.prec F32.emax v F32.one = v.
Proof.
  intros [s|s|s m e Hb] Hf; try discriminate.
  - now destruct s.
  - cbn [SFmul F32.one]. rewrite xorb_false_r, Pos.mul_comm, Z.add_comm.
    now apply round_shifted.
Qed.

Lemma mul_zero_l v :
  F32.is_finite v = true -> exists s, SFmul F32.prec F32.emax F32.zero v = S754_zero s.
Proof. destruct v; try discriminate; intros _; cbn; eauto. Qed.

Lemma mul_zero_r v :
  F32.is_finite v = true -> exists s, SFmul F32.prec F32.emax v F32.zero = S754_zero s.
Proof. destruct v; try discriminate; intros _; cbn; eauto. Qed.

Lemma add_zero_l v :
  F32.is_finite v = true -> SFadd F32.prec F32.emax F32.zero v = F32.unsigned_zero v.
Proof. destruct v as [[]| | |]; try discriminate; reflexivity. Qed.

Lemma add_zero_r v s :
  F32.is_finite v = true ->
  SFadd F32.prec F32.emax (F32.unsigned_zero v) (S754_zero s) = F32.unsigned_zero v.
Proof. destruct v as [[]| | |], s; try discriminate; reflexivity. Qed.

(** A sum all of whose terms are zeros but one is that term, up to the sign
    of zero. *)
Lemma fold_zero_terms (t : nat -> f32) (l : list nat) v :
  F32.is_finite v = true ->
  (forall i, In i l -> exists s, t i = S754_zero s) ->
  fold_left (fun sum i => SFadd F32.prec F32.emax sum (t i)) l (F32.unsigned_zero v)
  = F32.unsigned_zero v.
Proof.
  intros Hv. induction l as [|i l IH]; intros Hl; [reflexivity|].
  cbn [fold_left]. destruct (Hl i) as [s ->]; [now left|].
  rewrite add_zero_r by assumption. apply IH. intros j Hj. apply Hl. now right.
Qed.

Lemma fold_single_term (t : nat -> f32) (n row : nat) v :
  (row < n)%nat -> t row = v -> F32.is_finite v = true ->
  (forall i, (i < n)%nat -> i <> row -> exists s, t i = S754_zero s) ->
  fold_left (fun sum i => SFadd F32.prec F32.emax sum (t i)) (seq 0 n) F32.zero
  = F32.unsigned_zero v.
Proof.
  intros Hrow Ht Hv Hz.
  replace n with (row + S (n - S row))%nat by lia.
  rewrite seq_app, fold_left_app. cbn [seq fold_left Nat.add].
  change F32.zero with (F32.unsigned_zero F32.zero) at 1.
  rewrite fold_zero_terms; [|reflexivity|].
  - cbn [F32.unsigned_zero]. rewrite Ht, add_zero_l by assumption.
    apply fold_zero_terms; [assumption|].
    intros i Hi. apply in_seq in Hi. apply Hz; lia.
  - intros i Hi. apply in_seq in Hi. apply Hz; lia.
Qed.

End BinarySingle.

(** ** The identity law *)

Section Identity.
Variable MATRIX_SIZE : N.
Variable env : Env.
Variable st : State.

Local Abbreviation n := (N.to_nat MATRIX_SIZE).
Local Abbreviation identity := (initial_matrixA MATRIX_SIZE).

Lemma cell_Some {A} (m : list (list A)) row col v :
  cell m row col = Some v <-> exists r, m !! row = Some r /\ r !! col = Some v.
Proof.
  unfold cell. destruct (m !! row) as [r|]; cbn.
  - split; [eauto|]. now intros (r' & [= <-] & H).
  - split; [discriminate|]. now intros (r' & [=] & _).
Qed.

Lemma entry_cell (m : list (list number)) row col v :
  cell m row col = Some v ->
  entry (map (map F32.of_number) m) row col = F32.of_number v.
Proof.
  intros (r & Hr & Hv)%cell_Some. unfold entry.
  change (map ?f ?l) with (f <$> l).
  rewrite (nth_lookup_Some _ _ _ (F32.of_number <$> r))
    by now rewrite list_lookup_fmap, Hr.
  apply nth_lookup_Some. now rewrite list_lookup_fmap, Hv.
Qed.

Lemma cell_square (m : list (list number)) row col :
  square MATRIX_SIZE m -> (row < n)%nat -> (col < n)%nat ->
  exists v, cell m row col = Some v.
Proof.
  intros [Hlen Hrows] Hrow Hcol.
  destruct (lookup_lt_is_Some_2 m row) as [r Hr]; [lia|].
  assert (Hr' : length r = n).
  { eapply Forall_lookup_1 in Hr; [|exact Hrows]. exact Hr. }
  destruct (lookup_lt_is_Some_2 r col) as [v Hv]; [lia|].
  exists v. apply cell_Some. eauto.
Qed.

Lemma cell_in_square (m : list (list number)) row col v :
  square MATRIX_SIZE m -> cell m row col = Some v -> (row < n)%nat /\ (col < n)%nat.
Proof.
  intros [Hlen Hrows] (r & Hr & Hv)%cell_Some.
  assert (Hr' : length r = n).
  { eapply Forall_lookup_1 in Hr; [|exact Hrows]. exact Hr. }
  apply lookup_lt_Some in Hr, Hv. lia.
Qed.

Lemma cell_in_range (m : list (list number)) row col v :
  Forall (Forall in_f32_range) m -> cell m row col = Some v -> in_f32_range v.
Proof.
  intros H (r & Hr & Hv)%cell_Some.
  eapply Forall_lookup_1 in Hr; [|exact H].
  eapply Forall_lookup_1 in Hv; [|exact Hr]. exact Hv.
Qed.

Lemma cell_identity row col :
  (row < n)%nat -> (col < n)%nat ->
  cell identity row col
  = Some (if decide (row = col) then F64.of_Z 1 else F64.of_Z 0).
Proof.
  intros Hrow Hcol. apply cell_Some.
  unfold initial_matrixA, createDefaultMatrix.
  eexists. split.
  - rewrite list_lookup_imap, lookup_replicate_2 by assumption. reflexivity.
  - rewrite list_lookup_imap, lookup_replicate_2 by assumption. reflexivity.
Qed.

Lemma square_identity : square MATRIX_SIZE identity.
Proof.
  unfold initial_matrixA, createDefaultMatrix. split.
  - now rewrite length_imap, length_replicate.
  - apply Forall_lookup_2. intros i r Hr.
    rewrite list_lookup_imap in Hr.
    destruct (replicate n _ !! i) as [r0|] eqn:E; [|discriminate].
    apply lookup_replicate in E as [-> _]. injection Hr as <-.
    now rewrite length_imap, length_replicate.
Qed.

Lemma entry_identity row col :
  (row < n)%nat -> (col < n)%nat ->
  entry (map (map F32.of_number) identity) row col
  = if decide (row = col) then F32.one else F32.zero.
Proof.
  intros Hrow Hcol. rewrite (entry_cell _ _ _ _ (cell_identity row col Hrow Hcol)).
  now destruct (decide _).
Qed.

(** In IEEE arithmetic, row [row] of the identity times column [col] of a
    matrix in the binary32 range is that matrix's cell, and so is the
    matrix's row times the identity's column. *)
Lemma dot_product_identity_l b row col v :
  square MATRIX_SIZE b -> Forall (Forall in_f32_range) b ->
  cell b row col = Some v ->
  @dot_product ieee754 MATRIX_SIZE
    (map (map F32.of_number) identity) (map (map F32.of_number) b) row col
  = F32.unsigned_zero (F32.of_number v).
Proof.
  intros Hsq Hfin Hv.
  destruct (cell_in_square _ _ _ _ Hsq Hv) as [Hrow Hcol].
  unfold dot_product. cbn [f32_add f32_mul ieee754].
  apply (fold_single_term
           (fun i => SFmul F32.prec F32.emax
                       (entry (map (map F32.of_number) identity) row i)
                       (entry (map (map F32.of_number) b) i col)) n row).
  - assumption.
  - rewrite entry_identity by assumption. destruct (decide _); [|congruence].
    rewrite (entry_cell _ _ _ _ Hv).
    pose proof (cell_in_range _ _ _ _ Hfin Hv) as Hr.
    apply mul_one_l; [now apply of_number_finite|exact Hr].
  - exact (cell_in_range _ _ _ _ Hfin Hv).
  - intros i Hi Hne. rewrite entry_identity by assumption.
    destruct (decide _); [congruence|].
    destruct (cell_square b i col Hsq Hi Hcol) as [vi Hvi].
    rewrite (entry_cell _ _ _ _ Hvi). apply mul_zero_l.
    exact (cell_in_range _ _ _ _ Hfin Hvi).
Qed.

Lemma dot_product_identity_r a row col v :
  square MATRIX_SIZE a -> Forall (Forall in_f32_range) a ->
  cell a row col = Some v ->
  @dot_product ieee754 MATRIX_SIZE
    (map (map F32.of_number) a) (map (map F32.of_number) identity) row col
  = F32.unsigned_zero (F32.of_number v).
Proof.
  intros Hsq Hfin Hv.
  destruct (cell_in_square _ _ _ _ Hsq Hv) as [Hrow Hcol].
  unfold dot_product. cbn [f32_add f32_mul ieee754].
  replace n with (col + S (n - S col))%nat by lia.
  rewrite seq_app, fold_left_app. cbn [seq fold_left Nat.add].
  replace (col + S (n - S col))%nat with n by lia.
  change F32.zero with (F32.unsigned_zero F32.zero) at 1.
  assert (Hz : forall i, (i < n)%nat -> i <> col ->
            exists s, SFmul F32.prec F32.emax
                        (entry (map (map F32.of_number) a) row i)
                        (entry (map (map F32.of_number) identity) i col)
                      = S754_zero s).
  { intros i Hi Hne. rewrite entry_identity by assumption.
    destruct (decide _); [congruence|].
    destruct (cell_square a row i Hsq Hrow Hi) as [vi Hvi].
    rewrite (entry_cell _ _ _ _ Hvi). apply mul_zero_r.
    exact (cell_in_range _ _ _ _ Hfin Hvi). }
  rewrite (fold_zero_terms
             (fun i => SFmul F32.prec F32.emax
                         (entry (map (map F32.of_number) a) row i)
                         (entry (map (map F32.of_number) identity) i col)));
    [|reflexivity|intros i Hi; apply in_seq in Hi; apply Hz; lia].
  cbn [F32.unsigned_zero].
  rewrite entry_identity by assumption. destruct (decide _); [|congruence].
  rewrite (entry_cell _ _ _ _ Hv).
  pose proof (cell_in_range _ _ _ _ Hfin Hv) as Hr.
  rewrite mul_one_r; [|now apply of_number_finite|exact Hr].
  rewrite add_zero_l by exact Hr.
  apply (fold_zero_terms
           (fun i => SFmul F32.prec F32.emax
                       (entry (map (map F32.of_number) a) row i)
                       (entry (map (map F32.of_number) identity) i col)));
    [exact Hr|intros i Hi; apply in_seq in Hi; apply Hz; lia].
Qed.

(** What is read back for a cell equals, as a number, the cell rounded to
    binary32. *)
Lemma read_back_eqb v :
  in_f32_range v ->
  F64.eqb (F32.to_number (F32.unsigned_zero (F32.of_number v))) (fround v) = true.
Proof.
  unfold in_f32_range, fround. intros Hv.
  destruct (F32.of_number v) as [[]| | |s m e] eqn:E; try discriminate;
    try reflexivity.
  cbn [F32.unsigned_zero]. apply (SFeqb_rounded 53 1024).
  now apply to_number_finite.
Qed.

End Identity.

Section IdentityLaw.
Variable MATRIX_SIZE : N.
Variable env : Env.

(** X18.  The identity law of the shader.  With IEEE arithmetic, for a
    dimension up to 8 and a matrix [b] whose numbers stay finite when they
    are rounded to binary32: what the invocations of the dispatched
    workgroup leave in the output buffer for the identity and [b], in
    either order, cut into rows, has in cell [(row, col)] the cell of [b]
    rounded to binary32 (a negative zero as positive zero); it is [==] to
    [fround] of [b]'s cell, and so to [b]'s cell itself when that is a
    binary32 value.  This is about the shader's code as a function of its
    buffers: the page never gets it to run. *)
Theorem kernel_identity b rows row col v :
  MATRIX_SIZE <= 8 -> runs_each_once env ->
  square MATRIX_SIZE b -> Forall (Forall in_f32_range) b ->
  rows = rows_of_data MATRIX_SIZE
           (@kernel_output ieee754 MATRIX_SIZE env (initial_matrixA MATRIX_SIZE) b) \/
  rows = rows_of_data MATRIX_SIZE
           (@kernel_output ieee754 MATRIX_SIZE env b (initial_matrixA MATRIX_SIZE)) ->
  cell b row col = Some v ->
  exists x,
    cell rows row col = Some (Num x) /\
    x = F32.to_number (F32.unsigned_zero (F32.of_number v)) /\
    F64.eqb x (fround v) = true /\
    (fround v = v -> F64.eqb x v = true).
Proof.
  intros Hn Hs Hsq Hfin Hrows Hv.
  pose proof (square_identity MATRIX_SIZE) as Hid.
  destruct (cell_in_square _ _ _ _ _ Hsq Hv) as [Hrow Hcol].
  assert (Hcell : cell rows row col
                  = Some (Num (F32.to_number (F32.unsigned_zero (F32.of_number v))))).
  { destruct Hrows as [-> | ->].
    - destruct (@kernel_cells ieee754 MATRIX_SIZE env (initial_matrixA MATRIX_SIZE) b Hn Hs)
        as (_ & _ & Hcell).
      rewrite (Hcell row col Hrow Hcol).
      rewrite accumulate_dot_product; try assumption; [|unfold u32_modulus; nia].
      now rewrite (dot_product_identity_l MATRIX_SIZE b row col v).
    - destruct (@kernel_cells ieee754 MATRIX_SIZE env b (initial_matrixA MATRIX_SIZE) Hn Hs)
        as (_ & _ & Hcell).
      rewrite (Hcell row col Hrow Hcol).
      rewrite accumulate_dot_product; try assumption; [|unfold u32_modulus; nia].
      now rewrite (dot_product_identity_r MATRIX_SIZE b row col v). }
  eexists. split; [exact Hcell|]. split; [reflexivity|].
  pose proof (read_back_eqb v (cell_in_range _ _ _ _ Hfin Hv)) as E.
  split; [exact E|]. intros Hexact. now rewrite Hexact in E.
Qed.

End IdentityLaw.

Lemma in_f32_range_check (m : list (list number)) :
  forallb (forallb (fun v => F32.is_finite (F32.of_number v))) m = true ->
  Forall (Forall in_f32_range) m.
Proof.
  intros H. apply Forall_forall. intros r Hr. apply Forall_forall. intros v Hv.
  rewrite forallb_forall in H. apply list_elem_of_In in Hr, Hv.
  specialize (H r Hr). rewrite forallb_forall in H. exact (H v Hv).
Qed.

Lemma kernel_identity_witness :
  exists x,
    cell (rows_of_data 4
            (@kernel_output ieee754 4 backwards (initial_matrixB 4) (initial_matrixA 4)))
      2 3 = Some (Num x) /\
    x = F32.to_number (F32.unsigned_zero (F32.of_number (F64.of_Z 12))) /\
    F64.eqb x (fround (F64.of_Z 12)) = true /\
    (fround (F64.of_Z 12) = F64.of_Z 12 -> F64.eqb x (F64.of_Z 12) = true).
Proof.
  apply (kernel_identity 4 backwards (initial_matrixB 4) _ 2 3 (F64.of_Z 12)).
  - lia.
  - exact backwards_runs_each_once.
  - exact initial_square_B.
  - apply in_f32_range_check. vm_compute. reflexivity.
  - right. reflexivity.
  - vm_compute. reflexivity.
Defined.

(** Without the bound on the numbers the law fails: 1e39 in the first cell
    of [b] becomes an infinity in the [Float32Array]; the shader's product of
    the identity and [b] then has an infinity in cell (0, 0) and, from
    [0 * infinity], NaN in cell (1, 0), where [b] has 5. *)
Example kernel_identity_overflow :
  let rows := rows_of_data 4 (@kernel_output ieee754 4 quiet (initial_matrixA 4) huge_matrix) in
  cell huge_matrix 0 0 = Some huge /\
  cell rows 0 0 = Some (Num (S754_infinity false)) /\
  cell huge_matrix 1 0 = Some (F64.of_Z 5) /\
  cell rows 1 0 = Some (Num S754_nan).
Proof. repeat split; vm_compute; reflexivity. Qed.

Lemma updateMatrix_sets_cell_witness :
  let st := initial_state 4 in
  let num := parseFloat_digits "42" in
  let v := if F64.isNaN num then F64.of_Z 0 else num in
  exists newMatrix newRow h' rs,
    updateMatrix parseFloat_digits (matrixB st) setMatrixB 1 2 "42" st
    = (Return tt, setMatrixB newMatrix (setObjects h' st)) /\
    holds h' newMatrix
      (<[1%nat := <[2%nat := v]> (map F64.of_Z [5; 6; 7; 8]%Z)]> (initial_matrixB 4)) /\
    objects st !! matrixB st = Some (Rows rs) /\
    h' !! newMatrix = Some (Rows (<[1%nat := newRow]> rs)) /\
    objects st !! newMatrix = None /\ objects st !! newRow = None /\
    forall l a, objects st !! l = Some a -> h' !! l = Some a.
Proof.
  apply (updateMatrix_sets_cell parseFloat_digits (initial_state 4)
           (matrixB (initial_state 4)) setMatrixB 1 2 "42"
           (initial_matrixB 4) (map F64.of_Z [5; 6; 7; 8]%Z)).
  - exact initial_holds_B.
  - vm_compute. reflexivity.
  - vm_compute. lia.
Defined.

(** An edit with a text that is no number puts 0 in the cell. *)
Example updateMatrix_empty_text :
  let st := initial_state 4 in
  exists st',
    updateMatrix parseFloat_digits (matrixB st) setMatrixB 1 2 "" st = (Return tt, st') /\
    (read_matrix (objects st') (matrixB st') ≫= fun rows => cell rows 1 2)
    = Some (Num (F64.of_Z 0)) /\
    read_matrix (objects st') (matrixB st)
    = Some (map (map Num) (initial_matrixB 4)).
Proof.
  eexists. split; [vm_compute; reflexivity|].
  split; vm_compute; reflexivity.
Qed.

(** An edit outside the rows throws before anything is set; an edit beyond
    the end of a row grows the row with empty slots, which [flat] skips. *)
Example updateMatrix_out_of_range :
  let st := initial_state 4 in
  fst (updateMatrix parseFloat_digits (matrixB st) setMatrixB 7 0 "1" st)
  = Throw TypeError /\
  exists st',
    updateMatrix parseFloat_digits (matrixB st) setMatrixB 0 6 "1" st = (Return tt, st') /\
    (read_matrix (objects st') (matrixB st') ≫= fun rows => rows !! 0%nat)
    = Some (map Num (map F64.of_Z [1; 2; 3; 4]%Z) ++ [Hole; Hole; Num (F64.of_Z 1)]).
Proof. split; [vm_compute; reflexivity|]. eexists. split; vm_compute; reflexivity. Qed.

(** ** The run on the page's own matrices *)

(** C1.  The page does not compute the product.  [matrixOut] is declared
    [var<storage, write>], an access mode WGSL does not allow on a storage
    buffer, so the module does not compile, the pipeline on it is invalid,
    and the compute pass is refused without an exception; [resultBuffer]
    keeps the zeros it was created with.  In the state the page starts in
    (the identity in [matrixA], the numbers 1 to 16 in [matrixB]) a run in
    which nothing throws sets no error and sets the result to the 4x4
    matrix of zeros, where the product, matrix B, has 1 in cell (0, 0). *)
Theorem multiply_shows_zeros :
  let st' := react (@multiplyMatrices ieee754 4 quiet (initial_state 4)) in
  WGSL.compiles = false /\
  error st' = None /\ loading st' = false /\
  (resultMatrix st' ≫= read_matrix (objects st'))
  = Some (replicate 4 (replicate 4 (Num (F64.of_Z 0)))) /\
  F32.to_number
    (@dot_product ieee754 4
       (map (map F32.of_number) (initial_matrixA 4))
       (map (map F32.of_number) (initial_matrixB 4)) 0 0)
  = F64.of_Z 1 /\
  F64.eqb (F64.of_Z 0) (F64.of_Z 1) = false.
Proof. repeat split; vm_compute; reflexivity. Qed.

(** C7.  The identity law fails on the page, for the same reason: with the
    identity on the left and the numbers 1 to 16 on the right, and with the
    two the other way round, a run in which nothing throws sets the result
    to the matrix of zeros and not to the matrix of the numbers 1 to 16;
    cell (0, 0) is 0, at distance 1 from the 1 it should be. *)
Theorem identity_law_fails :
  let b := map (map F64.of_Z) one_to_sixteen in
  let identity := initial_matrixA 4 in
  let left := react (@multiplyMatrices ieee754 4 quiet (state_with identity b)) in
  let right := react (@multiplyMatrices ieee754 4 quiet (state_with b identity)) in
  holds (objects (state_with identity b)) (matrixA (state_with identity b)) identity /\
  holds (objects (state_with identity b)) (matrixB (state_with identity b)) b /\
  holds (objects (state_with b identity)) (matrixA (state_with b identity)) b /\
  holds (objects (state_with b identity)) (matrixB (state_with b identity)) identity /\
  error left = None /\ error right = None /\
  (resultMatrix left ≫= read_matrix (objects left))
  = Some (replicate 4 (replicate 4 (Num (F64.of_Z 0)))) /\
  (resultMatrix right ≫= read_matrix (objects right))
  = Some (replicate 4 (replicate 4 (Num (F64.of_Z 0)))) /\
  cell b 0 0 = Some (F64.of_Z 1) /\
  F64.abs (F64.sub (F64.of_Z 0) (F64.of_Z 1)) = F64.of_Z 1.
Proof. repeat split; vm_compute; reflexivity. Qed.

(** What the shader itself computes on the page's first matrices, IEEE
    arithmetic taken: for the identity and the numbers 1 to 16, the numbers
    1 to 16; and for the square of that matrix, small integers, exactly. *)
Example initial_product :
  initial_matrixB 4 = map (map F64.of_Z) one_to_sixteen /\
  rows_of_data 4 (@kernel_output ieee754 4 quiet (initial_matrixA 4) (initial_matrixB 4))
  = map (map Num) (initial_matrixB 4).
Proof. split; vm_compute; reflexivity. Qed.

Example integer_square :
  integer_product one_to_sixteen one_to_sixteen
  = [ [90; 100; 110; 120]; [202; 228; 254; 280];
      [314; 356; 398; 440]; [426; 484; 542; 600] ]%Z /\
  rows_of_data 4 (@kernel_output ieee754 4 quiet (initial_matrixB 4) (initial_matrixB 4))
  = map (map (fun k => Num (F64.of_Z k)))
      (integer_product one_to_sixteen one_to_sixteen).
Proof. split; vm_compute; reflexivity. Qed.

(** * Further properties of the code *)

(** ** The shader: stores and loads *)

Section ShaderAccesses.
Context {arith : F32Arith}.
Variable MATRIX_SIZE : N.
Variables matrixA matrixB : list f32.

(** X4.  As long as [MATRIX_SIZE * MATRIX_SIZE] does not exceed [2^32], two
    invocations that store to the same element of [matrixOut] have the same
    [id.x] and [id.y], and they store the same sum: no element is written by
    invocations for different cells. *)
Theorem kernel_stores_disjoint id id' index sum sum' :
  MATRIX_SIZE * MATRIX_SIZE <= u32_modulus ->
  WGSL.main MATRIX_SIZE matrixA matrixB id = Some (index, sum) ->
  WGSL.main MATRIX_SIZE matrixA matrixB id' = Some (index, sum') ->
  WGSL.x id = WGSL.x id' /\ WGSL.y id = WGSL.y id' /\ sum = sum'.
Proof.
  intros Hm E E'.
  assert (Hlt : MATRIX_SIZE < u32_modulus) by (unfold u32_modulus in *; nia).
  pose proof (main_Some _ _ _ _ _ _ E) as (Hx & Hy & _ & _).
  pose proof (main_Some _ _ _ _ _ _ E') as (Hx' & Hy' & _ & _).
  rewrite main_accumulate in E, E' by assumption.
  injection E as Ei Es. injection E' as Ei' Es'.
  rewrite index_exact in Ei, Ei' by assumption.
  assert (Eq : WGSL.y id * MATRIX_SIZE + WGSL.x id
               = WGSL.y id' * MATRIX_SIZE + WGSL.x id') by congruence.
  apply index_inj in Eq as [Ey Ex]; [|assumption..].
  repeat split; try assumption.
  rewrite <- Es, <- Es'. now apply accumulate_ext.
Qed.

(** X5.  For buffers of [MATRIX_SIZE * MATRIX_SIZE] elements, every load of
    an invocation that stores ([matrixA.numbers[aIndex]] and
    [matrixB.numbers[bIndex]] for each [i] of the loop) is inside its
    buffer, and so is the store; this holds for every [MATRIX_SIZE], also
    when the [u32] index arithmetic wraps around. *)
Theorem kernel_loads_in_bounds id index sum i :
  length matrixA = N.to_nat (MATRIX_SIZE * MATRIX_SIZE) ->
  length matrixB = N.to_nat (MATRIX_SIZE * MATRIX_SIZE) ->
  WGSL.main MATRIX_SIZE matrixA matrixB id = Some (index, sum) ->
  i < MATRIX_SIZE ->
  let aIndex := u32_add (u32_mul (WGSL.y id) MATRIX_SIZE) i in
  let bIndex := u32_add (u32_mul i MATRIX_SIZE) (WGSL.x id) in
  matrixA !! N.to_nat aIndex = Some (WGSL.numbers matrixA aIndex) /\
  matrixB !! N.to_nat bIndex = Some (WGSL.numbers matrixB bIndex) /\
  index < MATRIX_SIZE * MATRIX_SIZE.
Proof.
  intros La Lb E Hi aIndex bIndex.
  apply main_Some in E as (Hx & Hy & -> & _).
  pose proof (index_in_range MATRIX_SIZE _ _ Hy Hi) as Ha.
  pose proof (index_in_range MATRIX_SIZE _ _ Hi Hx) as Hb.
  pose proof (index_in_range MATRIX_SIZE _ _ Hy Hx) as Ho.
  fold aIndex in Ha. fold bIndex in Hb.
  unfold WGSL.numbers. repeat split.
  - destruct (lookup_lt_is_Some_2 matrixA (N.to_nat aIndex)) as [v Hv]; [lia|].
    rewrite Hv. f_equal. symmetry. now apply nth_lookup_Some.
  - destruct (lookup_lt_is_Some_2 matrixB (N.to_nat bIndex)) as [v Hv]; [lia|].
    rewrite Hv. f_equal. symmetry. now apply nth_lookup_Some.
  - exact Ho.
Qed.

(** An element no scheduled invocation stores to keeps its content. *)
Lemma run_skip schedule out (j : nat) :
  (forall id index sum, id ∈ schedule ->
     WGSL.main MATRIX_SIZE matrixA matrixB id = Some (index, sum) -> N.to_nat index <> j) ->
  WGSL.run MATRIX_SIZE matrixA matrixB schedule out !! j = out !! j.
Proof.
  revert out. unfold WGSL.run.
  induction schedule as [|id schedule IH]; intros out H; [reflexivity|].
  cbn [fold_left]. rewrite IH.
  - unfold WGSL.invoke.
    destruct (WGSL.main MATRIX_SIZE matrixA matrixB id) as [[index sum]|] eqn:E;
      [|reflexivity].
    apply list_lookup_insert_ne. eapply H; [|exact E]. left.
  - intros id' index sum Hin. apply H. now right.
Qed.

End ShaderAccesses.

Lemma kernel_stores_disjoint_witness :
  WGSL.x (WGSL.Vec3 1 2 0) = WGSL.x (WGSL.Vec3 1 2 7) /\
  WGSL.y (WGSL.Vec3 1 2 0) = WGSL.y (WGSL.Vec3 1 2 7) /\
  F32.of_number (F64.of_Z 10) = F32.of_number (F64.of_Z 10).
Proof.
  apply (@kernel_stores_disjoint ieee754 4
           (map F32.of_number (concat (initial_matrixA 4)))
           (map F32.of_number (concat (initial_matrixB 4)))
           (WGSL.Vec3 1 2 0) (WGSL.Vec3 1 2 7) 9).
  - vm_compute. discriminate.
  - vm_compute. reflexivity.
  - vm_compute. reflexivity.
Defined.

Lemma kernel_loads_in_bounds_witness :
  let matrixA := map F32.of_number (concat (initial_matrixA 4)) in
  let matrixB := map F32.of_number (concat (initial_matrixB 4)) in
  let aIndex := u32_add (u32_mul 2 4) 3 in
  let bIndex := u32_add (u32_mul 3 4) 1 in
  matrixA !! N.to_nat aIndex = Some (WGSL.numbers matrixA aIndex) /\
  matrixB !! N.to_nat bIndex = Some (WGSL.numbers matrixB bIndex) /\
  9 < 4 * 4.
Proof.
  apply (@kernel_loads_in_bounds ieee754 4
           (map F32.of_number (concat (initial_matrixA 4)))
           (map F32.of_number (concat (initial_matrixB 4)))
           (WGSL.Vec3 1 2 0) 9 (F32.of_number (F64.of_Z 10)) 3).
  - reflexivity.
  - reflexivity.
  - vm_compute. reflexivity.
  - reflexivity.
Defined.

(** Beyond [2^32] elements the index wraps: for the dimension 65537 the
    invocations for the cells (0, 65534) and (65535, 65535) compute the same
    index. *)
Example kernel_index_wraps :
  u32_add (u32_mul 65535 65537) 65535 = u32_add (u32_mul 0 65537) 65534.
Proof. reflexivity. Qed.

(** The ids of a dispatch are those of its grid, in the plane [z = 0]. *)
Lemma grid_bound countX countY id :
  id ∈ WGSL.global_invocation_ids countX countY ->
  WGSL.x id < countX * 8 /\ WGSL.y id < countY * 8 /\ WGSL.z id = 0.
Proof.
  unfold WGSL.global_invocation_ids, WGSL.workgroup_size. cbn [fst snd].
  intros H.
  apply list_elem_of_bind in H as (wy & H & Hwy%elem_of_upto).
  apply list_elem_of_bind in H as (wx & H & Hwx%elem_of_upto).
  apply list_elem_of_bind in H as (ly & H & Hly%elem_of_upto).
  apply list_elem_of_bind in H as (lx & H & Hlx%elem_of_upto).
  apply list_elem_of_singleton in H as ->. cbn. repeat split; lia.
Qed.

(** ** What a run leaves, and what one workgroup would *)

Section Workgroup.
Context {arith : F32Arith}.
Variable MATRIX_SIZE : N.
Variable env : Env.

(** X3.  What the page computes.  [shaderCode] declares [matrixOut] as
    [var<storage, write>], so the module does not compile and the dispatch
    is refused without an exception.  Hence a run in which nothing fails, on
    two [MATRIX_SIZE] x [MATRIX_SIZE] matrices of numbers, whatever they
    hold, whatever the dimension and whatever the arithmetic of the device,
    sets no error and sets the result to a new [MATRIX_SIZE] x [MATRIX_SIZE]
    matrix of zeros: [resultBuffer], the third buffer, still holds the
    zeros it was created with. *)
Theorem multiply_leaves_zeros st a b :
  no_failure env ->
  holds (objects st) (matrixA st) a -> square MATRIX_SIZE a ->
  holds (objects st) (matrixB st) b -> square MATRIX_SIZE b ->
  let w := multiplyMatrices MATRIX_SIZE env st in
  WGSL.compiles = false /\
  error (react w) = None /\
  (exists r,
     resultMatrix (react w) = Some r /\ objects st !! r = None /\
     holds (objects (react w)) r
       (replicate (N.to_nat MATRIX_SIZE)
          (replicate (N.to_nat MATRIX_SIZE) (F64.of_Z 0)))) /\
  GPUBuffer.contents <$> buffers (device w) !! 2%nat
  = Some (replicate (N.to_nat (MATRIX_SIZE * MATRIX_SIZE)) F32.zero).
Proof.
  intros Hq Ha Sa Hb Sb.
  destruct (multiplyMatrices_quiet MATRIX_SIZE env st a b)
    as (h' & -> & Hread & _); try assumption.
  cbn [react device error resultMatrix objects buffers].
  split; [reflexivity|]. split; [reflexivity|]. split; [|reflexivity].
  eexists. split; [reflexivity|]. split; [apply fresh_lookup|exact Hread].
Qed.

(** X14.  What the one dispatched workgroup of 8 x 8 invocations covers.
    For every dimension (with at most [2^32] elements), the shader's
    invocations of [dispatchWorkgroups(1, 1)], run in any order on the
    flattened matrices and a zero-filled output buffer, leave in element
    [row * MATRIX_SIZE + col] the dot product of row [row] of [a] and column
    [col] of [b] (the entries rounded to binary32, the terms added to 0 in
    the shader's arithmetic from [i = 0] upwards) when [row] and [col] are
    both below 8, and the 0 that was there everywhere else.  This is about
    the shader's code as a function of its buffers: the page never gets it
    to run. *)
Theorem kernel_single_workgroup a b row col :
  MATRIX_SIZE * MATRIX_SIZE <= u32_modulus ->
  runs_each_once env ->
  square MATRIX_SIZE a -> square MATRIX_SIZE b ->
  (row < N.to_nat MATRIX_SIZE)%nat -> (col < N.to_nat MATRIX_SIZE)%nat ->
  kernel_output MATRIX_SIZE env a b !! (row * N.to_nat MATRIX_SIZE + col)%nat
  = Some (if (row <? 8)%nat && (col <? 8)%nat
          then dot_product MATRIX_SIZE
                 (map (map F32.of_number) a) (map (map F32.of_number) b) row col
          else F32.zero).
Proof.
  intros Hm Hs Sa Sb Hrow Hcol.
  unfold kernel_output.
  replace (row * N.to_nat MATRIX_SIZE + col)%nat
    with (N.to_nat (N.of_nat row * MATRIX_SIZE + N.of_nat col)) by lia.
  destruct ((row <? 8)%nat && (col <? 8)%nat) eqn:Hin.
  - apply andb_prop in Hin as [Hr8%Nat.ltb_lt Hc8%Nat.ltb_lt].
    rewrite (run_lookup _ _ _ _ _ _ _ 0 Hm).
    + rewrite accumulate_dot_product by assumption. reflexivity.
    + rewrite (Hs _). apply id_in_grid; lia.
    + lia.
    + lia.
    + rewrite length_replicate. nia.
  - rewrite run_skip.
    + rewrite lookup_replicate_2 by nia. reflexivity.
    + intros id index sum Hid E.
      rewrite (Hs _) in Hid. apply grid_bound in Hid as (Hx8 & Hy8 & _).
      apply main_Some in E as (Hx & Hy & -> & _).
      rewrite index_exact by assumption. intros Eq.
      assert (Eq' : WGSL.y id * MATRIX_SIZE + WGSL.x id
                    = N.of_nat row * MATRIX_SIZE + N.of_nat col) by lia.
      apply index_inj in Eq' as [Ey Ex]; [|lia..].
      apply andb_false_iff in Hin as [H%Nat.ltb_ge|H%Nat.ltb_ge]; lia.
Qed.

End Workgroup.

Lemma multiply_leaves_zeros_witness :
  let w := @multiplyMatrices ieee754 4 backwards
             (state_with (initial_matrixB 4) huge_matrix) in
  WGSL.compiles = false /\
  error (react w) = None /\
  (exists r,
     resultMatrix (react w) = Some r /\
     objects (state_with (initial_matrixB 4) huge_matrix) !! r = None /\
     holds (objects (react w)) r
       (replicate (N.to_nat 4) (replicate (N.to_nat 4) (F64.of_Z 0)))) /\
  GPUBuffer.contents <$> buffers (device w) !! 2%nat
  = Some (replicate (N.to_nat (4 * 4)) F32.zero).
Proof.
  apply (@multiply_leaves_zeros ieee754 4 backwards
           (state_with (initial_matrixB 4) huge_matrix) (initial_matrixB 4) huge_matrix).
  - repeat split.
  - vm_compute. reflexivity.
  - exact initial_square_B.
  - vm_compute. reflexivity.
  - split; [reflexivity|]. vm_compute. repeat constructor.
Defined.

Lemma kernel_single_workgroup_witness :
  @kernel_output ieee754 9 backwards (initial_matrixB 9) (initial_matrixB 9)
    !! (7 * N.to_nat 9 + 8)%nat
  = Some (if (7 <? 8)%nat && (8 <? 8)%nat
          then @dot_product ieee754 9
                 (map (map F32.of_number) (initial_matrixB 9))
                 (map (map F32.of_number) (initial_matrixB 9)) 7 8
          else F32.zero).
Proof.
  apply (@kernel_single_workgroup ieee754 9 backwards
           (initial_matrixB 9) (initial_matrixB 9) 7 8).
  - vm_compute. discriminate.
  - exact backwards_runs_each_once.
  - split; [reflexivity|]. vm_compute. repeat constructor.
  - split; [reflexivity|]. vm_compute. repeat constructor.
  - vm_compute. lia.
  - vm_compute. lia.
Defined.

(** For the dimension 9 the workgroup leaves 0 in the last element, where
    the product of the identity and the example matrix has 81. *)
Example ninth_row_is_zero :
  @kernel_output ieee754 9 quiet (initial_matrixA 9) (initial_matrixB 9) !! 80%nat
  = Some F32.zero /\
  cell (initial_matrixB 9) 8 8 = Some (F64.of_Z 81).
Proof. split; vm_compute; reflexivity. Qed.

(** ** Every run of [multiplyMatrices]: a result or an error *)

Section Outcome.
Context {arith : F32Arith}.
Variable MATRIX_SIZE : N.
Variable env : Env.
Variable st0 : State.

(** During the [try] block: the references, the result and the flags are
    those set before it, and every array the call started with is as it
    was. *)
Local Abbreviation pending := (fun st : State =>
  matrixA st = matrixA st0 /\ matrixB st = matrixB st0 /\
  resultMatrix st = resultMatrix st0 /\ error st = None /\ loading st = true /\
  forall l a, objects st0 !! l = Some a -> objects st !! l = Some a).

Local Abbreviation P := (fun w : World => pending (react w)).

Lemma pending_silent {A} (c : M World A) :
  host_silent c -> hoare P c (fun _ => P) P.
Proof.
  intros Hc w Hw. specialize (Hc w).
  destruct (c w) as [[a|msg] w']; cbn in Hc; now rewrite Hc.
Qed.

Lemma length_upto n : length (upto n) = N.to_nat n.
Proof. unfold upto. now rewrite length_map, length_seq. Qed.

(** The rows cut from the data read back are rows of numbers. *)
Lemma rows_of_data_numbers data :
  rows_of_data MATRIX_SIZE data
  = map (map Num)
      (map (fun i => map F32.to_number
                       (slice data (N.to_nat (i * MATRIX_SIZE))
                          (N.to_nat (i * MATRIX_SIZE + MATRIX_SIZE))))
         (upto MATRIX_SIZE)).
Proof.
  unfold rows_of_data, row_of_data, Array_from. rewrite map_map.
  apply map_ext. intros i. now rewrite map_map.
Qed.

(** The reconstruction loop, whether line 163 throws or not. *)
Lemma pending_reconstruct data :
  hoare P (reconstruct MATRIX_SIZE env data)
    (fun nrm w =>
       P w /\ objects st0 !! nrm = None /\
       exists vals, holds (objects (react w)) nrm vals /\
                    length vals = N.to_nat MATRIX_SIZE)
    P.
Proof.
  intros [st dev] (HA & HB & Hres & Herr & Hload & Hobj). cbn [react] in *.
  assert (Hfresh : objects st0 !! fresh (dom (objects st)) = None).
  { destruct (objects st0 !! fresh (dom (objects st))) as [a|] eqn:E; [|reflexivity].
    apply Hobj in E. now rewrite fresh_lookup in E. }
  destruct (throws env 163) as [msg|] eqn:H163.
  - unfold reconstruct. rewrite bind_unfold, lift_alloc. cbv beta iota.
    rewrite bind_unfold.
    pose proof (length_upto MATRIX_SIZE) as Hlen.
    destruct (upto MATRIX_SIZE) as [|i rest].
    + cbn. repeat split; try assumption.
      * intros l a Hl. rewrite lookup_insert_ne; [now apply Hobj|].
        intros <-. congruence.
      * exists []. split; [|exact Hlen].
        unfold holds, read_matrix. now rewrite lookup_insert_eq.
    + cbn [for_each]. rewrite !bind_unfold. unfold call at 1. rewrite H163.
      cbn. repeat split; try assumption.
      intros l a Hl. rewrite lookup_insert_ne; [now apply Hobj|].
      intros <-. congruence.
  - destruct (reconstruct_ok MATRIX_SIZE env data st dev H163)
      as (h' & -> & Hread & Hframe).
    cbn. repeat split; try assumption.
    + intros l a Hl. rewrite Hframe; eauto.
    + eexists. split; [unfold holds; rewrite Hread, rows_of_data_numbers; reflexivity|].
      now rewrite length_map, length_upto.
Qed.

Ltac pstep :=
  lazymatch goal with
  | |- hoare _ (_ ≫= _) _ _ =>
      eapply hoare_bind;
      [ first [ apply hoare_call | apply hoare_guard
              | apply pending_silent;
                first [ apply silent_requestDevice | apply silent_createBuffer
                      | apply silent_writeBuffer | apply silent_submit
                      | apply silent_mapAsync | apply silent_getMappedRange
                      | apply silent_unmap | apply silent_gets | apply silent_flatten ] ]
      | intros ? ]
  end.

Lemma pending_try_block :
  hoare P (try_block MATRIX_SIZE env)
    (fun _ w =>
       matrixA (react w) = matrixA st0 /\ matrixB (react w) = matrixB st0 /\
       error (react w) = None /\ loading (react w) = true /\
       (forall l a, objects st0 !! l = Some a -> objects (react w) !! l = Some a) /\
       exists r vals,
         resultMatrix (react w) = Some r /\ objects st0 !! r = None /\
         holds (objects (react w)) r vals /\
         length vals = N.to_nat MATRIX_SIZE)
    P.
Proof.
  unfold try_block.
  do 6 pstep.
  eapply hoare_bind;
    [eapply hoare_bind; [apply pending_silent, silent_gets
                        |intros ?; apply pending_silent, silent_flatten]|intros ?].
  pstep.
  eapply hoare_bind;
    [eapply hoare_bind; [apply pending_silent, silent_gets
                        |intros ?; apply pending_silent, silent_flatten]|intros ?].
  repeat pstep. cbv zeta.
  eapply hoare_bind; [apply pending_reconstruct|]. intros nrm.
  intros w ((HA & HB & Hres & Herr & Hload & Hobj) & Hfresh & vals & Hread & Hlen).
  cbn. repeat split; try assumption. eauto 10.
Qed.

(** The state [multiplyMatrices] ends in, whatever happens. *)
Lemma multiply_outcomes :
  let st' := react (multiplyMatrices MATRIX_SIZE env st0) in
  matrixA st' = matrixA st0 /\ matrixB st' = matrixB st0 /\
  loading st' = false /\
  (forall l a, objects st0 !! l = Some a -> objects st' !! l = Some a) /\
  ((error st' = None /\
    exists r vals,
      resultMatrix st' = Some r /\ objects st0 !! r = None /\
      holds (objects st') r vals /\ length vals = N.to_nat MATRIX_SIZE)
   \/
   (exists message,
      error st' = Some message /\ resultMatrix st' = resultMatrix st0)).
Proof.
  unfold multiplyMatrices, onReact. cbn [react device].
  pose proof (pending_try_block
                (mkWorld (setLoading true (setError None st0)) (mkDevice [] [])))
    as H.
  destruct (try_block MATRIX_SIZE env _) as [[[]|msg] w'];
    cbn [react loading error resultMatrix objects matrixA matrixB
         setLoading setError] in *.
  - destruct H as (HA & HB & Herr & Hload & Hobj & r & vals & Hr & Hfresh & Hread & Hlen);
      [repeat split; auto|].
    repeat (split; [assumption || reflexivity|]). left. split; [exact Herr|]. eauto 10.
  - destruct H as (HA & HB & Hres & Herr & Hload & Hobj); [repeat split; auto|].
    repeat (split; [assumption || reflexivity|]). right. eauto.
Qed.

(** X1.  Whatever the environment does and whatever state the button is
    clicked in, a run of [multiplyMatrices] ends with [loading] off and in
    one of two ways.  Either there is no error, and the result is a new
    array (none of those that existed) holding [MATRIX_SIZE] rows of
    numbers; or there is an error message, and the result is the one there
    was before, with every element it had: a failed run never leaves a
    partial result, and never clears the one on display. *)
Theorem multiply_result_or_error :
  let st' := react (multiplyMatrices MATRIX_SIZE env st0) in
  loading st' = false /\
  ((error st' = None /\
    exists r vals,
      resultMatrix st' = Some r /\ objects st0 !! r = None /\
      holds (objects st') r vals /\ length vals = N.to_nat MATRIX_SIZE)
   \/
   (exists message,
      error st' = Some message /\ resultMatrix st' = resultMatrix st0 /\
      forall r vals,
        resultMatrix st0 = Some r -> holds (objects st0) r vals ->
        holds (objects st') r vals)).
Proof.
  destruct multiply_outcomes as (_ & _ & Hload & Hobj & [Hok|(message & He & Hr)]).
  - split; [exact Hload|]. now left.
  - split; [exact Hload|]. right. exists message. repeat split; try assumption.
    intros r vals _ (rs & Hm & Hrs)%read_matrix_Some.
    apply read_matrix_Some. exists rs. split; [now apply Hobj|].
    eapply Forall2_impl; [exact Hrs|]. intros l cs. apply Hobj.
Qed.

End Outcome.

(** ** The error that is reported *)

Section FirstFailure.
Context {arith : F32Arith}.
Variable MATRIX_SIZE : N.
Variable env : Env.

Ltac mstep :=
  rewrite bind_unfold; cbv beta iota delta [mret M_ret modify gets requestDevice].
Ltac msteps := repeat mstep.
Ltac wsimpl :=
  cbn [react device submitted buffers length app insert list_insert
       GPUBuffer.size GPUBuffer.usage GPUBuffer.contents GPUBuffer.mapped].
(* The call on [line]: it fails, and that is the first failure, or the run
   goes on. *)
Ltac fstep line :=
  rewrite bind_unfold; unfold call at 1;
  destruct (throws env line) as [?message|] eqn:?; [reflexivity|]; cbv beta iota.

(** The [try] block throws what fails first, and returns when nothing
    fails: the device accepts every command of the block. *)
Lemma try_block_first_failure st a b :
  holds (objects st) (matrixA st) a -> square MATRIX_SIZE a ->
  holds (objects st) (matrixB st) b -> square MATRIX_SIZE b ->
  match try_block MATRIX_SIZE env (mkWorld st (mkDevice [] [])) with
  | (Return _, _) => first_failure MATRIX_SIZE env = None
  | (Throw message, _) => first_failure MATRIX_SIZE env = Some message
  end.
Proof.
  intros Ha Sa Hb Sb.
  unfold try_block, first_failure. cbn [first_throw app].
  set (B := BUFFER_SIZE MATRIX_SIZE) in *.
  set (aData := map F32.of_number (concat a)) in *.
  set (bData := map F32.of_number (concat b)) in *.
  assert (La : length aData = N.to_nat (MATRIX_SIZE * MATRIX_SIZE)).
  { unfold aData. rewrite length_map. now apply length_concat_square. }
  assert (Lb : length bData = N.to_nat (MATRIX_SIZE * MATRIX_SIZE)).
  { unfold bData. rewrite length_map. now apply length_concat_square. }
  assert (HB : 4 * N.of_nat (N.to_nat (MATRIX_SIZE * MATRIX_SIZE)) <= B).
  { unfold B, BUFFER_SIZE. lia. }
  pose proof (BUFFER_SIZE_elements MATRIX_SIZE) as HE. fold B in HE.
  set (zeros := replicate (N.to_nat (MATRIX_SIZE * MATRIX_SIZE)) F32.zero) in *.
  assert (Lz : length zeros = N.to_nat (MATRIX_SIZE * MATRIX_SIZE))
    by apply length_replicate.
  (* device acquisition *)
  destruct (navigator_gpu env); [|reflexivity]. cbn [negb]. mstep.
  fstep 84%nat.
  destruct (adapter_available env); [|reflexivity]. cbn [negb]. mstep.
  fstep 86%nat. mstep.
  (* flatten *)
  fstep 91%nat. msteps. cbn [react].
  rewrite (lift_flatten _ _ _ a Ha). fold aData. cbv beta iota.
  fstep 92%nat. msteps. cbn [react].
  rewrite (lift_flatten _ _ _ b Hb). fold bData. cbv beta iota.
  (* the three buffers *)
  fstep 95%nat. mstep.
  rewrite createBuffer_eq, HE. fold zeros. wsimpl. cbv beta iota.
  fstep 99%nat. mstep.
  erewrite writeBuffer_ok;
    [|reflexivity|reflexivity|reflexivity|wsimpl; rewrite La; exact HB
     |wsimpl; congruence].
  wsimpl. cbv beta iota.
  fstep 101%nat. mstep.
  rewrite createBuffer_eq, HE. fold zeros. wsimpl. cbv beta iota.
  fstep 105%nat. mstep.
  erewrite writeBuffer_ok;
    [|reflexivity|reflexivity|reflexivity|wsimpl; rewrite Lb; exact HB
     |wsimpl; congruence].
  wsimpl. cbv beta iota.
  fstep 107%nat. mstep.
  rewrite createBuffer_eq, HE. fold zeros. wsimpl. cbv beta iota.
  (* pipeline, bind group, pass *)
  fstep 113%nat. fstep 116%nat. cbv zeta. fstep 125%nat.
  fstep 135%nat. fstep 136%nat. fstep 137%nat. fstep 138%nat.
  fstep 140%nat. fstep 141%nat. fstep 143%nat. mstep.
  rewrite submit_eq. cbn [fold_left execute run_pass].
  rewrite dispatch_refused by reflexivity.
  wsimpl. cbv beta iota.
  (* the copy *)
  fstep 146%nat. mstep.
  rewrite createBuffer_eq, HE. fold zeros. wsimpl. cbv beta iota.
  fstep 150%nat. fstep 151%nat. fstep 152%nat. mstep.
  rewrite submit_eq. cbn [fold_left].
  erewrite copy_ok;
    [|reflexivity|reflexivity|reflexivity|reflexivity|reflexivity
     |wsimpl; lia|wsimpl; lia|wsimpl; congruence|wsimpl; congruence].
  wsimpl. cbv beta iota.
  (* the read-back *)
  fstep 154%nat. mstep.
  erewrite mapAsync_ok; [|reflexivity..]. wsimpl. cbv beta iota.
  fstep 155%nat. mstep.
  erewrite getMappedRange_ok; [|reflexivity..]. wsimpl. cbv beta iota.
  fstep 156%nat. mstep.
  erewrite unmap_ok; [|reflexivity]. wsimpl. cbv beta iota. mstep.
  rewrite slice_all.
  (* the reconstruction loop *)
  destruct (throws env 163) as [message|] eqn:H163.
  - unfold reconstruct. rewrite bind_unfold, lift_alloc. cbv beta iota.
    rewrite bind_unfold.
    destruct (N.eqb_spec MATRIX_SIZE 0) as [->|Hn].
    + reflexivity.
    + assert (E : exists rest, upto MATRIX_SIZE = 0 :: rest).
      { unfold upto. destruct (N.to_nat MATRIX_SIZE) as [|k] eqn:Ek; [lia|].
        cbn. eauto. }
      destruct E as [rest ->]. cbn [for_each]. rewrite !bind_unfold.
      unfold call at 1. rewrite H163. cbn [first_throw]. now rewrite H163.
  - match goal with
    | |- context [reconstruct MATRIX_SIZE env ?d (mkWorld ?s ?dev)] =>
        destruct (reconstruct_ok MATRIX_SIZE env d s dev H163) as (h' & -> & _)
    end.
    destruct (MATRIX_SIZE =? 0); cbn [first_throw]; [reflexivity|].
    now rewrite H163.
Qed.

(** X2.  On two [MATRIX_SIZE] x [MATRIX_SIZE] matrices of numbers, the
    error [multiplyMatrices] leaves is the message of the first thing that
    fails, in the order of the source ([first_failure]): no
    [navigator.gpu], a rejected or [null] adapter, then the first platform
    call that throws or is rejected.  When nothing fails there is no error:
    the validation of the device adds no failure of its own (the data fit
    the buffers, [mapAsync] is granted, [getMappedRange] finds the buffer
    mapped), and no later failure hides an earlier one. *)
Theorem multiply_reports_first_failure st a b :
  holds (objects st) (matrixA st) a -> square MATRIX_SIZE a ->
  holds (objects st) (matrixB st) b -> square MATRIX_SIZE b ->
  error (react (multiplyMatrices MATRIX_SIZE env st)) = first_failure MATRIX_SIZE env.
Proof.
  intros Ha Sa Hb Sb.
  pose proof (try_block_first_failure (setLoading true (setError None st)) a b
                Ha Sa Hb Sb) as H.
  pose proof (pending_try_block MATRIX_SIZE env (setLoading true (setError None st))
                (mkWorld (setLoading true (setError None st)) (mkDevice [] []))
                ltac:(repeat split; auto)) as Hp.
  unfold multiplyMatrices, onReact. cbn [react device].
  destruct (try_block MATRIX_SIZE env _) as [[[]|message] w'].
  - rewrite H. destruct Hp as (_ & _ & Herr & _). exact Herr.
  - now rewrite H.
Qed.

End FirstFailure.

Lemma multiply_reports_first_failure_witness :
  error (react (@multiplyMatrices ieee754 4 (failing_at 105 "device lost")
                  (initial_state 4)))
  = first_failure 4 (failing_at 105 "device lost").
Proof.
  apply (@multiply_reports_first_failure ieee754 4 (failing_at 105 "device lost")
           (initial_state 4) (initial_matrixA 4) (initial_matrixB 4)).
  - exact initial_holds_A.
  - exact initial_square_A.
  - exact initial_holds_B.
  - exact initial_square_B.
Defined.

(** With a failure on lines 105 and 152 the one on line 105 is reported. *)
Example first_of_two_failures :
  let env := {| navigator_gpu := true; adapter_available := true;
                throws := fun line =>
                  if decide (line = 105%nat) then Some "device lost"%string
                  else if decide (line = 152%nat) then Some "queue closed"%string
                  else None;
                schedule := fun ids => ids |} in
  first_failure 4 env = Some "device lost"%string /\
  error (react (@multiplyMatrices ieee754 4 env (initial_state 4)))
  = Some "device lost"%string.
Proof. split; vm_compute; reflexivity. Qed.

(** ** One run after another *)

Lemma read_matrix_frame (h h' : gmap loc array) m rows :
  (forall l, is_Some (h !! l) -> h' !! l = h !! l) ->
  read_matrix h m = Some rows -> read_matrix h' m = Some rows.
Proof.
  intros Hframe (rs & Hm & Hrs)%read_matrix_Some.
  apply read_matrix_Some. exists rs. split.
  - rewrite Hframe; eauto.
  - eapply Forall2_impl; [exact Hrs|]. intros r cs Hr. cbn in *.
    rewrite Hframe; eauto.
Qed.

Section Again.
Context {arith : F32Arith}.
Variable MATRIX_SIZE : N.
Variables env env' : Env.

(** X7.  Two runs without failure, one after the other on the same inputs:
    the second sets the result to a new array, different from the one the
    first made, holding the same rows; and the array the first run made
    still holds its rows.  Nothing a run computes depends on the result, the
    flags or the arrays earlier runs left, and a result once set is never
    written again. *)
Theorem multiply_again st a b :
  MATRIX_SIZE * MATRIX_SIZE <= u32_modulus ->
  no_failure env -> runs_each_once env ->
  no_failure env' -> runs_each_once env' ->
  holds (objects st) (matrixA st) a -> square MATRIX_SIZE a ->
  holds (objects st) (matrixB st) b -> square MATRIX_SIZE b ->
  let st1 := react (multiplyMatrices MATRIX_SIZE env st) in
  let st2 := react (multiplyMatrices MATRIX_SIZE env' st1) in
  exists r1 r2 rows,
    resultMatrix st1 = Some r1 /\ resultMatrix st2 = Some r2 /\ r1 <> r2 /\
    read_matrix (objects st1) r1 = Some rows /\
    read_matrix (objects st2) r2 = Some rows /\
    read_matrix (objects st2) r1 = Some rows.
Proof.
  intros Hm Hq Hs Hq' Hs' Ha Sa Hb Sb.
  destruct (multiplyMatrices_quiet MATRIX_SIZE env st a b)
    as (h1 & -> & Hread1 & Hframe1); try assumption.
  cbn [react].
  set (r1 := fresh (dom (objects st))) in *.
  set (st1 := mkState h1 (matrixA st) (matrixB st) (Some r1) None false).
  assert (Ha1 : holds (objects st1) (matrixA st1) a)
    by (eapply read_matrix_frame; [exact Hframe1|exact Ha]).
  assert (Hb1 : holds (objects st1) (matrixB st1) b)
    by (eapply read_matrix_frame; [exact Hframe1|exact Hb]).
  destruct (multiplyMatrices_quiet MATRIX_SIZE env' st1 a b)
    as (h2 & -> & Hread2 & Hframe2); try assumption.
  subst st1. cbn [react resultMatrix objects] in *.
  exists r1, (fresh (dom h1)),
    (map (map Num)
       (replicate (N.to_nat MATRIX_SIZE)
          (replicate (N.to_nat MATRIX_SIZE) (F64.of_Z 0)))).
  repeat split; try assumption.
  - apply fresh_ne. apply read_matrix_Some in Hread1 as (rs & Hr1 & _). eauto.
  - eapply read_matrix_frame; [exact Hframe2|exact Hread1].
Qed.

End Again.

Lemma multiply_again_witness :
  let st1 := react (@multiplyMatrices ieee754 4 quiet (initial_state 4)) in
  let st2 := react (@multiplyMatrices ieee754 4 backwards st1) in
  exists r1 r2 rows,
    resultMatrix st1 = Some r1 /\ resultMatrix st2 = Some r2 /\ r1 <> r2 /\
    read_matrix (objects st1) r1 = Some rows /\
    read_matrix (objects st2) r2 = Some rows /\
    read_matrix (objects st2) r1 = Some rows.
Proof.
  apply (@multiply_again ieee754 4 quiet backwards (initial_state 4)
           (initial_matrixA 4) (initial_matrixB 4)).
  - vm_compute. discriminate.
  - exact quiet_no_failure.
  - exact quiet_runs_each_once.
  - repeat split.
  - exact backwards_runs_each_once.
  - exact initial_holds_A.
  - exact initial_square_A.
  - exact initial_holds_B.
  - exact initial_square_B.
Defined.

(** ** What a cell of the result depends on *)

Section Locality.
Context {arith : F32Arith}.
Variable MATRIX_SIZE : N.
Variables env env' : Env.

Lemma entry_lookup (m : list (list f32)) row col :
  entry m row col = default F32.zero (cell m row col).
Proof.
  unfold entry, cell.
  destruct (m !! row) as [r|] eqn:Hr; cbn.
  - rewrite (nth_lookup_Some _ _ _ _ Hr).
    destruct (r !! col) as [v|] eqn:Hv; cbn.
    + now apply nth_lookup_Some.
    + apply nth_overflow. now apply lookup_ge_None.
  - rewrite (nth_overflow m []) by now apply lookup_ge_None. now destruct col.
Qed.

Lemma cell_map {A B} (f : A -> B) (m : list (list A)) row col :
  cell (map (map f) m) row col = f <$> cell m row col.
Proof.
  unfold cell. change (map ?g ?l) with (g <$> l).
  rewrite list_lookup_fmap. destruct (m !! row) as [r|]; cbn; [|reflexivity].
  change (map ?g ?l) with (g <$> l). apply list_lookup_fmap.
Qed.

(** A cell of the result of a run without failure. *)
Lemma result_cell_quiet e st a b row col :
  no_failure e ->
  holds (objects st) (matrixA st) a -> square MATRIX_SIZE a ->
  holds (objects st) (matrixB st) b -> square MATRIX_SIZE b ->
  (row < N.to_nat MATRIX_SIZE)%nat -> (col < N.to_nat MATRIX_SIZE)%nat ->
  result_cell (react (multiplyMatrices MATRIX_SIZE e st)) row col
  = Some (Num (F64.of_Z 0)).
Proof.
  intros Hq Ha Sa Hb Sb Hrow Hcol.
  destruct (multiplyMatrices_quiet MATRIX_SIZE e st a b Hq Ha Sa Hb Sb)
    as (h' & -> & Hread & _).
  unfold result_cell. cbn [react resultMatrix objects mbind option_bind].
  rewrite Hread. cbn [mbind option_bind]. rewrite cell_map. unfold cell.
  rewrite lookup_replicate_2 by assumption. cbn [mbind option_bind].
  now rewrite lookup_replicate_2 by assumption.
Qed.

(** A cell of what the shader leaves, cut into rows. *)
Lemma kernel_cell_dot_product e a b row col :
  MATRIX_SIZE <= 8 -> runs_each_once e ->
  square MATRIX_SIZE a -> square MATRIX_SIZE b ->
  (row < N.to_nat MATRIX_SIZE)%nat -> (col < N.to_nat MATRIX_SIZE)%nat ->
  cell (rows_of_data MATRIX_SIZE (kernel_output MATRIX_SIZE e a b)) row col
  = Some (Num (F32.to_number
                 (dot_product MATRIX_SIZE
                    (map (map F32.of_number) a) (map (map F32.of_number) b) row col))).
Proof.
  intros Hn Hs Sa Sb Hrow Hcol.
  destruct (kernel_cells MATRIX_SIZE e a b Hn Hs) as (_ & _ & Hcell).
  rewrite (Hcell row col Hrow Hcol), accumulate_dot_product; try assumption;
    [reflexivity|].
  unfold u32_modulus. nia.
Qed.


(** X19.  The same for the shader, where it says something: with a
    dimension up to 8, cell [(row, col)] of what the dispatched workgroup
    leaves in the output buffer, cut into rows, depends on row [row] of the
    first matrix and column [col] of the second only, whatever the order
    of the invocations.  So a number that overflows binary32 or is NaN in
    one cell of an input can spoil only the row (for the first matrix) or
    the column (for the second) it belongs to.  This is about the shader's
    code as a function of its buffers: the page never gets it to run. *)
Theorem kernel_cell_locality a b a' b' row col :
  MATRIX_SIZE <= 8 ->
  runs_each_once env -> runs_each_once env' ->
  square MATRIX_SIZE a -> square MATRIX_SIZE b ->
  square MATRIX_SIZE a' -> square MATRIX_SIZE b' ->
  (row < N.to_nat MATRIX_SIZE)%nat -> (col < N.to_nat MATRIX_SIZE)%nat ->
  a !! row = a' !! row ->
  (forall i, cell b i col = cell b' i col) ->
  cell (rows_of_data MATRIX_SIZE (kernel_output MATRIX_SIZE env a b)) row col
  = cell (rows_of_data MATRIX_SIZE (kernel_output MATRIX_SIZE env' a' b')) row col.
Proof.
  intros Hn Hs Hs' Sa Sb Sa' Sb' Hrow Hcol Erow Ecol.
  rewrite (kernel_cell_dot_product env a b), (kernel_cell_dot_product env' a' b')
    by assumption.
  do 3 f_equal. unfold dot_product.
  apply fold_left_ext_in. intros sum i _. f_equal. f_equal.
  - rewrite !entry_lookup, !cell_map. unfold cell. now rewrite Erow.
  - rewrite !entry_lookup, !cell_map. now rewrite Ecol.
Qed.

End Locality.

Lemma kernel_cell_locality_witness :
  cell (rows_of_data 4
          (@kernel_output ieee754 4 quiet (initial_matrixA 4) (initial_matrixB 4))) 2 1
  = cell (rows_of_data 4
            (@kernel_output ieee754 4 backwards (initial_matrixA 4) huge_matrix)) 2 1.
Proof.
  apply (@kernel_cell_locality ieee754 4 quiet backwards
           (initial_matrixA 4) (initial_matrixB 4) (initial_matrixA 4) huge_matrix).
  - lia.
  - exact quiet_runs_each_once.
  - exact backwards_runs_each_once.
  - exact initial_square_A.
  - exact initial_square_B.
  - exact initial_square_A.
  - split; [reflexivity|]. vm_compute. repeat constructor.
  - vm_compute. lia.
  - vm_compute. lia.
  - reflexivity.
  - intros i. do 4 (destruct i as [|i]; [vm_compute; reflexivity|]).
    vm_compute. reflexivity.
Defined.


(** ** The layout of the flattened matrix *)

Section Layout.
Variable MATRIX_SIZE : N.

Lemma lookup_concat_square {A} (n : nat) (vals : list (list A)) row col v :
  Forall (fun r => length r = n) vals ->
  cell vals row col = Some v ->
  concat vals !! (row * n + col)%nat = Some v.
Proof.
  intros Hrows. revert row.
  induction Hrows as [|r vals Hr _ IH]; intros row Hv.
  - now destruct row.
  - destruct row as [|row]; cbn [concat].
    + unfold cell in Hv. cbn in Hv. cbn. now apply lookup_app_l_Some.
    + rewrite lookup_app_r by lia.
      replace (S row * n + col - length r)%nat with (row * n + col)%nat by lia.
      apply IH. exact Hv.
Qed.

(** X8.  [flatten] of a [MATRIX_SIZE] x [MATRIX_SIZE] matrix only reads the
    heap and gives exactly [BUFFER_SIZE] bytes of data, row after row:
    element [row * MATRIX_SIZE + col] is cell [(row, col)] rounded to
    binary32.  That is the element the shader reads as
    [numbers[row * MATRIX_SIZE + col]] (as long as the index does not wrap),
    so host and shader agree on the layout. *)
Theorem flatten_row_major st m vals :
  holds (objects st) m vals -> square MATRIX_SIZE vals ->
  exists data,
    flatten m st = (Return data, st) /\
    4 * N.of_nat (length data) = BUFFER_SIZE MATRIX_SIZE /\
    forall row col v,
      cell vals row col = Some v ->
      data !! (row * N.to_nat MATRIX_SIZE + col)%nat = Some (F32.of_number v) /\
      (MATRIX_SIZE * MATRIX_SIZE <= u32_modulus ->
       WGSL.numbers data (u32_add (u32_mul (N.of_nat row) MATRIX_SIZE) (N.of_nat col))
       = F32.of_number v).
Proof.
  intros Hm Hsq. exists (map F32.of_number (concat vals)).
  split; [now apply flatten_holds|]. split.
  - rewrite length_map, (length_concat_square MATRIX_SIZE) by assumption.
    unfold BUFFER_SIZE. lia.
  - intros row col v Hv.
    assert (Hl : map F32.of_number (concat vals) !! (row * N.to_nat MATRIX_SIZE + col)%nat
                 = Some (F32.of_number v)).
    { change (map ?f ?l) with (f <$> l). rewrite list_lookup_fmap.
      destruct Hsq as [_ Hrows].
      now rewrite (lookup_concat_square _ _ _ _ _ Hrows Hv). }
    split; [exact Hl|]. intros Hsize.
    destruct (cell_in_square MATRIX_SIZE _ _ _ _ Hsq Hv) as [Hrow Hcol].
    rewrite index_exact by lia. unfold WGSL.numbers.
    apply nth_lookup_Some.
    replace (N.to_nat (N.of_nat row * MATRIX_SIZE + N.of_nat col))
      with (row * N.to_nat MATRIX_SIZE + col)%nat by lia.
    exact Hl.
Qed.

End Layout.

Lemma flatten_row_major_witness :
  exists data,
    flatten (matrixB (initial_state 4)) (initial_state 4)
    = (Return data, initial_state 4) /\
    4 * N.of_nat (length data) = BUFFER_SIZE 4 /\
    forall row col v,
      cell (initial_matrixB 4) row col = Some v ->
      data !! (row * N.to_nat 4 + col)%nat = Some (F32.of_number v) /\
      (4 * 4 <= u32_modulus ->
       WGSL.numbers data (u32_add (u32_mul (N.of_nat row) 4) (N.of_nat col))
       = F32.of_number v).
Proof.
  apply (flatten_row_major 4 (initial_state 4) (matrixB (initial_state 4))
           (initial_matrixB 4)).
  - exact initial_holds_B.
  - exact initial_square_B.
Defined.

(** ** Numbers that binary32 holds exactly *)

Section ExactRounding.
Local Open Scope Z_scope.
Variables prec emax : Z.

Lemma Zdigits2_shift q k : 0 < q -> 0 <= k -> Zdigits2 (q * 2 ^ k) = Zdigits2 q + k.
Proof.
  intros Hq Hk. assert (0 < 2 ^ k) by (apply Z.pow_pos_nonneg; lia).
  rewrite !Zdigits2_log2 by nia.
  rewrite Z.log2_mul_pow2 by lia. lia.
Qed.

Lemma shr_1_even q :
  0 <= q ->
  shr_1 (Build_shr_record (2 * q) false false) = Build_shr_record q false false.
Proof. intros Hq. destruct q as [|p|p]; [reflexivity|reflexivity|lia]. Qed.

(** Shifting out zeros is exact. *)
Lemma shr_exact p : forall q,
  0 <= q ->
  SpecFloat.iter_pos shr_1 p (Build_shr_record (q * 2 ^ Zpos p) false false)
  = Build_shr_record q false false.
Proof.
  induction p as [p IH|p IH|]; intros q Hq; cbn [SpecFloat.iter_pos].
  - assert (0 < 2 ^ Zpos p) by (apply Z.pow_pos_nonneg; lia).
    replace (q * 2 ^ Zpos p~1) with (2 * ((q * 2 ^ Zpos p) * 2 ^ Zpos p)).
    + rewrite shr_1_even by nia. rewrite IH by nia. now apply IH.
    + replace (Zpos p~1) with (Zpos p + Zpos p + 1) by lia.
      rewrite !Z.pow_add_r by lia. ring.
  - assert (0 < 2 ^ Zpos p) by (apply Z.pow_pos_nonneg; lia).
    replace (q * 2 ^ Zpos p~0) with ((q * 2 ^ Zpos p) * 2 ^ Zpos p).
    + rewrite IH by nia. now apply IH.
    + replace (Zpos p~0) with (Zpos p + Zpos p) by lia.
      rewrite !Z.pow_add_r by lia. ring.
  - replace (q * 2 ^ 1) with (2 * q) by lia. now apply shr_1_even.
Qed.

(** A mantissa that is the canonical one with zeros appended rounds to the
    canonical one, exactly. *)
Lemma binary_round_aux_exact s q k e :
  0 <= k ->
  fexp prec emax (Zpos (digits2_pos q) + (e + k)) = e + k ->
  e + k <= emax - prec ->
  binary_round_aux prec emax s (Zpos q * 2 ^ k) e loc_Exact = S754_finite s q (e + k).
Proof.
  intros Hk Hc He. unfold binary_round_aux, shr_fexp at 1.
  rewrite Zdigits2_shift by lia. cbn [Zdigits2 shr_record_of_loc].
  replace (Zpos (digits2_pos q) + k + e) with (Zpos (digits2_pos q) + (e + k)) by lia.
  rewrite Hc. replace (e + k - e) with k by lia.
  assert (E : shr (Build_shr_record (Zpos q * 2 ^ k) false false) e k
              = (Build_shr_record (Zpos q) false false, e + k)).
  { unfold shr. destruct k as [|p|p]; [| |lia].
    - rewrite Z.mul_1_r, Z.add_0_r. reflexivity.
    - rewrite shr_exact by lia. reflexivity. }
  rewrite E. cbn [shr_m loc_of_shr_record round_nearest_even].
  unfold shr_fexp. cbn [Zdigits2]. rewrite Hc, Z.sub_diag.
  cbn [shr shr_record_of_loc shr_m].
  apply Z.leb_le in He. now rewrite He.
Qed.

Lemma iter_xO m d : Zpos (Pos.iter xO m d) = Zpos m * 2 ^ Zpos d.
Proof.
  induction d using Pos.peano_ind.
  - cbn. lia.
  - rewrite Pos.iter_succ, Pos2Z.inj_succ, Z.pow_succ_r by lia. lia.
Qed.

(** Rounding a value the format holds: when the mantissa has to lose [k]
    digits and they are zeros. *)
Lemma binary_round_shr s q k e :
  0 <= k ->
  fexp prec emax (Zpos (digits2_pos q) + (e + k)) = e + k ->
  e + k <= emax - prec ->
  binary_round prec emax s (Z.to_pos (Zpos q * 2 ^ k)) e = S754_finite s q (e + k).
Proof.
  intros Hk Hc He.
  assert (Hp : 0 < 2 ^ k) by (apply Z.pow_pos_nonneg; lia).
  assert (Hm : Zpos (Z.to_pos (Zpos q * 2 ^ k)) = Zpos q * 2 ^ k)
    by (apply Z2Pos.id; nia).
  unfold binary_round, shl_align.
  change (Zpos (digits2_pos ?m)) with (Zdigits2 (Zpos m)).
  rewrite Hm, Zdigits2_shift by lia. cbn [Zdigits2].
  replace (Zpos (digits2_pos q) + k + e) with (Zpos (digits2_pos q) + (e + k)) by lia.
  rewrite Hc. replace (e + k - e) with k by lia.
  destruct k as [|p|p]; [| |lia]; rewrite Hm; now apply binary_round_aux_exact.
Qed.

(** And when it has to gain [d] digits. *)
Lemma binary_round_shl s m d e :
  fexp prec emax (Zpos (digits2_pos m) + e) = e - Zpos d ->
  e - Zpos d <= emax - prec ->
  binary_round prec emax s m e = S754_finite s (Pos.iter xO m d) (e - Zpos d).
Proof.
  intros Hc He. unfold binary_round, shl_align. rewrite Hc.
  replace (e - Zpos d - e) with (Zneg d) by lia.
  pose proof (binary_round_aux_exact s (Pos.iter xO m d) 0 (e - Zpos d)) as H.
  rewrite Z.mul_1_r, Z.add_0_r in H. apply H; [lia| |exact He].
  change (Zpos (digits2_pos ?m)) with (Zdigits2 (Zpos m)).
  rewrite iter_xO, Zdigits2_shift by lia. cbn [Zdigits2].
  replace (Zpos (digits2_pos m) + Zpos d + (e - Zpos d)) with (Zpos (digits2_pos m) + e) by lia.
  exact Hc.
Qed.

Hypothesis Hprec : 0 < prec.
Hypothesis Hemax : 2 <= emax /\ prec <= emax.

Lemma Zdigits2_pos a : 0 < a -> 0 < Zdigits2 a.
Proof. intros Ha. rewrite Zdigits2_log2 by lia. pose proof (Z.log2_nonneg a). lia. Qed.

(** An integer with zeros appended, at the exponent that makes up for
    them, rounds to the integer. *)
Lemma binary_round_integer s a j :
  0 < a -> Zdigits2 a <= prec -> 0 <= j ->
  binary_round prec emax s (Z.to_pos (a * 2 ^ j)) (- j) = canonical prec s a.
Proof.
  intros Ha Hd Hj. unfold canonical.
  pose proof (Zdigits2_pos a Ha) as Hd0.
  set (d := Zdigits2 a) in *.
  assert (Hp : forall k, 0 <= k -> 0 < a * 2 ^ k).
  { intros k Hk. assert (0 < 2 ^ k) by (apply Z.pow_pos_nonneg; lia). nia. }
  set (q := Z.to_pos (a * 2 ^ (prec - d))).
  assert (Hq : Zpos q = a * 2 ^ (prec - d)) by (apply Z2Pos.id, Hp; lia).
  assert (Hdq : Zpos (digits2_pos q) = prec).
  { change (Zpos (digits2_pos q)) with (Zdigits2 (Zpos q)).
    rewrite Hq, Zdigits2_shift by lia. fold d. lia. }
  assert (Hc : fexp prec emax (Zpos (digits2_pos q) + (d - prec)) = d - prec).
  { rewrite Hdq. unfold fexp, emin. lia. }
  destruct (Z_le_gt_dec (prec - d) j) as [Hle|Hgt].
  - (* digits to lose *)
    replace (a * 2 ^ j) with (Zpos q * 2 ^ (j - (prec - d))).
    + replace (d - prec) with (- j + (j - (prec - d))) by lia.
      apply binary_round_shr; [lia| |lia].
      replace (- j + (j - (prec - d))) with (d - prec) by lia. exact Hc.
    + rewrite Hq, <- Z.mul_assoc, <- Z.pow_add_r by lia. do 2 f_equal. lia.
  - (* digits to gain *)
    set (m := Z.to_pos (a * 2 ^ j)).
    assert (Hm : Zpos m = a * 2 ^ j) by (apply Z2Pos.id, Hp; lia).
    assert (Hdm : Zpos (digits2_pos m) = d + j).
    { change (Zpos (digits2_pos m)) with (Zdigits2 (Zpos m)).
      rewrite Hm, Zdigits2_shift by lia. reflexivity. }
    set (k := Z.to_pos (prec - d - j)).
    assert (Hk : Zpos k = prec - d - j) by (apply Z2Pos.id; lia).
    rewrite (binary_round_shl s m k).
    + f_equal; [|lia]. apply Pos2Z.inj. rewrite iter_xO, Hm, Hq, Hk.
      rewrite <- Z.mul_assoc, <- Z.pow_add_r by lia. do 2 f_equal. lia.
    + rewrite Hdm, Hk. unfold fexp, emin. lia.
    + lia.
Qed.

Lemma binary_round_integer0 s p :
  Zdigits2 (Zpos p) <= prec -> binary_round prec emax s p 0 = canonical prec s (Zpos p).
Proof.
  intros Hd. rewrite <- (binary_round_integer s (Zpos p) 0) by lia.
  change (2 ^ 0) with 1. rewrite Z.mul_1_r. reflexivity.
Qed.

(** The same for a product whose zeros are enough. *)
Lemma binary_round_aux_integer s a j :
  0 < a -> Zdigits2 a <= prec -> prec - Zdigits2 a <= j ->
  binary_round_aux prec emax s (a * 2 ^ j) (- j) loc_Exact = canonical prec s a.
Proof.
  intros Ha Hd Hj. unfold canonical.
  pose proof (Zdigits2_pos a Ha) as Hd0.
  set (d := Zdigits2 a) in *.
  assert (Hp : 0 < a * 2 ^ (prec - d)).
  { assert (0 < 2 ^ (prec - d)) by (apply Z.pow_pos_nonneg; lia). nia. }
  set (q := Z.to_pos (a * 2 ^ (prec - d))).
  assert (Hq : Zpos q = a * 2 ^ (prec - d)) by (apply Z2Pos.id, Hp).
  assert (Hdq : Zpos (digits2_pos q) = prec).
  { change (Zpos (digits2_pos q)) with (Zdigits2 (Zpos q)).
    rewrite Hq, Zdigits2_shift by lia. fold d. lia. }
  replace (a * 2 ^ j) with (Zpos q * 2 ^ (j - (prec - d))).
  - replace (d - prec) with (- j + (j - (prec - d))) by lia.
    apply binary_round_aux_exact; [lia| |lia].
    replace (- j + (j - (prec - d))) with (d - prec) by lia.
    rewrite Hdq. unfold fexp, emin. lia.
  - rewrite Hq, <- Z.mul_assoc, <- Z.pow_add_r by lia. do 2 f_equal. lia.
Qed.

Lemma binary_normalize_integer z j sz :
  z <> 0 -> Zdigits2 (Z.abs z) <= prec -> 0 <= j ->
  binary_normalize prec emax (z * 2 ^ j) (- j) sz = canonical prec (z <? 0) (Z.abs z).
Proof.
  intros Hz Hd Hj.
  assert (Hp : 0 < 2 ^ j) by (apply Z.pow_pos_nonneg; lia).
  unfold binary_normalize.
  destruct (z * 2 ^ j) as [|m|m] eqn:E; [nia| |].
  - assert (0 < z) by nia.
    destruct (Z.ltb_spec z 0); [lia|].
    rewrite <- (binary_round_integer false (Z.abs z) j) by lia.
    replace (Z.abs z) with z by lia. now rewrite E.
  - assert (z < 0) by nia.
    destruct (Z.ltb_spec z 0); [|lia].
    rewrite <- (binary_round_integer true (Z.abs z) j) by lia.
    now replace (Z.abs z * 2 ^ j) with (Zpos m) by lia.
Qed.

Lemma shl_align_fst m e e' :
  e' <= e -> Zpos (fst (shl_align m e e')) = Zpos m * 2 ^ (e - e').
Proof.
  intros He. unfold shl_align.
  destruct (e' - e) as [|d|d] eqn:E; cbn [fst]; [|lia|].
  - replace (e - e') with 0 by lia. lia.
  - rewrite iter_xO. do 2 f_equal. lia.
Qed.

End ExactRounding.

Section Integers.
Local Open Scope Z_scope.

(** The binary32 value of an integer. *)
Local Abbreviation int32 := (fun z : Z => binary_normalize 24 128 z 0 false).

Lemma digits_bound a : 0 < a -> a < 2 ^ 24 -> Zdigits2 a <= 24.
Proof.
  intros Ha Hb. rewrite Zdigits2_log2 by lia.
  assert (Z.log2 a < 24) by (apply Z.log2_lt_pow2; lia). lia.
Qed.

Lemma int32_pos a :
  0 < a -> a < 2 ^ 24 -> int32 a = canonical 24 false a.
Proof.
  intros Ha Hb. destruct a as [|p|p]; try lia. cbn [binary_normalize].
  apply (binary_round_integer0 24 128); try lia. now apply digits_bound.
Qed.

Lemma int32_neg a :
  0 < a -> a < 2 ^ 24 -> int32 (- a) = canonical 24 true a.
Proof.
  intros Ha Hb. destruct a as [|p|p]; try lia. cbn [binary_normalize Z.opp].
  apply (binary_round_integer0 24 128); try lia. now apply digits_bound.
Qed.

Lemma int32_canonical z :
  z <> 0 -> Z.abs z < 2 ^ 24 -> int32 z = canonical 24 (z <? 0) (Z.abs z).
Proof.
  intros Hz Hb. destruct (Z.ltb_spec z 0).
  - replace z with (- Z.abs z) at 1 by lia. apply int32_neg; lia.
  - replace z with (Z.abs z) at 1 by lia. apply int32_pos; lia.
Qed.

(** Integers below [2^24] pass through a [Float32Array] unchanged. *)
Lemma of_number_integer z :
  Z.abs z < 2 ^ 24 -> F32.of_number (F64.of_Z z) = int32 z.
Proof.
  intros Hb. destruct (Z.eq_dec z 0) as [->|Hz]; [reflexivity|].
  rewrite int32_canonical by assumption.
  assert (Hd : Zdigits2 (Z.abs z) <= 24) by (apply digits_bound; lia).
  pose proof (Zdigits2_pos (Z.abs z) ltac:(lia)) as Hd0.
  assert (E : F64.of_Z z = canonical 53 (z <? 0) (Z.abs z)).
  { unfold F64.of_Z, F64.prec, F64.emax.
    destruct z as [|p|p]; [lia| |];
      [change (Z.abs (Zpos p)) with (Zpos p) in *
      |change (Z.abs (Zneg p)) with (Zpos p) in *];
      apply (binary_round_integer0 53 1024); lia. }
  rewrite E. unfold canonical at 1. cbn [F32.of_number].
  replace (Zdigits2 (Z.abs z) - 53) with (- (53 - Zdigits2 (Z.abs z))) by lia.
  apply (binary_round_integer 24 128); lia.
Qed.

(** And read back as the numbers they are. *)
Lemma to_number_integer z :
  Z.abs z < 2 ^ 24 -> F32.to_number (int32 z) = F64.of_Z z.
Proof.
  intros Hb. destruct (Z.eq_dec z 0) as [->|Hz]; [reflexivity|].
  rewrite int32_canonical by assumption.
  assert (Hd : Zdigits2 (Z.abs z) <= 24) by (apply digits_bound; lia).
  pose proof (Zdigits2_pos (Z.abs z) ltac:(lia)) as Hd0.
  unfold canonical. cbn [F32.to_number]. unfold F64.prec, F64.emax.
  replace (Zdigits2 (Z.abs z) - 24) with (- (24 - Zdigits2 (Z.abs z))) by lia.
  rewrite (binary_round_integer 53 1024) by lia.
  unfold F64.of_Z, F64.prec, F64.emax.
  destruct z as [|p|p]; [lia| |];
    [change (Z.abs (Zpos p)) with (Zpos p) in *
    |change (Z.abs (Zneg p)) with (Zpos p) in *];
    symmetry; apply (binary_round_integer0 53 1024); lia.
Qed.

Lemma digits_mul a b :
  0 < a -> 0 < b -> Zdigits2 a + Zdigits2 b - 1 <= Zdigits2 (a * b).
Proof.
  intros Ha Hb. rewrite !Zdigits2_log2 by nia.
  pose proof (Z.log2_mul_below a b Ha Hb). lia.
Qed.

(** The product of two integers is exact when it is below [2^24]. *)
Lemma mul_canonical sa sb a b :
  0 < a -> 0 < b -> a * b < 2 ^ 24 ->
  SFmul 24 128 (canonical 24 sa a) (canonical 24 sb b)
  = canonical 24 (xorb sa sb) (a * b).
Proof.
  intros Ha Hb Hab.
  assert (Hda : Zdigits2 a <= 24) by (apply digits_bound; nia).
  assert (Hdb : Zdigits2 b <= 24) by (apply digits_bound; nia).
  assert (Hdab : Zdigits2 (a * b) <= 24) by (apply digits_bound; nia).
  pose proof (digits_mul a b Ha Hb) as Hd.
  pose proof (Zdigits2_pos a Ha). pose proof (Zdigits2_pos b Hb).
  assert (Hpa : 0 < 2 ^ (24 - Zdigits2 a)) by (apply Z.pow_pos_nonneg; lia).
  assert (Hpb : 0 < 2 ^ (24 - Zdigits2 b)) by (apply Z.pow_pos_nonneg; lia).
  unfold canonical at 1 2. cbn [SFmul].
  rewrite Pos2Z.inj_mul, !Z2Pos.id by nia.
  replace (a * 2 ^ (24 - Zdigits2 a) * (b * 2 ^ (24 - Zdigits2 b)))
    with (a * b * 2 ^ (48 - Zdigits2 a - Zdigits2 b)).
  - replace (Zdigits2 a - 24 + (Zdigits2 b - 24)) with (- (48 - Zdigits2 a - Zdigits2 b)) by lia.
    apply (binary_round_aux_integer 24 128); lia.
  - replace (48 - Zdigits2 a - Zdigits2 b) with ((24 - Zdigits2 a) + (24 - Zdigits2 b)) by lia.
    rewrite Z.pow_add_r by lia. ring.
Qed.

(** The sum of two integers is exact when it is below [2^24]. *)
Lemma add_canonical sa sb a b :
  0 < a -> a < 2 ^ 24 -> 0 < b -> b < 2 ^ 24 ->
  Z.abs (cond_Zopp sa a + cond_Zopp sb b) < 2 ^ 24 ->
  SFadd 24 128 (canonical 24 sa a) (canonical 24 sb b)
  = int32 (cond_Zopp sa a + cond_Zopp sb b).
Proof.
  intros Ha Ha' Hb Hb' Hz.
  assert (Hda : Zdigits2 a <= 24) by now apply digits_bound.
  assert (Hdb : Zdigits2 b <= 24) by now apply digits_bound.
  pose proof (Zdigits2_pos a Ha). pose proof (Zdigits2_pos b Hb).
  assert (Hpa : 0 < 2 ^ (24 - Zdigits2 a)) by (apply Z.pow_pos_nonneg; lia).
  assert (Hpb : 0 < 2 ^ (24 - Zdigits2 b)) by (apply Z.pow_pos_nonneg; lia).
  unfold canonical. cbn [SFadd].
  set (ez := Z.min (Zdigits2 a - 24) (Zdigits2 b - 24)).
  rewrite !shl_align_fst, !Z2Pos.id by (unfold ez; nia).
  set (z := cond_Zopp sa a + cond_Zopp sb b) in *.
  replace (cond_Zopp sa (a * 2 ^ (24 - Zdigits2 a) * 2 ^ (Zdigits2 a - 24 - ez))
           + cond_Zopp sb (b * 2 ^ (24 - Zdigits2 b) * 2 ^ (Zdigits2 b - 24 - ez)))
    with (z * 2 ^ (- ez)).
  - destruct (Z.eq_dec z 0) as [->|Hz0]; [reflexivity|].
    replace ez with (- - ez) at 2 by lia.
    rewrite (binary_normalize_integer 24 128) by (try lia; apply digits_bound; lia).
    symmetry. now apply int32_canonical.
  - rewrite <- !Z.mul_assoc, <- !Z.pow_add_r by (unfold ez; lia).
    replace (24 - Zdigits2 a + (Zdigits2 a - 24 - ez)) with (- ez) by lia.
    replace (24 - Zdigits2 b + (Zdigits2 b - 24 - ez)) with (- ez) by lia.
    unfold z. destruct sa, sb; cbn [cond_Zopp]; ring.
Qed.

End Integers.

Section IntegerProduct.
Local Open Scope Z_scope.

Local Abbreviation int32 := (fun z : Z => binary_normalize 24 128 z 0 false).

(** A term of the sum: the product, or a zero of either sign when the
    product is 0. *)
Lemma mul_int32 x y :
  Z.abs x < 2 ^ 24 -> Z.abs y < 2 ^ 24 -> Z.abs (x * y) < 2 ^ 24 ->
  SFmul 24 128 (int32 x) (int32 y) = int32 (x * y) \/
  (x * y = 0 /\ exists s, SFmul 24 128 (int32 x) (int32 y) = S754_zero s).
Proof.
  intros Hx Hy Hxy.
  destruct (Z.eq_dec x 0) as [->|Hx0].
  { right. split; [lia|]. destruct (Z.eq_dec y 0) as [->|Hy0]; [cbn; eauto|].
    rewrite (int32_canonical y) by assumption. cbn. eauto. }
  destruct (Z.eq_dec y 0) as [->|Hy0].
  { right. split; [lia|]. rewrite (int32_canonical x) by assumption. cbn. eauto. }
  left. rewrite (int32_canonical x), (int32_canonical y) by assumption.
  rewrite mul_canonical by (rewrite <- ?Z.abs_mul; lia).
  rewrite (int32_canonical (x * y)) by (try assumption; nia).
  rewrite Z.abs_mul. f_equal.
  destruct (Z.ltb_spec x 0), (Z.ltb_spec y 0), (Z.ltb_spec (x * y) 0);
    try reflexivity; nia.
Qed.

Lemma add_int32 s p t :
  Z.abs s < 2 ^ 24 -> Z.abs p < 2 ^ 24 -> Z.abs (s + p) < 2 ^ 24 ->
  t = int32 p \/ (p = 0 /\ exists sg, t = S754_zero sg) ->
  SFadd 24 128 (int32 s) t = int32 (s + p).
Proof.
  intros Hs Hp Hsp Ht.
  assert (Hzero : forall sg, SFadd 24 128 (int32 s) (S754_zero sg) = int32 s).
  { intros sg. destruct (Z.eq_dec s 0) as [->|Hs0]; [now destruct sg|].
    now rewrite (int32_canonical s) by assumption. }
  destruct (Z.eq_dec p 0) as [->|Hp0].
  { rewrite Z.add_0_r. destruct Ht as [->|(_ & sg & ->)]; apply Hzero. }
  destruct Ht as [->|[? _]]; [|contradiction].
  destruct (Z.eq_dec s 0) as [->|Hs0].
  { rewrite Z.add_0_l, (int32_canonical p) by assumption. reflexivity. }
  rewrite (int32_canonical s), (int32_canonical p) by assumption.
  rewrite add_canonical by
    (try lia;
     destruct (Z.ltb_spec s 0), (Z.ltb_spec p 0); cbn [cond_Zopp]; lia).
  f_equal. destruct (Z.ltb_spec s 0), (Z.ltb_spec p 0); cbn [cond_Zopp]; lia.
Qed.

(** A sum of products of integers bounded by [K], started from an integer,
    stays exact as long as its bound stays below [2^24]. *)
Lemma fold_integers (K : Z) (x y : nat -> Z) (l : list nat) : forall s,
  (forall i, In i l -> Z.abs (x i) <= K /\ Z.abs (y i) <= K) ->
  Z.abs s + Z.of_nat (length l) * (K * K) < 2 ^ 24 ->
  fold_left (fun acc i => SFadd 24 128 acc (SFmul 24 128 (int32 (x i)) (int32 (y i))))
    l (int32 s)
  = int32 (fold_left (fun acc i => acc + x i * y i) l s).
Proof.
  induction l as [|i l IH]; intros s Hl Hs; [reflexivity|].
  cbn [fold_left]. cbn [length] in Hs.
  destruct (Hl i) as [Hx Hy]; [now left|].
  assert (Hxy : Z.abs (x i * y i) <= K * K) by (rewrite Z.abs_mul; nia).
  assert (HK : Z.abs (x i) <= K * K /\ Z.abs (y i) <= K * K) by nia.
  assert (Hlen : Z.of_nat (S (length l)) * (K * K)
                 = K * K + Z.of_nat (length l) * (K * K)) by lia.
  assert (0 <= Z.of_nat (length l) * (K * K)) by nia.
  rewrite (add_int32 s (x i * y i)); try lia.
  - apply IH; [intros j Hj; apply Hl; now right|lia].
  - apply mul_int32; lia.
Qed.

End IntegerProduct.

Lemma matrix_eq {A} (n : nat) (m m' : list (list A)) :
  length m = n -> length m' = n ->
  Forall (fun r => length r = n) m -> Forall (fun r => length r = n) m' ->
  (forall row col, (row < n)%nat -> (col < n)%nat -> cell m row col = cell m' row col) ->
  m = m'.
Proof.
  intros Hl Hl' Hr Hr' Hcell. apply list_eq. intros row.
  destruct (decide (row < n)%nat) as [Hrow|Hrow].
  - destruct (lookup_lt_is_Some_2 m row) as [r Er]; [lia|].
    destruct (lookup_lt_is_Some_2 m' row) as [r' Er']; [lia|].
    rewrite Er, Er'. f_equal. apply list_eq. intros col.
    pose proof (Forall_lookup_1 _ _ _ _ Hr Er) as Lr.
    pose proof (Forall_lookup_1 _ _ _ _ Hr' Er') as Lr'. cbn in Lr, Lr'.
    destruct (decide (col < n)%nat) as [Hcol|Hcol].
    + specialize (Hcell row col Hrow Hcol). unfold cell in Hcell.
      now rewrite Er, Er' in Hcell.
    + rewrite !(proj2 (lookup_ge_None _ _)) by lia. reflexivity.
  - rewrite !(proj2 (lookup_ge_None _ _)) by lia. reflexivity.
Qed.

(** ** Decoding and encoding again *)

Section ReadBack.
Local Open Scope Z_scope.

(** A binary32 value read as a number and stored again is the value. *)
Lemma of_number_to_number v : is_f32 v -> F32.of_number (F32.to_number v) = v.
Proof.
  intros [->|[s|s|s m e Hb]]; try reflexivity.
  destruct (bounded_inv m e Hb) as [Hc He].
  set (d := Zpos (digits2_pos m)) in *.
  assert (Hd : 0 < d) by (unfold d; lia).
  assert (Hd24 : d <= 24 /\ -149 <= e) by (unfold fexp, emin in Hc; lia).
  set (k := Z.to_pos (53 - d)).
  assert (Hk : Zpos k = 53 - d) by (apply Z2Pos.id; lia).
  cbn [F32.to_number]. unfold F64.prec, F64.emax.
  rewrite (binary_round_shl 53 1024 s m k e);
    [|fold d; unfold fexp, emin; lia|lia].
  cbn [F32.of_number]. unfold F32.prec, F32.emax.
  replace (Pos.iter xO m k) with (Z.to_pos (Zpos m * 2 ^ Zpos k))
    by (rewrite <- iter_xO; reflexivity).
  replace e with (e - Zpos k + Zpos k) at 2 by lia.
  apply binary_round_shr; [lia| |lia].
  replace (e - Zpos k + Zpos k) with e by lia. exact Hc.
Qed.

Lemma of_number_is_f32 v : is_f32 (F32.of_number v).
Proof.
  destruct v as [s|s| |s m e]; cbn [F32.of_number].
  - right. constructor.
  - right. constructor.
  - now left.
  - right. apply binary_round_rounded. reflexivity.
Qed.

End ReadBack.

Section Decode.
Variable MATRIX_SIZE : N.
Variable env : Env.

Lemma concat_chunks {A} (n : nat) (k : nat) : forall data : list A,
  length data = (k * n)%nat ->
  concat (map (fun i => take n (drop (i * n) data)) (seq 0 k)) = data.
Proof.
  induction k as [|k IH]; intros data Hlen.
  - destruct data; [reflexivity|discriminate].
  - cbn [seq map concat]. change (0 * n)%nat with 0%nat. rewrite drop_0.
    transitivity (take n data ++ drop n data); [|apply take_drop]. f_equal.
    rewrite <- seq_shift, map_map.
    etransitivity; [|apply (IH (drop n data)); rewrite length_drop; lia].
    f_equal. apply map_ext. intros i. rewrite drop_drop. do 2 f_equal; lia.
Qed.

Lemma flatten_read st m css :
  read_matrix (objects st) m = Some css ->
  flatten m st = (Return (Float32Array (concat (map flat_row css))), st).
Proof.
  intros (rs & Hm & Hrs)%read_matrix_Some.
  unfold flatten, flat. rewrite !bind_unfold. unfold rows_of at 1. rewrite Hm.
  rewrite bind_unfold, (flat_rows_read _ _ _ Hrs). reflexivity.
Qed.

(** X9.  The other way round from C2: cutting [MATRIX_SIZE * MATRIX_SIZE]
    binary32 values into rows, as [multiplyMatrices] does with what it read
    back from the device, and flattening the matrix made gives the same
    values again: every finite value, the infinities and the zeros of
    either sign as they were, and a NaN where there was a NaN.  (There is
    one NaN here: which of its encodings a [Float32Array] holds is left to
    the implementation and is not stated.) *)
Theorem flatten_reconstruct_exact data st dev :
  throws env 163 = None ->
  length data = N.to_nat (MATRIX_SIZE * MATRIX_SIZE) ->
  Forall is_f32 data ->
  exists r h',
    reconstruct MATRIX_SIZE env data (mkWorld st dev)
    = (Return r, mkWorld (setObjects h' st) dev) /\
    objects st !! r = None /\
    flatten r (setObjects h' st) = (Return data, setObjects h' st).
Proof.
  intros Hq Hlen Hdata.
  destruct (reconstruct_ok MATRIX_SIZE env data st dev Hq) as (h' & Hrun & Hread & _).
  exists (fresh (dom (objects st))), h'. split; [exact Hrun|].
  split; [apply fresh_lookup|].
  rewrite (flatten_read _ _ (rows_of_data MATRIX_SIZE data)) by exact Hread.
  do 2 f_equal.
  transitivity (map (fun v => F32.of_number (F32.to_number v)) data).
  - rewrite <- (concat_chunks (N.to_nat MATRIX_SIZE) (N.to_nat MATRIX_SIZE) data) at 2
      by lia.
    unfold rows_of_data, row_of_data, upto, Float32Array.
    rewrite concat_map, !map_map, concat_map, map_map. f_equal.
    apply map_ext. intros i. unfold Array_from, slice.
    replace (N.to_nat (N.of_nat i * MATRIX_SIZE + MATRIX_SIZE)
             - N.to_nat (N.of_nat i * MATRIX_SIZE))%nat
      with (N.to_nat MATRIX_SIZE) by lia.
    replace (N.to_nat (N.of_nat i * MATRIX_SIZE)) with (i * N.to_nat MATRIX_SIZE)%nat by lia.
    generalize (take (N.to_nat MATRIX_SIZE) (drop (i * N.to_nat MATRIX_SIZE) data)).
    intros l. induction l as [|v l IH]; [reflexivity|].
    cbn [map]. unfold flat_row in *. rewrite filter_cons_True by discriminate.
    cbn [map]. now rewrite IH.
  - rewrite <- (map_id data) at 2. apply map_ext_in. intros v Hv.
    apply of_number_to_number.
    rewrite Forall_forall in Hdata. apply Hdata. now apply list_elem_of_In.
Qed.
End Decode.

Lemma flatten_reconstruct_exact_witness :
  exists r h',
    reconstruct 2 quiet one_to_four (mkWorld (initial_state 2) (mkDevice [] []))
    = (Return r, mkWorld (setObjects h' (initial_state 2)) (mkDevice [] [])) /\
    objects (initial_state 2) !! r = None /\
    flatten r (setObjects h' (initial_state 2))
    = (Return one_to_four, setObjects h' (initial_state 2)).
Proof.
  apply (flatten_reconstruct_exact 2 quiet one_to_four (initial_state 2)
           (mkDevice [] [])).
  - reflexivity.
  - reflexivity.
  - unfold one_to_four. repeat constructor; apply of_number_is_f32.
Defined.

(** ** Matrices of integers *)

Section IntegerMatrices.
Variable MATRIX_SIZE : N.
Variable env : Env.

Local Abbreviation n := (N.to_nat MATRIX_SIZE).
Local Abbreviation int32 := (fun z : Z => binary_normalize 24 128 z 0 false).

Lemma cell_nth (m : list (list Z)) row col x :
  cell m row col = Some x -> nth col (nth row m []) 0%Z = x.
Proof.
  intros (r & Hr & Hx)%cell_Some.
  rewrite (nth_lookup_Some _ _ _ _ Hr). now apply nth_lookup_Some.
Qed.

Lemma cell_Forall {A} (P : A -> Prop) (m : list (list A)) row col x :
  Forall (Forall P) m -> cell m row col = Some x -> P x.
Proof.
  intros H (r & Hr & Hx)%cell_Some.
  eapply Forall_lookup_1 in Hr; [|exact H].
  eapply Forall_lookup_1 in Hx; [|exact Hr]. exact Hx.
Qed.

Lemma cell_exists {A} (m : list (list A)) row col :
  length m = n -> Forall (fun r => length r = n) m ->
  (row < n)%nat -> (col < n)%nat -> exists x, cell m row col = Some x.
Proof.
  intros Hlen Hrows Hrow Hcol.
  destruct (lookup_lt_is_Some_2 m row) as [r Hr]; [lia|].
  pose proof (Forall_lookup_1 _ _ _ _ Hrows Hr) as Lr. cbn in Lr.
  destruct (lookup_lt_is_Some_2 r col) as [x Hx]; [lia|].
  exists x. apply cell_Some. eauto.
Qed.

Lemma cell_integer_product (a b : list (list Z)) row col rowl :
  a !! row = Some rowl -> (col < length rowl)%nat ->
  cell (integer_product a b) row col
  = Some (fold_left Z.add
            (map (fun i => (nth i rowl 0 * nth col (nth i b []) 0)%Z)
               (seq 0 (length rowl))) 0%Z).
Proof.
  intros Hr Hcol. unfold cell, integer_product.
  change (map ?f ?l) with (f <$> l) at 1.
  rewrite list_lookup_fmap, Hr. cbn [fmap option_fmap option_map mbind option_bind].
  change (map ?f (seq 0 (length rowl))) with (f <$> seq 0 (length rowl)) at 1.
  rewrite list_lookup_fmap, lookup_seq_lt by assumption. reflexivity.
Qed.

Lemma fold_bound (K : Z) (x y : nat -> Z) (l : list nat) : forall s,
  (forall i, In i l -> Z.abs (x i) <= K /\ Z.abs (y i) <= K)%Z ->
  (Z.abs (fold_left (fun acc i => acc + x i * y i) l s)
   <= Z.abs s + Z.of_nat (length l) * (K * K))%Z.
Proof.
  induction l as [|i l IH]; intros s Hl; cbn [fold_left length]; [lia|].
  destruct (Hl i) as [Hx Hy]; [now left|].
  assert (Hxy : (Z.abs (x i * y i) <= K * K)%Z) by (rewrite Z.abs_mul; nia).
  specialize (IH (s + x i * y i)%Z ltac:(intros j Hj; apply Hl; now right)).
  lia.
Qed.

(** X10.  On matrices of integers the shader computes the exact product.
    With IEEE arithmetic, for a dimension up to 8 and two matrices of
    integers of absolute value at most [K], with
    [MATRIX_SIZE * K * K < 2^24]: what the invocations of the dispatched
    workgroup, run in any order, leave in the output buffer for the two
    flattened matrices is, cut into rows, the matrix product over the
    integers, no rounding anywhere.  This is about the shader's code as a
    function of its buffers: the page never gets it to run. *)
Theorem kernel_integers_exact (a b : list (list Z)) (K : Z) :
  MATRIX_SIZE <= 8 ->
  runs_each_once env ->
  square MATRIX_SIZE (map (map F64.of_Z) a) ->
  square MATRIX_SIZE (map (map F64.of_Z) b) ->
  Forall (Forall (fun x => Z.abs x <= K)%Z) a ->
  Forall (Forall (fun x => Z.abs x <= K)%Z) b ->
  (Z.of_N MATRIX_SIZE * (K * K) < 2 ^ 24)%Z ->
  rows_of_data MATRIX_SIZE
    (@kernel_output ieee754 MATRIX_SIZE env (map (map F64.of_Z) a) (map (map F64.of_Z) b))
  = map (map (fun k => Num (F64.of_Z k))) (integer_product a b).
Proof.
  intros Hn Hs Sa Sb Ka Kb HK.
  destruct (@kernel_cells ieee754 MATRIX_SIZE env
              (map (map F64.of_Z) a) (map (map F64.of_Z) b) Hn Hs)
    as (Hlen & Hcols & Hcell).
  assert (La : length a = n) by (destruct Sa as [L _]; now rewrite length_map in L).
  assert (Lb : length b = n) by (destruct Sb as [L _]; now rewrite length_map in L).
  assert (Ra : Forall (fun r => length r = n) a).
  { destruct Sa as [_ R]. apply Forall_map in R.
    eapply Forall_impl; [exact R|]. intros l Hl. cbn in Hl. now rewrite length_map in Hl. }
  assert (Rb : Forall (fun r => length r = n) b).
  { destruct Sb as [_ R]. apply Forall_map in R.
    eapply Forall_impl; [exact R|]. intros l Hl. cbn in Hl. now rewrite length_map in Hl. }
  apply (matrix_eq n); try assumption.
  - unfold integer_product. now rewrite !length_map.
  - unfold integer_product. rewrite map_map. apply Forall_map.
    eapply Forall_impl; [exact Ra|]. intros l Hl. cbn.
    now rewrite !length_map, length_seq.
  - intros row col Hrow Hcol.
    rewrite (Hcell row col Hrow Hcol), cell_map.
    destruct (lookup_lt_is_Some_2 a row) as [rowl Hrowl]; [lia|].
    pose proof (Forall_lookup_1 _ _ _ _ Ra Hrowl) as Lrow. cbn in Lrow.
    rewrite (cell_integer_product a b row col rowl) by (assumption || lia).
    cbn [fmap option_fmap option_map]. do 2 f_equal.
    rewrite accumulate_dot_product; try assumption; [|unfold u32_modulus; nia].
    unfold dot_product. cbn [f32_add f32_mul ieee754].
    set (x := fun i => nth i rowl 0%Z).
    set (y := fun i => nth col (nth i b []) 0%Z).
    assert (Hterms : forall i, In i (seq 0 n) ->
              (Z.abs (x i) <= K /\ Z.abs (y i) <= K)%Z /\
              entry (map (map F32.of_number) (map (map F64.of_Z) a)) row i = int32 (x i) /\
              entry (map (map F32.of_number) (map (map F64.of_Z) b)) i col = int32 (y i)).
    { intros i Hi. apply in_seq in Hi.
      destruct (cell_exists a row i La Ra) as [xi Hxi]; [lia..|].
      destruct (cell_exists b i col Lb Rb) as [yi Hyi]; [lia..|].
      pose proof (cell_Forall _ _ _ _ _ Ka Hxi) as Bx. cbn in Bx.
      pose proof (cell_Forall _ _ _ _ _ Kb Hyi) as By. cbn in By.
      assert (Ex : x i = xi).
      { unfold x. rewrite <- (nth_lookup_Some _ _ [] _ Hrowl). now apply cell_nth. }
      assert (Ey : y i = yi) by (unfold y; now apply cell_nth).
      assert (HKK : (K <= K * K \/ K <= 0)%Z) by nia.
      assert (0 < Z.of_N MATRIX_SIZE)%Z by lia.
      rewrite Ex, Ey. split; [lia|]. split.
      - rewrite (entry_cell (map (map F64.of_Z) a) row i (F64.of_Z xi))
          by (rewrite cell_map, Hxi; reflexivity).
        apply of_number_integer. nia.
      - rewrite (entry_cell (map (map F64.of_Z) b) i col (F64.of_Z yi))
          by (rewrite cell_map, Hyi; reflexivity).
        apply of_number_integer. nia. }
    rewrite (fold_left_ext_in _
               (fun acc i => SFadd 24 128 acc (SFmul 24 128 (int32 (x i)) (int32 (y i)))))
      by (intros s i Hi; destruct (Hterms i Hi) as (_ & -> & ->); reflexivity).
    change F32.zero with (binary_normalize 24 128 0%Z 0 false).
    rewrite (fold_integers K x y).
    + rewrite to_number_integer.
      * rewrite fold_left_through_map, Lrow. f_equal.
      * pose proof (fold_bound K x y (seq 0 n) 0%Z
                      ltac:(intros i Hi; apply (Hterms i Hi))) as Hbnd.
        rewrite length_seq in Hbnd. lia.
    + intros i Hi. apply (Hterms i Hi).
    + rewrite length_seq. lia.
Qed.

End IntegerMatrices.

Lemma kernel_integers_exact_witness :
  rows_of_data 4
    (@kernel_output ieee754 4 backwards
       (map (map F64.of_Z) one_to_sixteen) (map (map F64.of_Z) one_to_sixteen))
  = map (map (fun k => Num (F64.of_Z k))) (integer_product one_to_sixteen one_to_sixteen).
Proof.
  apply (kernel_integers_exact 4 backwards one_to_sixteen one_to_sixteen 16).
  - lia.
  - exact backwards_runs_each_once.
  - split; [reflexivity|]. vm_compute. repeat constructor.
  - split; [reflexivity|]. vm_compute. repeat constructor.
  - repeat constructor; cbn; lia.
  - repeat constructor; cbn; lia.
  - reflexivity.
Defined.

(** ** The matrices the page starts with *)

Section Literals.

Lemma new_rows_spec vals : forall st,
  exists ls h',
    new_rows vals st = (Return ls, setObjects h' st) /\
    Forall2 (fun l r => h' !! l = Some (Cells (map Num r))) ls vals /\
    forall l a, objects st !! l = Some a -> h' !! l = Some a.
Proof.
  induction vals as [|r vals IH]; intros st.
  - exists [], (objects st). split; [destruct st; reflexivity|]. split; [constructor|auto].
  - cbn [new_rows]. rewrite bind_unfold. unfold alloc at 1.
    set (l := fresh (dom (objects st))).
    set (st1 := setObjects (<[l := Cells (map Num r)]> (objects st)) st).
    destruct (IH st1) as (ls & h' & Hrun & Hls & Hframe).
    exists (l :: ls), h'. rewrite bind_unfold, Hrun. split; [reflexivity|]. split.
    + constructor; [|exact Hls]. apply Hframe. cbn. apply lookup_insert_eq.
    + intros l' a Hl'. apply Hframe. cbn. rewrite lookup_insert_ne; [exact Hl'|].
      intros <-. unfold l in Hl'. now rewrite fresh_lookup in Hl'.
Qed.

Lemma new_matrix_spec vals st :
  exists m h',
    new_matrix vals st = (Return m, setObjects h' st) /\
    holds h' m vals /\
    forall l a, objects st !! l = Some a -> h' !! l = Some a.
Proof.
  destruct (new_rows_spec vals st) as (ls & h1 & Hrun & Hls & Hframe).
  unfold new_matrix. rewrite bind_unfold, Hrun. unfold alloc. cbn [objects setObjects].
  set (m := fresh (dom h1)).
  assert (Hkeep : forall l a, h1 !! l = Some a -> <[m := Rows ls]> h1 !! l = Some a).
  { intros l a Hl. rewrite lookup_insert_ne; [exact Hl|].
    intros <-. unfold m in Hl. now rewrite fresh_lookup in Hl. }
  exists m, (<[m := Rows ls]> h1). split; [reflexivity|]. split.
  - apply read_matrix_Some. exists ls. split; [apply lookup_insert_eq|].
    apply Forall2_fmap_r. eapply Forall2_impl; [exact Hls|].
    intros l r Hl. now apply Hkeep.
  - intros l a Hl. apply Hkeep, Hframe, Hl.
Qed.

(** A state made of two matrix literals holds them. *)
Lemma state_with_holds a b :
  let st := state_with a b in
  holds (objects st) (matrixA st) a /\ holds (objects st) (matrixB st) b /\
  resultMatrix st = None /\ error st = None /\ loading st = false.
Proof.
  unfold state_with.
  set (st0 := mkState ∅ 1%positive 1%positive None None false).
  destruct (new_matrix_spec a st0) as (la & h1 & Ha & Hha & _).
  destruct (new_matrix_spec b (setObjects h1 st0)) as (lb & h2 & Hb & Hhb & Hframe).
  rewrite bind_unfold, Ha, bind_unfold, Hb. cbn.
  repeat split; try assumption.
  eapply read_matrix_frame; [|exact Hha].
  intros l [x Hl]. cbn in Hframe. rewrite Hl. now apply Hframe.
Qed.

End Literals.

Section FirstClick.
Variable MATRIX_SIZE : N.

Local Abbreviation n := (N.to_nat MATRIX_SIZE).

Lemma lookup_initial_matrixB i r :
  initial_matrixB MATRIX_SIZE !! i = Some r ->
  (i < n)%nat /\
  r = imap (fun j _ => F64.of_Z (Z.of_nat i * Z.of_N MATRIX_SIZE + Z.of_nat j + 1))
        (replicate n (F64.of_Z 0)).
Proof.
  unfold initial_matrixB, createDefaultMatrix. rewrite list_lookup_imap.
  destruct (replicate n _ !! i) as [r0|] eqn:E; [|discriminate].
  apply lookup_replicate in E as [-> Hi]. intros [= <-]. now split.
Qed.

Lemma square_initial_matrixB : square MATRIX_SIZE (initial_matrixB MATRIX_SIZE).
Proof.
  split.
  - unfold initial_matrixB, createDefaultMatrix.
    now rewrite length_imap, length_replicate.
  - apply Forall_lookup_2. intros i r Hr.
    apply lookup_initial_matrixB in Hr as [_ ->].
    now rewrite length_imap, length_replicate.
Qed.

End FirstClick.

(** ** Edits of a cell *)

Section Edits.
Variable parseFloat : string -> number.

Lemma updateMatrix_run st matrix setMatrix row col value rs rl cs :
  objects st !! matrix = Some (Rows rs) ->
  rs !! row = Some rl ->
  objects st !! rl = Some (Cells cs) ->
  let num := parseFloat value in
  let v := if F64.isNaN num then F64.of_Z 0 else num in
  updateMatrix parseFloat matrix setMatrix row col value st
  = (Return tt,
     setMatrix (fresh (dom (objects st)))
       (setObjects (edited (objects st) rs cs row col v) st)).
Proof.
  intros Hm Hrl Hcells num v.
  set (h := objects st) in *.
  set (newMatrix := fresh (dom h)).
  set (h1 := <[newMatrix := Rows rs]> h).
  set (newRow := fresh (dom h1)).
  set (h2 := <[newRow := Cells (spread cs)]> h1).
  set (h3 := <[newMatrix := Rows (<[row := newRow]> rs)]> h2).
  assert (Hfresh1 : h !! newMatrix = None) by apply fresh_lookup.
  assert (Hfresh2 : h1 !! newRow = None) by apply fresh_lookup.
  assert (Hne : newRow <> newMatrix).
  { intros E. rewrite E in Hfresh2. unfold h1 in Hfresh2.
    now rewrite lookup_insert_eq in Hfresh2. }
  assert (Hrow_lt : (row < length rs)%nat) by (eapply lookup_lt_Some; eauto).
  unfold updateMatrix. rewrite bind_unfold. unfold rows_of at 1. fold h. rewrite Hm.
  rewrite bind_unfold. unfold alloc at 1. fold h. fold newMatrix. fold h1.
  rewrite Hrl. rewrite bind_unfold. unfold cells_of at 1. cbn [objects setObjects].
  unfold h1 at 1. rewrite lookup_insert_ne by congruence. fold h. rewrite Hcells.
  rewrite bind_unfold. unfold alloc at 1. cbn [objects setObjects].
  fold newRow. fold h2.
  rewrite bind_unfold. unfold store_row. rewrite bind_unfold.
  unfold rows_of at 1. cbn [objects setObjects].
  unfold h2 at 1. rewrite lookup_insert_ne by auto.
  unfold h1 at 1. rewrite lookup_insert_eq.
  unfold modify at 1. cbn [objects setObjects]. fold h3.
  rewrite bind_unfold. unfold rows_of at 1. cbn [objects setObjects].
  unfold h3 at 1. rewrite lookup_insert_eq.
  rewrite list_lookup_insert_eq by assumption.
  rewrite bind_unfold. unfold store_cell. rewrite bind_unfold.
  unfold cells_of at 1. cbn [objects setObjects].
  unfold h3 at 1. rewrite lookup_insert_ne by auto.
  unfold h2 at 1. rewrite lookup_insert_eq.
  unfold modify. cbn [objects setObjects]. reflexivity.
Qed.

(** What the heap of an edit holds. *)
Lemma edited_heap (h : gmap loc array) rs cs row col v :
  (row < length rs)%nat ->
  let newMatrix := fresh (dom h) in
  let newRow := fresh (dom (<[newMatrix := Rows rs]> h)) in
  let h' := edited h rs cs row col v in
  h !! newMatrix = None /\ h !! newRow = None /\ newRow <> newMatrix /\
  h' !! newMatrix = Some (Rows (<[row := newRow]> rs)) /\
  h' !! newRow = Some (Cells (array_set (spread cs) col (Num v))) /\
  forall l a, h !! l = Some a -> h' !! l = Some a.
Proof.
  intros Hrow. cbv zeta. unfold edited.
  set (newMatrix := fresh (dom h)).
  set (newRow := fresh (dom (<[newMatrix := Rows rs]> h))).
  assert (Hfresh1 : h !! newMatrix = None) by apply fresh_lookup.
  assert (Hfresh2 : <[newMatrix := Rows rs]> h !! newRow = None) by apply fresh_lookup.
  assert (Hne : newRow <> newMatrix).
  { intros E. rewrite E in Hfresh2. now rewrite lookup_insert_eq in Hfresh2. }
  assert (Hfresh2' : h !! newRow = None).
  { now rewrite lookup_insert_ne in Hfresh2 by auto. }
  repeat split; try assumption.
  - rewrite lookup_insert_ne by auto. apply lookup_insert_eq.
  - apply lookup_insert_eq.
  - intros l a Hl. rewrite !lookup_insert_ne; [exact Hl|congruence..].
Qed.

(** X11.  Whatever the reference, the indices and the text: [updateMatrix]
    changes no array that exists, and it either throws a [TypeError] with no
    setter called (so the page keeps the matrices it had), or returns after
    one call of [setMatrix], with an array that did not exist before. *)
Theorem updateMatrix_never_mutates st matrix setMatrix row col value :
  exists h',
    (forall l a, objects st !! l = Some a -> h' !! l = Some a) /\
    (updateMatrix parseFloat matrix setMatrix row col value st
     = (Throw TypeError, setObjects h' st)
     \/
     exists newMatrix,
       objects st !! newMatrix = None /\
       updateMatrix parseFloat matrix setMatrix row col value st
       = (Return tt, setMatrix newMatrix (setObjects h' st))).
Proof.
  destruct (objects st !! matrix) as [[rs|cs]|] eqn:Hm.
  2,3: exists (objects st); split; [auto|]; left;
       unfold updateMatrix; rewrite bind_unfold; unfold rows_of at 1; rewrite Hm;
       destruct st; reflexivity.
  set (newMatrix := fresh (dom (objects st))).
  set (h1 := <[newMatrix := Rows rs]> (objects st)).
  assert (Hfresh : objects st !! newMatrix = None) by apply fresh_lookup.
  assert (Hframe1 : forall l a, objects st !! l = Some a -> h1 !! l = Some a).
  { intros l a Hl. unfold h1. rewrite lookup_insert_ne; [exact Hl|congruence]. }
  assert (Hstart : forall k,
    updateMatrix parseFloat matrix setMatrix row col value st
    = match rs !! row with
      | None => (Throw TypeError, setObjects h1 st)
      | Some r =>
          match h1 !! r with
          | Some (Cells cs) => k
          | _ => (Throw TypeError, setObjects h1 st)
          end
      end \/ exists r cs, rs !! row = Some r /\ h1 !! r = Some (Cells cs)).
  { intros k. destruct (rs !! row) as [r|] eqn:Hr.
    - destruct (h1 !! r) as [[rs'|cs]|] eqn:Hc; [left| right; eauto |left];
        unfold updateMatrix; rewrite bind_unfold; unfold rows_of at 1; rewrite Hm;
        rewrite bind_unfold; unfold alloc at 1; fold newMatrix; fold h1; rewrite Hr;
        rewrite bind_unfold; unfold cells_of at 1; cbn [objects setObjects];
        rewrite Hc; reflexivity.
    - left. unfold updateMatrix. rewrite bind_unfold. unfold rows_of at 1. rewrite Hm.
      rewrite bind_unfold. unfold alloc at 1. fold newMatrix. fold h1. rewrite Hr.
      reflexivity. }
  destruct (Hstart (Throw TypeError, setObjects h1 st)) as [E|(r & cs & Hr & Hc)].
  - exists h1. split; [exact Hframe1|]. left. rewrite E.
    destruct (rs !! row) as [r|]; [|reflexivity].
    now destruct (h1 !! r) as [[|]|].
  - assert (Hc' : objects st !! r = Some (Cells cs)).
    { unfold h1 in Hc. destruct (decide (r = newMatrix)) as [->|Hne].
      - now rewrite lookup_insert_eq in Hc.
      - now rewrite lookup_insert_ne in Hc by auto. }
    pose proof (updateMatrix_run st matrix setMatrix row col value rs r cs Hm Hr Hc')
      as Hrun. cbv zeta in Hrun.
    destruct (edited_heap (objects st) rs cs row col
                (if F64.isNaN (parseFloat value) then F64.of_Z 0 else parseFloat value))
      as (_ & _ & _ & _ & _ & Hframe); [eapply lookup_lt_Some; eauto|].
    eexists. split; [exact Hframe|]. right. exists newMatrix. split; [exact Hfresh|].
    exact Hrun.
Qed.

Lemma array_set_length cs (col : nat) (v : elt) :
  length (array_set cs col v) = max (length cs) (S col).
Proof.
  unfold array_set. destruct (decide (col < length cs)%nat).
  - rewrite length_insert. lia.
  - rewrite !length_app, length_replicate. cbn. lia.
Qed.

Lemma array_set_lookup cs (col : nat) (v : elt) :
  array_set cs col v !! col = Some v.
Proof.
  unfold array_set. destruct (decide (col < length cs)%nat).
  - now apply list_lookup_insert_eq.
  - rewrite lookup_app_r by lia. rewrite lookup_app_r by (rewrite length_replicate; lia).
    rewrite length_replicate. now replace (col - length cs - (col - length cs))%nat with 0%nat by lia.
Qed.

Lemma array_set_other cs (col j : nat) (v : elt) :
  j <> col -> (j < length cs)%nat -> array_set cs col v !! j = cs !! j.
Proof.
  intros Hne Hj. unfold array_set. destruct (decide (col < length cs)%nat).
  - now apply list_lookup_insert_ne.
  - now apply lookup_app_l.
Qed.

Lemma array_set_gap cs (col j : nat) (v : elt) :
  (length cs <= j < col)%nat -> array_set cs col v !! j = Some Hole.
Proof.
  intros Hj. unfold array_set. destruct (decide (col < length cs)%nat); [lia|].
  rewrite lookup_app_r by lia.
  rewrite lookup_app_l by (rewrite length_replicate; lia).
  apply lookup_replicate_2. lia.
Qed.

Lemma edited_read (h : gmap loc array) m rs css cs row col v :
  h !! m = Some (Rows rs) ->
  Forall2 (fun r cs => h !! r = Some (Cells cs)) rs css ->
  css !! row = Some cs ->
  read_matrix (edited h rs cs row col v) (fresh (dom h))
  = Some (<[row := array_set (spread cs) col (Num v)]> css).
Proof.
  intros Hm Hrs Hrow.
  assert (Hlt : (row < length rs)%nat).
  { rewrite (Forall2_length _ _ _ Hrs). eapply lookup_lt_Some; eauto. }
  destruct (edited_heap h rs cs row col v Hlt) as (_ & _ & _ & Hnm & Hnr & Hframe).
  apply read_matrix_Some. eexists. split; [exact Hnm|].
  apply Forall2_insert; [|exact Hnr].
  eapply Forall2_impl; [exact Hrs|]. intros l cs' Hl. now apply Hframe.
Qed.

(** X12.  An edit in an existing row never fails, whatever the column: the
    new row is a copy of the old one as long as the larger of the old
    length and [col + 1], with the cell set to the parsed number (0 for
    NaN); the cells of the old row come along, an empty slot as
    [undefined]; and the places between the old end and the cell are empty
    slots.  The other rows are the old ones. *)
Theorem updateMatrix_grows_row st matrix setMatrix row col value css cs :
  read_matrix (objects st) matrix = Some css ->
  css !! row = Some cs ->
  let num := parseFloat value in
  let v := if F64.isNaN num then F64.of_Z 0 else num in
  let newRow := array_set (spread cs) col (Num v) in
  exists newMatrix h',
    updateMatrix parseFloat matrix setMatrix row col value st
    = (Return tt, setMatrix newMatrix (setObjects h' st)) /\
    read_matrix h' newMatrix = Some (<[row := newRow]> css) /\
    length newRow = max (length cs) (S col) /\
    newRow !! col = Some (Num v) /\
    (forall j, j <> col -> (j < length cs)%nat ->
       newRow !! j = (fun e => match e with Hole => Undefined | _ => e end) <$> cs !! j) /\
    (forall j, (length cs <= j < col)%nat -> newRow !! j = Some Hole).
Proof.
  intros Hread Hrow num v newRow.
  apply read_matrix_Some in Hread as (rs & Hm & Hrs).
  destruct (Forall2_lookup_r _ _ _ _ _ Hrs Hrow) as (rl & Hrl & Hcells).
  exists (fresh (dom (objects st))), (edited (objects st) rs cs row col v).
  split; [now apply (updateMatrix_run st matrix setMatrix row col value rs rl cs)|].
  split; [now apply (edited_read _ matrix)|].
  split; [unfold newRow; rewrite array_set_length; unfold spread; now rewrite length_map|].
  split; [apply array_set_lookup|]. split.
  - intros j Hne Hj. unfold newRow.
    rewrite array_set_other by (unfold spread; rewrite ?length_map; assumption).
    unfold spread. change (map ?f ?l) with (f <$> l). apply list_lookup_fmap.
  - intros j Hj. apply array_set_gap. unfold spread. now rewrite length_map.
Qed.

End Edits.

Lemma updateMatrix_grows_row_witness :
  let st := initial_state 4 in
  let cs := map Num (map F64.of_Z [1; 2; 3; 4]%Z) in
  let num := parseFloat_digits "1" in
  let v := if F64.isNaN num then F64.of_Z 0 else num in
  let newRow := array_set (spread cs) 6 (Num v) in
  exists newMatrix h',
    updateMatrix parseFloat_digits (matrixB st) setMatrixB 0 6 "1" st
    = (Return tt, setMatrixB newMatrix (setObjects h' st)) /\
    read_matrix h' newMatrix
    = Some (<[0%nat := newRow]> (map (map Num) (initial_matrixB 4))) /\
    length newRow = max (length cs) 7 /\
    newRow !! 6%nat = Some (Num v) /\
    (forall j, j <> 6%nat -> (j < length cs)%nat ->
       newRow !! j = (fun e => match e with Hole => Undefined | _ => e end) <$> cs !! j) /\
    (forall j, (length cs <= j < 6)%nat -> newRow !! j = Some Hole).
Proof.
  apply (updateMatrix_grows_row parseFloat_digits (initial_state 4)
           (matrixB (initial_state 4)) setMatrixB 0 6 "1"
           (map (map Num) (initial_matrixB 4))
           (map Num (map F64.of_Z [1; 2; 3; 4]%Z))).
  - exact initial_holds_B.
  - vm_compute. reflexivity.
Defined.

Section EditThenMultiply.
Context {arith : F32Arith}.
Variable parseFloat : string -> number.
Variable MATRIX_SIZE : N.
Variable env : Env.

Lemma array_set_Num r (col : nat) v :
  (col < length r)%nat ->
  array_set (spread (map Num r)) col (Num v) = map Num (<[col := v]> r).
Proof.
  intros Hcol. unfold spread. rewrite map_map. cbn.
  unfold array_set. rewrite length_map. destruct (decide _); [|lia].
  change (map Num ?l) with (Num <$> l). now rewrite list_fmap_insert.
Qed.

Lemma square_insert (m : list (list number)) row r r' :
  square MATRIX_SIZE m -> m !! row = Some r -> length r' = length r ->
  square MATRIX_SIZE (<[row := r']> m).
Proof.
  intros [Hlen Hrows] Hr Hl. split; [now rewrite length_insert|].
  apply Forall_insert; [exact Hrows|].
  rewrite Hl. exact (Forall_lookup_1 _ _ _ _ Hrows Hr).
Qed.

(** The state an edit of a full matrix leaves. *)
Lemma updateMatrix_holds st matrix setMatrix row col value vals r :
  holds (objects st) matrix vals ->
  vals !! row = Some r -> (col < length r)%nat ->
  let num := parseFloat value in
  let v := if F64.isNaN num then F64.of_Z 0 else num in
  exists newMatrix h',
    updateMatrix parseFloat matrix setMatrix row col value st
    = (Return tt, setMatrix newMatrix (setObjects h' st)) /\
    holds h' newMatrix (<[row := <[col := v]> r]> vals) /\
    forall l, is_Some (objects st !! l) -> h' !! l = objects st !! l.
Proof.
  intros Hholds Hrow Hcol num v.
  pose proof Hholds as (rs & Hm & Hrs)%read_matrix_Some.
  assert (Hr : map (map Num) vals !! row = Some (map Num r)).
  { change (map ?f ?l) with (f <$> l). now rewrite list_lookup_fmap, Hrow. }
  destruct (Forall2_lookup_r _ _ _ _ _ Hrs Hr) as (rl & Hrl & Hcells).
  exists (fresh (dom (objects st))), (edited (objects st) rs (map Num r) row col v).
  split; [now apply (updateMatrix_run parseFloat st matrix setMatrix row col value rs rl)|].
  split.
  - unfold holds. rewrite (edited_read _ matrix rs (map (map Num) vals) (map Num r))
      by assumption.
    rewrite array_set_Num by assumption. f_equal. symmetry.
    exact (list_fmap_insert (map Num) vals row (<[col := v]> r)).
  - intros l [a Hl].
    destruct (edited_heap (objects st) rs (map Num r) row col v) as (_ & _ & _ & _ & _ & Hframe);
      [eapply lookup_lt_Some; eauto|].
    rewrite Hl. now apply Hframe.
Qed.

(** X13.  An edit of a cell of matrix A, then a run without failure.  The
    edit keeps the result and the error the page shows and the contents of
    every array; the run then reads the edited matrix: the first buffer of
    the device holds the edited matrix, row after row, rounded to binary32.
    (The result it sets is the matrix of zeros all the same: the dispatch
    is refused.) *)
Theorem edit_then_multiply st a b row col value r :
  no_failure env ->
  holds (objects st) (matrixA st) a -> square MATRIX_SIZE a ->
  holds (objects st) (matrixB st) b -> square MATRIX_SIZE b ->
  a !! row = Some r -> (col < length r)%nat ->
  let num := parseFloat value in
  let v := if F64.isNaN num then F64.of_Z 0 else num in
  let a' := <[row := <[col := v]> r]> a in
  exists st1,
    updateMatrix parseFloat (matrixA st) setMatrixA row col value st = (Return tt, st1) /\
    resultMatrix st1 = resultMatrix st /\ error st1 = error st /\
    (forall m rows, read_matrix (objects st) m = Some rows ->
                    read_matrix (objects st1) m = Some rows) /\
    GPUBuffer.contents <$> buffers (device (multiplyMatrices MATRIX_SIZE env st1)) !! 0%nat
    = Some (map F32.of_number (concat a')) /\
    forall i j,
      (i < N.to_nat MATRIX_SIZE)%nat -> (j < N.to_nat MATRIX_SIZE)%nat ->
      result_cell (react (multiplyMatrices MATRIX_SIZE env st1)) i j
      = Some (Num (F64.of_Z 0)).
Proof.
  intros Hq Ha Sa Hb Sb Hrow Hcol num v a'.
  destruct (updateMatrix_holds st (matrixA st) setMatrixA row col value a r Ha Hrow Hcol)
    as (newMatrix & h' & Hrun & Ha' & Hframe).
  eexists. split; [exact Hrun|]. cbn [resultMatrix error objects setMatrixA setObjects].
  split; [reflexivity|]. split; [reflexivity|]. split.
  { intros m rows Hm. eapply read_matrix_frame; [exact Hframe|exact Hm]. }
  assert (Sa' : square MATRIX_SIZE a').
  { eapply square_insert; [exact Sa|exact Hrow|]. now rewrite length_insert. }
  assert (Hb' : holds h' (matrixB st) b)
    by (eapply read_matrix_frame; [exact Hframe|exact Hb]).
  split.
  - destruct (multiplyMatrices_quiet MATRIX_SIZE env
                (setMatrixA newMatrix (setObjects h' st)) a' b)
      as (h2 & -> & _); try assumption.
    reflexivity.
  - intros i j Hi Hj.
    apply (result_cell_quiet MATRIX_SIZE env _ a' b i j Hq); assumption.
Qed.

End EditThenMultiply.

Lemma edit_then_multiply_witness :
  let st := initial_state 4 in
  let num := parseFloat_digits "42" in
  let v := if F64.isNaN num then F64.of_Z 0 else num in
  let a' := <[1%nat := <[2%nat := v]> (map F64.of_Z [0; 1; 0; 0]%Z)]> (initial_matrixA 4) in
  exists st1,
    updateMatrix parseFloat_digits (matrixA st) setMatrixA 1 2 "42" st = (Return tt, st1) /\
    resultMatrix st1 = resultMatrix st /\ error st1 = error st /\
    (forall m rows, read_matrix (objects st) m = Some rows ->
                    read_matrix (objects st1) m = Some rows) /\
    GPUBuffer.contents <$> buffers (device (@multiplyMatrices ieee754 4 quiet st1)) !! 0%nat
    = Some (map F32.of_number (concat a')) /\
    forall i j,
      (i < N.to_nat 4)%nat -> (j < N.to_nat 4)%nat ->
      result_cell (react (@multiplyMatrices ieee754 4 quiet st1)) i j
      = Some (Num (F64.of_Z 0)).
Proof.
  apply (@edit_then_multiply ieee754 parseFloat_digits 4 quiet (initial_state 4)
           (initial_matrixA 4) (initial_matrixB 4) 1 2 "42"
           (map F64.of_Z [0; 1; 0; 0]%Z)).
  - exact quiet_no_failure.
  - exact initial_holds_A.
  - exact initial_square_A.
  - exact initial_holds_B.
  - exact initial_square_B.
  - vm_compute. reflexivity.
  - vm_compute. lia.
Defined.

(** ** The view *)

Section ViewFacts.
Context {arith : F32Arith}.
Variable MATRIX_SIZE : N.
Variable parseFloat : string -> number.
Variable toFixed : number -> N -> string.

Lemma elem_of_nil_inv {A} (x : A) (P : Prop) : x ∈ @nil A -> P.
Proof. intros H. now apply elem_of_nil in H. Qed.

(** The inputs of a row of numbers: one per element, each with the handler
    of its own cell. *)
Lemma map_cells_inputs name matrix setMatrix rowIndex (r : list number) :
  forall colIndex st,
  exists nodes,
    map_cells (fun colIndex value =>
                 mret (cell_input parseFloat name matrix setMatrix rowIndex colIndex value))
      colIndex (map Num r) st
    = (Return nodes, st) /\
    (forall h, h ∈ concat (map changes nodes) ->
       exists j x, r !! j = Some x /\
         h = fun text =>
               updateMatrix parseFloat matrix setMatrix rowIndex (colIndex + j) text) /\
    length (concat (map changes nodes)) = length r /\
    concat (map clicks nodes) = [].
Proof.
  induction r as [|x r IH]; intros colIndex st.
  - exists []. split; [reflexivity|]. split; [|split; reflexivity].
    intros h Hh. now apply elem_of_nil in Hh.
  - destruct (IH (S colIndex) st) as (nodes & Hrun & Hch & Hlen & Hcl).
    eexists. cbn [map map_cells]. rewrite !bind_unfold. cbn [mret M_ret].
    rewrite bind_unfold, Hrun. split; [reflexivity|]. split; [|split].
    + cbn [map concat changes cell_input attribute_changes app].
      intros h [->|Hh]%elem_of_cons.
      * exists 0%nat, x. split; [reflexivity|]. now rewrite Nat.add_0_r.
      * destruct (Hch h Hh) as (j & y & Hy & ->).
        exists (S j), y. split; [exact Hy|].
        now replace (S colIndex + j)%nat with (colIndex + S j)%nat by lia.
    + cbn [map concat changes cell_input attribute_changes app length].
      now rewrite Hlen.
    + cbn [map concat clicks cell_input attribute_clicks app]. exact Hcl.
Qed.

Lemma map_rows_inputs name matrix setMatrix (vals : list (list number)) st :
  forall rs rowIndex,
  Forall2 (fun l cs => objects st !! l = Some (Cells cs)) rs (map (map Num) vals) ->
  exists rows,
    map_rows (fun rowIndex colIndex value =>
                mret (cell_input parseFloat name matrix setMatrix rowIndex colIndex value))
      rowIndex rs st
    = (Return rows, st) /\
    (forall h, h ∈ concat (map changes rows) ->
       exists i j r x, vals !! i = Some r /\ r !! j = Some x /\
         h = fun text =>
               updateMatrix parseFloat matrix setMatrix (rowIndex + i) j text) /\
    length (concat (map changes rows)) = length (concat vals) /\
    concat (map clicks rows) = [].
Proof.
  induction vals as [|r vals IH]; intros rs rowIndex Hrs.
  - apply Forall2_nil_inv_r in Hrs as ->.
    exists []. split; [reflexivity|]. split; [|split; reflexivity].
    intros h Hh. now apply elem_of_nil in Hh.
  - cbn [map] in Hrs. apply Forall2_cons_inv_r in Hrs as (l & rs' & Hl & Hrs & ->).
    destruct (map_cells_inputs name matrix setMatrix rowIndex r 0 st)
      as (row & Hrow & Hch & Hlen & Hcl).
    destruct (IH rs' (S rowIndex) Hrs) as (rows & Hrun & Hchs & Hlens & Hcls).
    eexists. cbn [map_rows]. rewrite bind_unfold. unfold cells_of at 1. rewrite Hl.
    rewrite bind_unfold, Hrow, bind_unfold, Hrun. split; [reflexivity|].
    split; [|split; [cbn [map concat changes]; now rewrite !length_app, Hlen, Hlens|]].
    + cbn [map concat changes]. intros h [Hh|Hh]%elem_of_app.
      * destruct (Hch h Hh) as (j & x & Hx & ->).
        exists 0%nat, j, r, x. split; [reflexivity|]. split; [exact Hx|].
        now rewrite Nat.add_0_r.
      * destruct (Hchs h Hh) as (i & j & r' & x & Hr' & Hx & ->).
        exists (S i), j, r', x. split; [exact Hr'|]. split; [exact Hx|].
        now replace (S rowIndex + i)%nat with (rowIndex + S i)%nat by lia.
    + cbn [map concat clicks]. now rewrite Hcl, Hcls.
Qed.

Lemma matrix_panel_inputs title name matrix setMatrix vals st :
  holds (objects st) matrix vals ->
  exists panel,
    matrix_panel parseFloat title name matrix setMatrix st = (Return panel, st) /\
    (forall h, h ∈ changes panel ->
       exists i j x, cell vals i j = Some x /\
         h = fun text => updateMatrix parseFloat matrix setMatrix i j text) /\
    length (changes panel) = length (concat vals) /\
    clicks panel = [].
Proof.
  intros (rs & Hm & Hrs)%read_matrix_Some.
  destruct (map_rows_inputs name matrix setMatrix vals st rs 0 Hrs)
    as (rows & Hrun & Hch & Hlen & Hcl).
  eexists. unfold matrix_panel. rewrite bind_unfold. unfold rows_of at 1. rewrite Hm.
  rewrite bind_unfold, Hrun. split; [reflexivity|]. split; [|split].
  - cbn [changes map concat attribute_changes app]. rewrite !app_nil_r.
    intros h Hh. destruct (Hch h Hh) as (i & j & r & x & Hr & Hx & ->).
    exists i, j, x. split; [|reflexivity]. apply cell_Some. eauto.
  - cbn [changes map concat attribute_changes app]. now rewrite !app_nil_r.
  - cbn [clicks map concat attribute_clicks app]. now rewrite Hcl.
Qed.

(** The cells of a result of numbers: no handlers, no failure. *)
Lemma map_cells_result rowIndex (r : list number) :
  forall colIndex st,
  exists nodes,
    map_cells (result_div toFixed rowIndex) colIndex (map Num r) st = (Return nodes, st) /\
    concat (map changes nodes) = [] /\ concat (map clicks nodes) = [].
Proof.
  induction r as [|x r IH]; intros colIndex st.
  - exists []. repeat split.
  - destruct (IH (S colIndex) st) as (nodes & Hrun & Hch & Hcl).
    eexists. cbn [map map_cells]. rewrite !bind_unfold. cbn [result_div mret M_ret].
    rewrite bind_unfold, Hrun. split; [reflexivity|].
    cbn [map concat changes clicks attribute_changes attribute_clicks app].
    now rewrite Hch, Hcl.
Qed.

Lemma map_rows_result (vals : list (list number)) st :
  forall rs rowIndex,
  Forall2 (fun l cs => objects st !! l = Some (Cells cs)) rs (map (map Num) vals) ->
  exists rows,
    map_rows (result_div toFixed) rowIndex rs st = (Return rows, st) /\
    concat (map changes rows) = [] /\ concat (map clicks rows) = [].
Proof.
  induction vals as [|r vals IH]; intros rs rowIndex Hrs.
  - apply Forall2_nil_inv_r in Hrs as ->. exists []. repeat split.
  - cbn [map] in Hrs. apply Forall2_cons_inv_r in Hrs as (l & rs' & Hl & Hrs & ->).
    destruct (map_cells_result rowIndex r 0 st) as (row & Hrow & Hch & Hcl).
    destruct (IH rs' (S rowIndex) Hrs) as (rows & Hrun & Hchs & Hcls).
    eexists. cbn [map_rows]. rewrite bind_unfold. unfold cells_of at 1. rewrite Hl.
    rewrite bind_unfold, Hrow, bind_unfold, Hrun. split; [reflexivity|].
    cbn [map concat changes clicks]. now rewrite Hch, Hcl, Hchs, Hcls.
Qed.

Lemma result_display_quiet st st0 :
  match resultMatrix st0 with
  | None => True
  | Some r => exists c, holds (objects st) r c
  end ->
  exists node,
    result_display toFixed st0 st = (Return node, st) /\
    changes node = [] /\ clicks node = [].
Proof.
  intros Hres. unfold result_display.
  destruct (loading st0); [eexists; repeat split|].
  destruct (resultMatrix st0) as [r|]; [|eexists; repeat split].
  destruct Hres as (c & (rs & Hm & Hrs)%read_matrix_Some).
  destruct (map_rows_result c st rs 0 Hrs) as (rows & Hrun & Hch & Hcl).
  eexists. rewrite bind_unfold. unfold rows_of at 1. rewrite Hm.
  rewrite bind_unfold, Hrun. split; [reflexivity|].
  cbn [changes clicks map concat attribute_changes attribute_clicks app].
  now rewrite Hch, Hcl.
Qed.

Lemma error_banner_inert e : changes (error_banner e) = [] /\ clicks (error_banner e) = [].
Proof. destruct e as [[|c s]|]; split; reflexivity. Qed.

End ViewFacts.

Section PageInvariant.
Context {arith : F32Arith}.
Variable MATRIX_SIZE : N.
Variable parseFloat : string -> number.
Variable toFixed : number -> N -> string.

Lemma holds_frame (h h' : gmap loc array) m vals :
  (forall l a, h !! l = Some a -> h' !! l = Some a) ->
  holds h m vals -> holds h' m vals.
Proof.
  intros Hframe (rs & Hm & Hrs)%read_matrix_Some.
  apply read_matrix_Some. exists rs. split; [now apply Hframe|].
  eapply Forall2_impl; [exact Hrs|]. intros l cs. apply Hframe.
Qed.

Lemma initial_well_formed : well_formed MATRIX_SIZE (initial_state MATRIX_SIZE).
Proof.
  destruct (state_with_holds (initial_matrixA MATRIX_SIZE) (initial_matrixB MATRIX_SIZE))
    as (Ha & Hb & Hr & _).
  fold (initial_state MATRIX_SIZE) in Ha, Hb, Hr.
  split; [|split].
  - eexists. split; [exact Ha|apply square_identity].
  - eexists. split; [exact Hb|apply square_initial_matrixB].
  - now rewrite Hr.
Qed.

Lemma multiply_well_formed env st :
  well_formed MATRIX_SIZE st ->
  well_formed MATRIX_SIZE (react (multiplyMatrices MATRIX_SIZE env st)).
Proof.
  intros ((a & Ha & Sa) & (b & Hb & Sb) & Hres).
  destruct (multiply_outcomes MATRIX_SIZE env st)
    as (HA & HB & _ & Hobj & Hcases).
  split; [|split].
  - exists a. split; [|exact Sa]. rewrite HA. eapply holds_frame; eauto.
  - exists b. split; [|exact Sb]. rewrite HB. eapply holds_frame; eauto.
  - destruct Hcases as [(_ & r & vals & -> & _ & Hr & _)|(message & _ & ->)].
    + eauto.
    + destruct (resultMatrix st) as [r|]; [|exact I].
      destruct Hres as [c Hc]. exists c. eapply holds_frame; eauto.
Qed.

Lemma edit_well_formed st a b (which : bool) row col x text :
  holds (objects st) (matrixA st) a -> square MATRIX_SIZE a ->
  holds (objects st) (matrixB st) b -> square MATRIX_SIZE b ->
  match resultMatrix st with
  | None => True
  | Some r => exists c, holds (objects st) r c
  end ->
  cell (if which then a else b) row col = Some x ->
  exists st',
    updateMatrix parseFloat (if which then matrixA st else matrixB st)
      (if which then setMatrixA else setMatrixB) row col text st
    = (Return tt, st') /\
    well_formed MATRIX_SIZE st'.
Proof.
  intros Ha Sa Hb Sb Hres Hcell.
  set (vals := if which then a else b) in *.
  assert (Hv : holds (objects st) (if which then matrixA st else matrixB st) vals)
    by (unfold vals; now destruct which).
  assert (Sv : square MATRIX_SIZE vals) by (unfold vals; now destruct which).
  destruct (proj1 (cell_Some _ _ _ _) Hcell) as (r & Hr & Hx).
  destruct (updateMatrix_holds parseFloat st _
              (if which then setMatrixA else setMatrixB) row col text vals r Hv Hr
              ltac:(eapply lookup_lt_Some; exact Hx))
    as (newMatrix & h' & Hrun & Hnew & Hframe).
  assert (Hframe' : forall l v, objects st !! l = Some v -> h' !! l = Some v).
  { intros l v Hl. rewrite Hframe; eauto. }
  assert (Snew : square MATRIX_SIZE
                   (<[row := <[col := if F64.isNaN (parseFloat text)
                                      then F64.of_Z 0 else parseFloat text]> r]> vals)).
  { eapply square_insert; [exact Sv|exact Hr|]. now rewrite length_insert. }
  eexists. split; [exact Hrun|].
  assert (Hres' : match resultMatrix st with
                  | None => True
                  | Some r0 => exists c, holds h' r0 c
                  end).
  { destruct (resultMatrix st) as [r0|]; [|exact I].
    destruct Hres as [c Hc]. exists c. eapply holds_frame; eauto. }
  destruct which; (split; [|split]); cbn; eauto using holds_frame.
Qed.

(** X15.  The page keeps its shape.  It starts with two
    [MATRIX_SIZE] x [MATRIX_SIZE] matrices of numbers and no result; and in
    every state with two such matrices and a result, if any, that is a
    matrix of numbers, the page renders without an exception, with
    [2 * MATRIX_SIZE^2] [onChange] handlers and one [onClick] handler,
    [multiplyMatrices]; every [onChange] handler, on whatever text, returns
    and leaves such a state again, and so does the [onClick], whatever the
    environment does.  So an edit through the page never hits the
    [TypeError] of [updateMatrix], never grows a row, and [toFixed] is
    never called on [undefined]. *)
Theorem page_stays_well_formed :
  well_formed MATRIX_SIZE (initial_state MATRIX_SIZE) /\
  forall st,
    well_formed MATRIX_SIZE st ->
    exists tree,
      HomePage MATRIX_SIZE parseFloat toFixed st = (Return tree, st) /\
      length (changes tree) = (2 * (N.to_nat MATRIX_SIZE * N.to_nat MATRIX_SIZE))%nat /\
      clicks tree = [multiplyMatrices MATRIX_SIZE] /\
      (forall handler text,
         handler ∈ changes tree ->
         exists st', handler text st = (Return tt, st') /\ well_formed MATRIX_SIZE st') /\
      (forall handler env,
         handler ∈ clicks tree ->
         well_formed MATRIX_SIZE (react (handler env st))).
Proof.
  split; [exact initial_well_formed|].
  intros st Hwf. pose proof Hwf as ((a & Ha & Sa) & (b & Hb & Sb) & Hres).
  destruct (matrix_panel_inputs parseFloat "Matrix A" "a" (matrixA st) setMatrixA a st Ha)
    as (panelA & HrunA & HchA & HlenA & HclA).
  destruct (matrix_panel_inputs parseFloat "Matrix B" "b" (matrixB st) setMatrixB b st Hb)
    as (panelB & HrunB & HchB & HlenB & HclB).
  destruct (result_display_quiet toFixed st st Hres) as (result & HrunR & HchR & HclR).
  destruct (error_banner_inert (error st)) as [HchE HclE].
  eexists. unfold HomePage. rewrite bind_unfold. cbn [gets].
  rewrite bind_unfold, HrunA, bind_unfold, HrunB, bind_unfold, HrunR.
  split; [reflexivity|]. split; [|split; [|split]].
  - cbn [changes map concat attribute_changes app multiply_button].
    rewrite HchE, HchR, !app_nil_r. cbn [app].
    rewrite length_app, HlenA, HlenB, !(length_concat_square MATRIX_SIZE) by assumption.
    lia.
  - cbn [clicks map concat attribute_clicks app multiply_button].
    now rewrite HclE, HclA, HclB, HclR.
  - intros handler text.
    cbn [changes map concat attribute_changes app multiply_button].
    rewrite HchE, HchR, !app_nil_r. cbn [app].
    intros [Hh|Hh]%elem_of_app.
    + destruct (HchA handler Hh) as (i & j & x & Hx & ->).
      exact (edit_well_formed st a b true i j x text Ha Sa Hb Sb Hres Hx).
    + destruct (HchB handler Hh) as (i & j & x & Hx & ->).
      exact (edit_well_formed st a b false i j x text Ha Sa Hb Sb Hres Hx).
  - intros handler env.
    cbn [clicks map concat attribute_clicks app multiply_button].
    rewrite HclE, HclA, HclB, HclR. cbn [app].
    intros ->%list_elem_of_singleton. now apply multiply_well_formed.
Qed.

End PageInvariant.

Section Rendering.
Context {arith : F32Arith}.
Variable MATRIX_SIZE : N.
Variable parseFloat : string -> number.
Variable toFixed : number -> N -> string.

(** Computations whose outcome does not depend on the state and that leave
    the state alone. *)
Local Abbreviation constant c := (exists R, forall st : State, c st = (R, st)).

Lemma constant_bind {A B} (c : M State A) (k : A -> M State B) :
  constant c -> (forall a, constant (k a)) -> constant (c ≫= k).
Proof.
  intros [[a|message] Hc] Hk.
  - destruct (Hk a) as [R HR]. exists R. intros st. now rewrite bind_unfold, Hc.
  - exists (Throw message). intros st. now rewrite bind_unfold, Hc.
Qed.

Lemma constant_ret {A} (a : A) : constant (mret a : M State A).
Proof. now exists (Return a). Qed.

Lemma constant_map_cells f cs :
  (forall colIndex value, constant (f colIndex value)) ->
  forall colIndex, constant (map_cells f colIndex cs).
Proof.
  intros Hf. induction cs as [|value cs IH]; intros colIndex; cbn [map_cells].
  - apply constant_ret.
  - destruct value;
      repeat (apply constant_bind; [solve [auto]|intros ?]); apply constant_ret.
Qed.

(** Rendering rows reads the rows and nothing else. *)
Lemma map_rows_reads f css :
  (forall rowIndex colIndex value, constant (f rowIndex colIndex value)) ->
  forall rowIndex,
  exists R, forall st rs,
    Forall2 (fun l cs => objects st !! l = Some (Cells cs)) rs css ->
    map_rows f rowIndex rs st = (R, st).
Proof.
  intros Hf. induction css as [|cs css IH]; intros rowIndex.
  - exists (Return []). intros st rs ->%Forall2_nil_inv_r. reflexivity.
  - destruct (constant_map_cells (f rowIndex) cs (Hf rowIndex) 0) as [R1 H1].
    destruct (IH (S rowIndex)) as [R2 H2].
    exists (match R1 with
            | Return row =>
                match R2 with
                | Return rows => Return (Fragment row :: rows)
                | Throw message => Throw message
                end
            | Throw message => Throw message
            end).
    intros st rs (l & rs' & Hl & Hrs & ->)%Forall2_cons_inv_r.
    cbn [map_rows]. rewrite bind_unfold. unfold cells_of at 1. rewrite Hl.
    rewrite bind_unfold, H1. destruct R1 as [row|message]; [|reflexivity].
    rewrite bind_unfold, (H2 st rs' Hrs). now destruct R2.
Qed.

Lemma matrix_panel_reads title name matrix setMatrix css :
  exists R, forall st,
    read_matrix (objects st) matrix = Some css ->
    matrix_panel parseFloat title name matrix setMatrix st = (R, st).
Proof.
  destruct (map_rows_reads
              (fun rowIndex colIndex value =>
                 mret (cell_input parseFloat name matrix setMatrix rowIndex colIndex value))
              css ltac:(intros; apply constant_ret) 0) as [[rows|message] HR].
  - eexists (Return _). intros st (rs & Hm & Hrs)%read_matrix_Some.
    unfold matrix_panel. rewrite bind_unfold. unfold rows_of at 1. rewrite Hm.
    rewrite bind_unfold, (HR st rs Hrs). reflexivity.
  - exists (Throw message). intros st (rs & Hm & Hrs)%read_matrix_Some.
    unfold matrix_panel. rewrite bind_unfold. unfold rows_of at 1. rewrite Hm.
    rewrite bind_unfold, (HR st rs Hrs). reflexivity.
Qed.

Lemma constant_result_div rowIndex colIndex value :
  constant (result_div toFixed rowIndex colIndex value).
Proof. destruct value; eexists; intros st; reflexivity. Qed.

(** What stands under "Result" depends on [loading], and on the rows of the
    result when there is one. *)
Lemma result_display_reads (load : bool) (shown : option (list (list elt))) :
  exists R, forall st0 st,
    loading st0 = load ->
    match resultMatrix st0 with
    | Some r => exists rows, shown = Some rows /\ read_matrix (objects st) r = Some rows
    | None => shown = None
    end ->
    result_display toFixed st0 st = (R, st).
Proof.
  destruct load.
  { eexists (Return _). intros st0 st Hl _. unfold result_display. rewrite Hl.
    reflexivity. }
  destruct shown as [rows|].
  - destruct (map_rows_reads (result_div toFixed) rows constant_result_div 0)
      as [[nodes|message] HR].
    + eexists (Return _). intros st0 st Hl Hres. unfold result_display. rewrite Hl.
      destruct (resultMatrix st0) as [r|]; [|discriminate].
      destruct Hres as (rows' & [= <-] & (rs & Hm & Hrs)%read_matrix_Some).
      rewrite bind_unfold. unfold rows_of at 1. rewrite Hm.
      rewrite bind_unfold, (HR st rs Hrs). reflexivity.
    + exists (Throw message). intros st0 st Hl Hres. unfold result_display. rewrite Hl.
      destruct (resultMatrix st0) as [r|]; [|discriminate].
      destruct Hres as (rows' & [= <-] & (rs & Hm & Hrs)%read_matrix_Some).
      rewrite bind_unfold. unfold rows_of at 1. rewrite Hm.
      rewrite bind_unfold, (HR st rs Hrs). reflexivity.
  - eexists (Return _). intros st0 st Hl Hres. unfold result_display. rewrite Hl.
    destruct (resultMatrix st0) as [r|]; [|reflexivity].
    now destruct Hres as (rows' & [=] & _).
Qed.

(** The tree depends on the flags, the references and what the three
    matrices read as. *)
Lemma HomePage_reads st st2 :
  matrixA st2 = matrixA st -> matrixB st2 = matrixB st ->
  resultMatrix st2 = resultMatrix st -> error st2 = error st ->
  loading st2 = loading st ->
  well_formed MATRIX_SIZE st ->
  (forall l a, objects st !! l = Some a -> objects st2 !! l = Some a) ->
  exists tree,
    HomePage MATRIX_SIZE parseFloat toFixed st = (Return tree, st) /\
    HomePage MATRIX_SIZE parseFloat toFixed st2 = (Return tree, st2).
Proof.
  intros HA HB Hres Herr Hload ((a & Ha & Sa) & (b & Hb & Sb) & Hshown) Hobj.
  destruct (matrix_panel_reads "Matrix A" "a" (matrixA st) setMatrixA (map (map Num) a))
    as [RA HRA].
  destruct (matrix_panel_reads "Matrix B" "b" (matrixB st) setMatrixB (map (map Num) b))
    as [RB HRB].
  destruct (result_display_reads (loading st)
              (match resultMatrix st with
               | Some r => read_matrix (objects st) r
               | None => None
               end)) as [RR HRR].
  destruct (matrix_panel_inputs parseFloat "Matrix A" "a" (matrixA st) setMatrixA a st Ha)
    as (panelA & HrunA & _).
  destruct (matrix_panel_inputs parseFloat "Matrix B" "b" (matrixB st) setMatrixB b st Hb)
    as (panelB & HrunB & _).
  destruct (result_display_quiet toFixed st st Hshown) as (result & HrunR & _).
  assert (EA : RA = Return panelA) by (pose proof (HRA st Ha); congruence).
  assert (EB : RB = Return panelB) by (pose proof (HRB st Hb); congruence).
  assert (Hst : match resultMatrix st with
                | Some r => exists rows,
                    match resultMatrix st with
                    | Some r => read_matrix (objects st) r
                    | None => None
                    end = Some rows /\ read_matrix (objects st) r = Some rows
                | None => match resultMatrix st with
                          | Some r => read_matrix (objects st) r
                          | None => None
                          end = None
                end).
  { destruct (resultMatrix st) as [r|]; [|reflexivity].
    destruct Hshown as [c Hc]. eauto. }
  assert (ER : RR = Return result) by (pose proof (HRR st st eq_refl Hst); congruence).
  subst RA RB RR.
  exists (Element "main" [ClassName "min-h-screen bg-black p-8"]
          [ Element "h1" [ClassName "text-4xl font-bold text-center mb-8 text-purple-400"]
              [Text "WebGPU Matrix Multiplication"];
            error_banner (error st);
            Element "div" [ClassName "max-w-4xl mx-auto grid grid-cols-1 md:grid-cols-3 gap-8"]
              [ panelA;
                panelB;
                Element "div"
                  [ClassName "bg-gray-900 p-4 rounded shadow border border-gray-800 flex flex-col items-center"]
                  [ Element "h2" [ClassName "text-2xl font-semibold mb-4 text-purple-300"]
                      [Text "Result"];
                    result ] ];
            Element "div" [ClassName "text-center mt-8"] [multiply_button MATRIX_SIZE st] ]).
  split.
  - unfold HomePage. rewrite bind_unfold. cbn [gets].
    now rewrite bind_unfold, HrunA, bind_unfold, HrunB, bind_unfold, HrunR.
  - unfold HomePage. rewrite bind_unfold. cbn [gets].
    rewrite HA, HB, Herr.
    rewrite bind_unfold, (HRA st2) by (eapply holds_frame; eauto).
    rewrite bind_unfold, (HRB st2) by (eapply holds_frame; eauto).
    rewrite bind_unfold, (HRR st2 st2 Hload).
    + unfold multiply_button. now rewrite Hload.
    + rewrite Hres. destruct (resultMatrix st) as [r|]; [|reflexivity].
      destruct Hshown as [c Hc]. exists (map (map Num) c). split; [exact Hc|].
      eapply holds_frame; eauto.
Qed.

(** X16.  A run that fails changes nothing on the page but the error: the
    page rendered after it is, element for element and handler for handler,
    the page of the state before the run with the error set to the message
    and [loading] false.  The inputs and an earlier result stay as they
    were shown. *)
Theorem failed_run_display env st message :
  well_formed MATRIX_SIZE st ->
  error (react (multiplyMatrices MATRIX_SIZE env st)) = Some message ->
  let st' := react (multiplyMatrices MATRIX_SIZE env st) in
  let shown := setLoading false (setError (Some message) st) in
  exists tree,
    HomePage MATRIX_SIZE parseFloat toFixed shown = (Return tree, shown) /\
    HomePage MATRIX_SIZE parseFloat toFixed st' = (Return tree, st').
Proof.
  intros Hwf Hfail. cbv zeta.
  destruct (multiply_outcomes MATRIX_SIZE env st)
    as (HA & HB & Hload & Hobj & [(He & _)|(message' & He & Hres)]);
    [congruence|].
  apply HomePage_reads; assumption.
Qed.

End Rendering.

Lemma failed_run_display_witness :
  let env := failing_at 86 "rejected" in
  let st := initial_state 4 in
  let st' := react (@multiplyMatrices ieee754 4 env st) in
  let shown := setLoading false (setError (Some "rejected"%string) st) in
  exists tree,
    @HomePage ieee754 4 parseFloat_digits (fun _ _ => EmptyString) shown
    = (Return tree, shown) /\
    @HomePage ieee754 4 parseFloat_digits (fun _ _ => EmptyString) st'
    = (Return tree, st').
Proof.
  apply (@failed_run_display ieee754 4 parseFloat_digits (fun _ _ => EmptyString)
           (failing_at 86 "rejected") (initial_state 4) "rejected").
  - exact (initial_well_formed 4).
  - vm_compute. reflexivity.
Defined.

(** ** The keys *)

Section Keys.

Lemma dashless_pretty_N_go x : forall s, dashless s = true -> dashless (pretty_N_go x s) = true.
Proof.
  induction (N.lt_wf_0 x) as [x _ IH]. intros s Hs.
  destruct (N.eq_dec x 0) as [->|Hx]; [exact Hs|].
  rewrite pretty_N_go_step by lia. apply IH; [apply N.div_lt; lia|].
  cbn [dashless]. rewrite Hs, andb_true_r.
  unfold pretty_N_char. repeat case_match; reflexivity.
Qed.

Lemma dashless_pretty (n : nat) : dashless (pretty n) = true.
Proof.
  unfold pretty, pretty_nat, pretty, pretty_N.
  destruct (decide (N.of_nat n = 0)); [reflexivity|].
  now apply dashless_pretty_N_go.
Qed.

(** Two strings that are cut at their first dash. *)
Lemma split_at_dash d : forall d' t t',
  dashless d = true -> dashless d' = true ->
  d +:+ String "-" t = d' +:+ String "-" t' -> d = d' /\ t = t'.
Proof.
  induction d as [|c d IH]; intros [|c' d'] t t' Hd Hd' E; cbn in *.
  - now injection E.
  - injection E as <- _. discriminate.
  - injection E as -> _. discriminate.
  - injection E as <- E. apply andb_true_iff in Hd as [_ Hd], Hd' as [_ Hd'].
    destruct (IH d' t t' Hd Hd' E) as [-> ->]. now split.
Qed.

(** A key tells the name, the row and the column it was made of. *)
Lemma cell_key_inj name name' i j i' j' :
  dashless name = true -> dashless name' = true ->
  cell_key name i j = cell_key name' i' j' ->
  name = name' /\ i = i' /\ j = j'.
Proof.
  intros Hn Hn' E. unfold cell_key in E.
  apply split_at_dash in E as [-> E]; [|assumption..].
  apply split_at_dash in E as [Ei Ej]; [|apply dashless_pretty..].
  apply (inj pretty) in Ei, Ej. auto.
Qed.

End Keys.

Section PageKeys.
Context {arith : F32Arith}.
Variable MATRIX_SIZE : N.
Variable parseFloat : string -> number.
Variable toFixed : number -> N -> string.

Local Abbreviation key_of name := (fun p : nat * nat => cell_key name p.1 p.2).

Lemma map_cells_keys name rowIndex (f : nat -> elt -> M State Node) (r : list number) :
  (forall j v st, exists node,
     f j (Num v) st = (Return node, st) /\ keys node = [cell_key name rowIndex j]) ->
  forall colIndex st,
  exists nodes,
    map_cells f colIndex (map Num r) st = (Return nodes, st) /\
    concat (map keys nodes) = map (cell_key name rowIndex) (seq colIndex (length r)).
Proof.
  intros Hf. induction r as [|x r IH]; intros colIndex st.
  - exists []. split; reflexivity.
  - destruct (Hf colIndex x st) as (node & Hnode & Hkey).
    destruct (IH (S colIndex) st) as (nodes & Hrun & Hkeys).
    exists (node :: nodes). cbn [map map_cells].
    rewrite bind_unfold, Hnode, bind_unfold, Hrun. split; [reflexivity|].
    cbn [map concat length seq]. now rewrite Hkey, Hkeys.
Qed.

Lemma map_rows_keys name (f : nat -> nat -> elt -> M State Node)
    (vals : list (list number)) st :
  (forall i j v st, exists node,
     f i j (Num v) st = (Return node, st) /\ keys node = [cell_key name i j]) ->
  forall rs rowIndex,
  Forall2 (fun l cs => objects st !! l = Some (Cells cs)) rs (map (map Num) vals) ->
  exists rows ps,
    map_rows f rowIndex rs st = (Return rows, st) /\
    concat (map keys rows) = map (key_of name) ps /\
    NoDup ps /\ length ps = length (concat vals) /\
    forall p, p ∈ ps -> (rowIndex <= p.1)%nat.
Proof.
  intros Hf. induction vals as [|r vals IH]; intros rs rowIndex Hrs.
  - apply Forall2_nil_inv_r in Hrs as ->.
    exists [], []. repeat split; [constructor|]. intros p Hp. now apply elem_of_nil in Hp.
  - cbn [map] in Hrs. apply Forall2_cons_inv_r in Hrs as (l & rs' & Hl & Hrs & ->).
    destruct (map_cells_keys name rowIndex (f rowIndex) r (Hf rowIndex) 0 st)
      as (row & Hrow & Hkeys).
    destruct (IH rs' (S rowIndex) Hrs) as (rows & ps & Hrun & Hkeyss & Hnd & Hlen & Hge).
    exists (Fragment row :: rows), (map (pair rowIndex) (seq 0 (length r)) ++ ps).
    cbn [map_rows]. rewrite bind_unfold. unfold cells_of at 1. rewrite Hl.
    rewrite bind_unfold, Hrow, bind_unfold, Hrun. split; [reflexivity|].
    split; [|split; [|split]].
    + cbn [map concat keys]. now rewrite Hkeys, Hkeyss, map_app, map_map.
    + apply NoDup_app. split; [|split; [|exact Hnd]].
      * apply (NoDup_fmap_2 (pair rowIndex)), NoDup_seq.
      * intros p [j [-> _]]%list_elem_of_fmap Hp. apply Hge in Hp. cbn in Hp. lia.
    + cbn [concat]. now rewrite !length_app, length_map, length_seq, Hlen.
    + intros p [[j [-> _]]%list_elem_of_fmap|Hp%Hge]%elem_of_app; cbn; lia.
Qed.

Lemma matrix_panel_keys title name matrix setMatrix vals st :
  holds (objects st) matrix vals ->
  exists panel ps,
    matrix_panel parseFloat title name matrix setMatrix st = (Return panel, st) /\
    keys panel = map (key_of name) ps /\ NoDup ps /\ length ps = length (concat vals).
Proof.
  intros (rs & Hm & Hrs)%read_matrix_Some.
  destruct (map_rows_keys name
              (fun rowIndex colIndex value =>
                 mret (cell_input parseFloat name matrix setMatrix rowIndex colIndex value))
              vals st) with (rs := rs) (rowIndex := 0%nat)
    as (rows & ps & Hrun & Hkeys & Hnd & Hlen & _); [|exact Hrs|].
  { intros i j v st0. eexists. split; reflexivity. }
  exists (Element "div" [ClassName "bg-gray-900 p-4 rounded shadow border border-gray-800"]
            [ Element "h2" [ClassName "text-2xl font-semibold mb-4 text-center text-purple-300"]
                [Text title];
              Element "div" [ClassName "grid grid-cols-4 gap-2"] [Fragment rows] ]), ps.
  unfold matrix_panel. rewrite bind_unfold. unfold rows_of at 1. rewrite Hm.
  rewrite bind_unfold, Hrun. split; [reflexivity|]. split; [|split; assumption].
  cbn [keys map concat attribute_keys app]. now rewrite !app_nil_r.
Qed.

Lemma result_display_keys st st0 :
  match resultMatrix st0 with
  | None => True
  | Some r => exists c, holds (objects st) r c
  end ->
  exists node ps,
    result_display toFixed st0 st = (Return node, st) /\
    keys node = map (key_of "res") ps /\ NoDup ps.
Proof.
  intros Hres. unfold result_display.
  destruct (loading st0); [eexists _, []; repeat split; constructor|].
  destruct (resultMatrix st0) as [r|]; [|eexists _, []; repeat split; constructor].
  destruct Hres as (c & (rs & Hm & Hrs)%read_matrix_Some).
  destruct (map_rows_keys "res" (result_div toFixed) c st) with (rs := rs) (rowIndex := 0%nat)
    as (rows & ps & Hrun & Hkeys & Hnd & _); [|exact Hrs|].
  { intros i j v st1. eexists. split; reflexivity. }
  exists (Element "div" [ClassName "grid grid-cols-4 gap-2"] [Fragment rows]), ps.
  rewrite bind_unfold. unfold rows_of at 1. rewrite Hm.
  rewrite bind_unfold, Hrun. split; [reflexivity|]. split; [|exact Hnd].
  cbn [keys map concat attribute_keys app]. now rewrite !app_nil_r.
Qed.

Lemma NoDup_keys name ps : dashless name = true -> NoDup ps -> NoDup (map (key_of name) ps).
Proof.
  intros Hn. apply NoDup_fmap_2_strong. intros [i j] [i' j'] _ _ E. cbn in E.
  apply cell_key_inj in E as (_ & -> & ->); auto.
Qed.

Lemma keys_apart name name' ps ps' k :
  dashless name = true -> dashless name' = true -> name <> name' ->
  k ∈ map (key_of name) ps -> k ∈ map (key_of name') ps' -> False.
Proof.
  intros Hn Hn' Hne [p [-> _]]%list_elem_of_fmap [p' [E _]]%list_elem_of_fmap.
  apply cell_key_inj in E as (E & _); auto.
Qed.

(** X17.  No two elements of the page share a [key].  In every state with
    two [MATRIX_SIZE] x [MATRIX_SIZE] matrices of numbers and a result, if
    any, that is a matrix of numbers, the keys of the rendered tree (those
    of the inputs of both matrices and of the cells of the result) are
    pairwise different, and there are at least [2 * MATRIX_SIZE^2] of them:
    the decimal indices hold no dash, so [name-row-col] can be read in one
    way only. *)
Theorem page_keys_unique st :
  well_formed MATRIX_SIZE st ->
  exists tree,
    HomePage MATRIX_SIZE parseFloat toFixed st = (Return tree, st) /\
    NoDup (keys tree) /\
    (2 * (N.to_nat MATRIX_SIZE * N.to_nat MATRIX_SIZE) <= length (keys tree))%nat.
Proof.
  intros ((a & Ha & Sa) & (b & Hb & Sb) & Hres).
  destruct (matrix_panel_keys "Matrix A" "a" (matrixA st) setMatrixA a st Ha)
    as (panelA & psA & HrunA & HkA & HndA & HlenA).
  destruct (matrix_panel_keys "Matrix B" "b" (matrixB st) setMatrixB b st Hb)
    as (panelB & psB & HrunB & HkB & HndB & HlenB).
  destruct (result_display_keys st st Hres) as (result & psR & HrunR & HkR & HndR).
  eexists. unfold HomePage. rewrite bind_unfold. cbn [gets].
  rewrite bind_unfold, HrunA, bind_unfold, HrunB, bind_unfold, HrunR.
  split; [reflexivity|].
  assert (HE : keys (error_banner (error st)) = []) by (now destruct (error st) as [[|c s]|]).
  cbn [keys map concat attribute_keys app multiply_button].
  rewrite HE, HkA, HkB, HkR, !app_nil_r. cbn [app]. split.
  - apply NoDup_app. split; [now apply NoDup_keys|]. split.
    + intros k Hk [Hk'|Hk']%elem_of_app;
        [eapply (keys_apart "a" "b")|eapply (keys_apart "a" "res")]; eauto; discriminate.
    + apply NoDup_app. split; [now apply NoDup_keys|]. split; [|now apply NoDup_keys].
      intros k Hk Hk'. eapply (keys_apart "b" "res"); eauto; discriminate.
  - rewrite !length_app, !length_map, HlenA, HlenB,
      !(length_concat_square MATRIX_SIZE) by assumption.
    lia.
Qed.

End PageKeys.

Lemma page_keys_unique_witness :
  let st := react (@multiplyMatrices ieee754 4 quiet (initial_state 4)) in
  exists tree,
    @HomePage ieee754 4 parseFloat_digits (fun _ _ => EmptyString) st = (Return tree, st) /\
    NoDup (keys tree) /\
    (2 * (N.to_nat 4 * N.to_nat 4) <= length (keys tree))%nat.
Proof.
  apply (@page_keys_unique ieee754 4 parseFloat_digits (fun _ _ => EmptyString)).
  apply multiply_well_formed, initial_well_formed.
Defined.
